(** * Logo similarity: extraction, fingerprinting and clustering

    A shallow embedding of the Python sources

      - [src/config.py]           (class [Config])
      - [src/clusterer.py]        (class [Clusterer])
      - [src/logo_extractor.py]   (class [LogoExtractor])
      - [src/image_processor.py]  (class [ImageProcessor])
      - [main.py]                 (class [LogoSimilarityPipeline])

    together with the parts of the libraries they call ([imagehash],
    [networkx], [PIL], [aiohttp], [asyncio]) that decide what the code
    returns.  Python dictionaries are association lists in insertion order,
    Python sets are [gset string], Python integers are [Z], and a call that
    may raise lives in the exception monad [result]. *)

From Stdlib Require Import ZArith Lia Ascii.
From stdpp Require Import gmap strings list.

Open Scope string_scope.
Open Scope list_scope.
Open Scope Z_scope.

(** ** Exceptions *)

Inductive exn : Type :=
  | ValueError
  | TypeError
  | KeyError
  | ClientError      (* aiohttp: connection errors and time-outs *)
  | OSError          (* PIL: bytes that are not an image *)
  | ZeroDivisionError
  | RuntimeError
  | Deadlock.        (* no exception: the awaited tasks never complete *)

Inductive result (A : Type) : Type :=
  | Ok (a : A)
  | Raise (e : exn).
Arguments Ok {A} a.
Arguments Raise {A} e.

#[global] Instance result_ret : MRet result := λ A a, Ok a.
#[global] Instance result_bind : MBind result := λ A B f m,
  match m with Ok a => f a | Raise e => Raise e end.

(** [try: body  except Exception: handler] *)
Definition try_except {A} (body : result A) (handler : exn → A) : A :=
  match body with Ok a => a | Raise e => handler e end.

(** [for x in l: s = body(s, x)] where the body may raise. *)
Fixpoint for_each {A S} (body : S → A → result S) (l : list A) (s : S)
  : result S :=
  match l with
  | [] => Ok s
  | x :: l' => s' ← body s x; for_each body l' s'
  end.

(** ** Python values *)

Module Py.

(** Truth value of a [str]: the empty string is false. *)
Definition str_truthy (s : string) : bool :=
    negb (bool_decide (s = "")).

(** Truth value of an [Optional[str]]. *)
Definition opt_str_truthy (o : option string) : bool :=
    match o with Some s => str_truthy s | None => false end.

(** A [dict] with [str] keys: its items in insertion order. *)
Definition dict (V : Type) : Type := list (string * V).

Section Dict.
Context {V : Type}.

(** [d.get(k)] *)
Fixpoint get (k : string) (d : dict V) : option V :=
      match d with
      | [] => None
      | (k', v) :: d' => if decide (k = k') then Some v else get k d'
      end.

(** [d[k] = v]: an existing key keeps its position. *)
Fixpoint set (k : string) (v : V) (d : dict V) : dict V :=
      match d with
      | [] => [(k, v)]
      | (k', v') :: d' =>
          if decide (k = k') then (k', v) :: d' else (k', v') :: set k v d'
      end.

(** [list(d)], [list(d.keys())] *)
Definition keys (d : dict V) : list string := d.*1.

(** [k in d] *)
Definition mem (k : string) (d : dict V) : bool :=
      bool_decide (k ∈ keys d).

(** [d.update(other)] *)
Definition update (d other : dict V) : dict V :=
      fold_left (λ acc kv, set kv.1 kv.2 acc) other d.

End Dict.

(** [[l[i:i+n] for i in range(0, len(l), n)]] for a positive [n]; every
      round removes at least one element, so [length l] rounds are enough. *)
Fixpoint slices_fuel {A} (fuel n : nat) (l : list A) : list (list A) :=
    match fuel with
    | O => []
    | S fuel' =>
        match l with
        | [] => []
        | _ :: _ => take n l :: slices_fuel fuel' n (drop n l)
        end
    end.

(** The same comprehension for any integer step: [range] raises
      [ValueError] on a zero step and is empty on a negative one. *)
Definition slices {A} (n : Z) (l : list A) : result (list (list A)) :=
    if decide (n = 0) then Raise ValueError
    else if decide (n < 0) then Ok []
    else Ok (slices_fuel (length l) (Z.to_nat n) l).

End Py.

(** ** [imagehash]: hexadecimal codes and Hamming distance *)

Module ImageHash.

(** The [hash] attribute: a two-dimensional boolean array, row by row. *)
Definition t : Type := list (list bool).

(** [hash.flatten()] and [hash.size] *)
Definition flatten (h : t) : list bool := concat h.
Definition size (h : t) : nat := length (flatten h).

Definition ascii_code (c : ascii) : Z := Z.of_N (Ascii.N_of_ascii c).

Definition hex_digit_value (c : ascii) : option Z :=
    let n := ascii_code c in
    if (48 <=? n) && (n <=? 57) then Some (n - 48)
    else if (97 <=? n) && (n <=? 102) then Some (n - 87)
    else if (65 <=? n) && (n <=? 70) then Some (n - 55)
    else None.

(** Blanks that [int] skips at both ends of an ASCII string. *)
Definition is_space (c : ascii) : bool :=
    let n := ascii_code c in
    ((9 <=? n) && (n <=? 13)) || (n =? 32).

Fixpoint lstrip (l : list ascii) : list ascii :=
    match l with
    | c :: l' => if is_space c then lstrip l' else l
    | [] => []
    end.

Definition strip (l : list ascii) : list ascii :=
    reverse (lstrip (reverse (lstrip l))).

Definition is_underscore (c : ascii) : bool := ascii_code c =? 95.

(** The digit loop of [int(_, 16)]: single underscores between digits. *)
Fixpoint hex_digits (acc : Z) (prev_underscore : bool) (l : list ascii)
    : option Z :=
    match l with
    | [] => if prev_underscore then None else Some acc
    | c :: l' =>
        if is_underscore c then
          if prev_underscore then None else hex_digits acc true l'
        else
          match hex_digit_value c with
          | Some d => hex_digits (16 * acc + d) false l'
          | None => None
          end
    end.

Definition strip_sign (l : list ascii) : Z * list ascii :=
    match l with
    | c :: l' =>
        if ascii_code c =? 43 then (1, l')
        else if ascii_code c =? 45 then (-1, l')
        else (1, l)
    | [] => (1, [])
    end.

(** A [0x] or [0X] prefix, and the one underscore allowed after it. *)
Definition strip_prefix (l : list ascii) : list ascii :=
    match l with
    | z :: x :: l' =>
        if (ascii_code z =? 48) && ((ascii_code x =? 120) || (ascii_code x =? 88))
        then match l' with
             | u :: l'' => if is_underscore u then l'' else l'
             | [] => l'
             end
        else l
    | _ => l
    end.

(** [int(s, 16)] on an ASCII string; [ValueError] when [s] is no
      hexadecimal literal.  The digits and blanks beyond ASCII that
      Python also accepts are not modelled. *)
Definition int16 (s : string) : result Z :=
    let '(sign, l) := strip_sign (strip (String.list_ascii_of_string s)) in
    let digits := strip_prefix l in
    match digits with
    | [] => Raise ValueError
    | c :: _ =>
        if is_underscore c then Raise ValueError
        else match hex_digits 0 false digits with
             | Some v => Ok (sign * v)
             | None => Raise ValueError
             end
    end.

(** Binary digits of a positive number, most significant first. *)
Fixpoint pos_bits (p : positive) : list bool :=
    match p with
    | xH => [true]
    | xO q => pos_bits q ++ [false]
    | xI q => pos_bits q ++ [true]
    end.

(** ['{:0>{width}b}'.format(v, width=width)] for [0 <= v]. *)
Definition format_bin (width : nat) (v : Z) : list bool :=
    let ds := match v with Zpos p => pos_bits p | _ => [false] end in
    replicate (width - length ds) false ++ ds.

(** [imagehash.hex_to_hash].  A negative value prints a sign that
      [int(d)] rejects, and rows of unequal length are no array. *)
Definition hex_to_hash (hexstr : string) : result t :=
    v ← int16 hexstr;
    if decide (v < 0) then Raise ValueError
    else
      let hash_size := Nat.sqrt (String.length hexstr * 4) in
      let binary_array := format_bin (hash_size * hash_size) v in
      bit_rows ← Py.slices (Z.of_nat hash_size) binary_array;
      if forallb (λ row, bool_decide (length row = hash_size)) bit_rows
      then Ok bit_rows
      else Raise ValueError.

(** [numpy.count_nonzero(a != b)] on two flat arrays of one length. *)
Fixpoint count_differing (a b : list bool) : Z :=
    match a, b with
    | x :: a', y :: b' => (if xorb x y then 1 else 0) + count_differing a' b'
    | _, _ => 0
    end.

(** [ImageHash.__sub__] *)
Definition sub (h1 h2 : t) : result Z :=
    if decide (size h1 = size h2)
    then Ok (count_differing (flatten h1) (flatten h2))
    else Raise TypeError.

Definition hex_char (d : Z) : ascii :=
    Ascii.ascii_of_N (Z.to_N (if d <? 10 then 48 + d else 87 + d)).

Fixpoint hex_fuel (fuel : nat) (v : Z) (acc : list ascii) : list ascii :=
    match fuel with
    | O => acc
    | S fuel' =>
        if v <? 16 then hex_char v :: acc
        else hex_fuel fuel' (v / 16) (hex_char (v mod 16) :: acc)
    end.

(** [int(bit_string, 2)] *)
Definition int2 (bits : list bool) : Z :=
    fold_left (λ acc (b : bool), 2 * acc + (if b then 1 else 0)) bits 0.

(** ['{:0>{width}x}'.format(v, width=width)] for [0 <= v]. *)
Definition format_hex (width : nat) (v : Z) : string :=
    let ds := hex_fuel (S (Z.to_nat (Z.log2 v))) v [] in
    String.string_of_list_ascii
      (replicate (width - length ds) (Ascii.ascii_of_N 48) ++ ds).

(** [str(h)], that is [_binary_array_to_hex(h.hash.flatten())], for a hash
      with at least one bit; on a hash with no bits Python raises
      [ValueError] at [int('', 2)], where this gives the digit 0. *)
Definition to_str (h : t) : string :=
    let bits := flatten h in
    format_hex (Nat.div (length bits + 3) 4) (int2 bits).

End ImageHash.

(** ** [src/config.py] *)

Record Config : Type := {
  TIMEOUT : Z;
  MAX_RETRIES : Z;
  BATCH_SIZE : Z;
  MAX_CONCURRENT : Z;
  HASH_CHUNK_SIZE : Z;
  EXACT_MATCH_THRESHOLD : Z;
  NEAR_DUPLICATE_THRESHOLD : Z;
  SIMILAR_THRESHOLD : Z;
  NORMALIZE_SIZE : Z;
  MIN_IMAGE_SIZE : Z;
}.

(** The class attributes of [Config]. *)
Definition default_config : Config := {|
  TIMEOUT := 8;
  MAX_RETRIES := 1;
  BATCH_SIZE := 100;
  MAX_CONCURRENT := 20;
  HASH_CHUNK_SIZE := 200;
  EXACT_MATCH_THRESHOLD := 0;
  NEAR_DUPLICATE_THRESHOLD := 5;
  SIMILAR_THRESHOLD := 10;
  NORMALIZE_SIZE := 64;
  MIN_IMAGE_SIZE := 16;
|}.

(** ** [src/clusterer.py]: the distance *)

(** [Clusterer._compute_hash_distance]: any exception of the three library
    calls is logged and answered with the sentinel [999]. *)
Definition _compute_hash_distance (hash1 hash2 : string) : Z :=
  try_except
    (h1 ← ImageHash.hex_to_hash hash1;
     h2 ← ImageHash.hex_to_hash hash2;
     ImageHash.sub h1 h2)
    (λ _, 999).

(** ** Fingerprint records *)

(** The dictionary returned by [ImageProcessor.process_logo].  A record that
    reaches the clusterer from elsewhere may lack the ['hashes'] key. *)
Module LogoData.
Record t : Type := {
    url : string;
    hashes : option (Py.dict string);
    size : Z * Z;
    format : option string;
  }.
End LogoData.

(** ** [networkx]: undirected graphs and their connected components *)

Module nx.

(** [Graph._node] (keys only) and [Graph._adj]; the edge attribute
      dictionary holds the one key ['distance']. *)
Record Graph : Type := {
    _node : list string;
    _adj : Py.dict (Py.dict Z);
  }.

(** [nx.Graph()] *)
Definition empty : Graph := {| _node := []; _adj := [] |}.

(** [G._adj[v]], iterated: the neighbours of [v]. *)
Definition adj (G : Graph) (v : string) : Py.dict Z :=
    default [] (Py.get v (_adj G)).
Definition neighbors (G : Graph) (v : string) : list string :=
    Py.keys (adj G v).

(** [G.add_node(n)] *)
Definition add_node (n : string) (G : Graph) : Graph :=
    if decide (n ∈ _node G) then G
    else {| _node := _node G ++ [n]; _adj := Py.set n [] (_adj G) |}.

(** [G.add_edge(u, v, distance=d)] *)
Definition add_edge (u v : string) (d : Z) (G : Graph) : Graph :=
    let G := add_node v (add_node u G) in
    let adj1 := Py.set u (Py.set v d (adj G u)) (_adj G) in
    let adj2 := Py.set v (Py.set u d (default [] (Py.get v adj1))) adj1 in
    {| _node := _node G; _adj := adj2 |}.

(** [G.has_edge(u, v)] *)
Definition has_edge (G : Graph) (u v : string) : bool :=
    bool_decide (v ∈ neighbors G u).

(** [G[u][v]['distance']] *)
Definition edge_distance (G : Graph) (u v : string) : option Z :=
    Py.get v (adj G u).

(** The inner loop of [_plain_bfs]:
      [for w in adj[v]: if w not in seen: seen.add(w); nextlevel.append(w)] *)
Definition visit (ws : list string) (st : gset string * list string)
    : gset string * list string :=
    fold_left
      (λ (st : gset string * list string) (w : string),
         if decide (w ∈ st.1) then st else ({[w]} ∪ st.1, st.2 ++ [w]))
      ws st.

(** [for v in thislevel: ...; if len(seen) == n: return seen]; the flag
      tells whether the early [return] was taken. *)
Fixpoint scan_level (G : Graph) (n : nat) (thislevel : list string)
      (seen : gset string) (nextlevel : list string)
    : gset string * list string * bool :=
    match thislevel with
    | [] => (seen, nextlevel, false)
    | v :: rest =>
        let st := visit (neighbors G v) (seen, nextlevel) in
        if decide (size st.1 = n) then (st.1, st.2, true)
        else scan_level G n rest st.1 st.2
    end.

(** [while nextlevel: ...] *)
Fixpoint bfs_loop (fuel : nat) (G : Graph) (n : nat)
      (seen : gset string) (nextlevel : list string) : gset string :=
    match fuel with
    | O => seen
    | S fuel' =>
        match nextlevel with
        | [] => seen
        | _ :: _ =>
            let r := scan_level G n nextlevel seen [] in
            if r.2 then r.1.1 else bfs_loop fuel' G n r.1.1 r.1.2
        end
    end.

(** [_plain_bfs(G, n, source)]; every round but the last sees a new node,
      so [n] rounds are enough. *)
Definition _plain_bfs (G : Graph) (n : nat) (source : string) : gset string :=
    bfs_loop n G n {[source]} [source].

(** One round of [for v in G: if v not in seen: ...]; the state is [seen]
    and the components yielded so far. *)
Definition components_step (G : Graph)
    (st : gset string * list (gset string)) (v : string)
  : gset string * list (gset string) :=
    if decide (v ∈ st.1) then st
    else let c := _plain_bfs G (length (_node G)) v in (st.1 ∪ c, st.2 ++ [c]).

(** [list(nx.connected_components(G))] *)
Definition connected_components (G : Graph) : list (gset string) :=
    (fold_left (components_step G) (_node G) (∅, [])).2.

End nx.

(** ** [src/clusterer.py]: the threshold graph and its clusters *)

(** [data and 'hashes' in data and data['hashes'].get('phash')] *)
Definition has_phash (data : option LogoData.t) : bool :=
  match data with
  | None => false
  | Some r =>
      match LogoData.hashes r with
      | None => false
      | Some hs => Py.opt_str_truthy (Py.get "phash" hs)
      end
  end.

Definition valid_domains (logo_data : Py.dict (option LogoData.t)) : list string :=
  (filter (λ item, has_phash item.2) logo_data).*1.

(** [logo_data[domain]['hashes']['phash']]; the three subscripts succeed on
    every member of [valid_domains], which was filtered on them. *)
Definition phash_of (logo_data : Py.dict (option LogoData.t)) (domain : string)
  : string :=
  default "" (data ← Py.get domain logo_data;
              r ← data;
              hs ← LogoData.hashes r;
              Py.get "phash" hs).

(** The inner loop [for domain2 in valid_domains[i+1:]]. *)
Definition add_edges_from (cfg : Config) (logo_data : Py.dict (option LogoData.t))
    (domain1 : string) (rest : list string) (G : nx.Graph) : nx.Graph :=
  let hash1 := phash_of logo_data domain1 in
  fold_left
    (λ G domain2,
       let hash2 := phash_of logo_data domain2 in
       let distance := _compute_hash_distance hash1 hash2 in
       if decide (distance ≤ NEAR_DUPLICATE_THRESHOLD cfg)
       then nx.add_edge domain1 domain2 distance G
       else G)
    rest G.

(** The outer loop [for i, domain1 in enumerate(valid_domains)]. *)
Fixpoint add_all_edges (cfg : Config) (logo_data : Py.dict (option LogoData.t))
    (valid : list string) (G : nx.Graph) : nx.Graph :=
  match valid with
  | [] => G
  | domain1 :: rest =>
      add_all_edges cfg logo_data rest (add_edges_from cfg logo_data domain1 rest G)
  end.

(** The graph [G] of [cluster_by_similarity] just before the components
    are taken. *)
Definition similarity_graph (cfg : Config) (logo_data : Py.dict (option LogoData.t))
  : nx.Graph :=
  let valid := valid_domains logo_data in
  add_all_edges cfg logo_data valid
    (fold_left (λ G domain, nx.add_node domain G) valid nx.empty).

(** [Clusterer.cluster_by_similarity] *)
Definition cluster_by_similarity (cfg : Config)
    (logo_data : Py.dict (option LogoData.t)) : list (gset string) :=
  nx.connected_components (similarity_graph cfg logo_data).

(** A record as [process_logo] builds it, with the given primary code. *)
Definition record_with_phash (u h : string) : option LogoData.t :=
  Some {| LogoData.url := u;
          LogoData.hashes :=
            Some [("phash", h); ("dhash", h); ("ahash", h); ("whash", h)];
          LogoData.size := (32, 32);
          LogoData.format := Some "PNG" |}.

Definition three_logos : Py.dict (option LogoData.t) :=
  [ ("a.com", record_with_phash "https://a.com/favicon.ico" "0000000000000000");
    ("b.com", record_with_phash "https://b.com/favicon.ico" "0000000000000007");
    ("c.com", record_with_phash "https://c.com/favicon.ico" "0000000000000f07");
    ("d.com", record_with_phash "https://d.com/favicon.ico" "ffffffffffffffff");
    ("e.com", None) ].

(** Three records in a chain: the codes are 3, 4 and 7 bits apart. *)
Definition chain_logos : Py.dict (option LogoData.t) :=
  [ ("a.com", record_with_phash "https://a.com/favicon.ico" "0000000000000000");
    ("b.com", record_with_phash "https://b.com/favicon.ico" "0000000000000007");
    ("c.com", record_with_phash "https://c.com/favicon.ico" "0000000000000f07") ].

(** Two records whose primary codes have 16 and 64 bits. *)
Definition mismatched_logos : Py.dict (option LogoData.t) :=
  [ ("a.com", record_with_phash "https://a.com/favicon.ico" "ffff");
    ("b.com", record_with_phash "https://b.com/favicon.ico" "ffffffffffffffff") ].

(** ** Predicates on graphs and clusters *)

(** The shape of every graph built through [add_node] and [add_edge]. *)
Record graph_wf (G : nx.Graph) : Prop := {
  graph_wf_NoDup : NoDup (nx._node G);
  graph_wf_node : ∀ u v, v ∈ nx.neighbors G u → u ∈ nx._node G ∧ v ∈ nx._node G;
  graph_wf_sym : ∀ u v, v ∈ nx.neighbors G u → u ∈ nx.neighbors G v;
}.

(** A set of nodes no edge leaves. *)
Definition closed (G : nx.Graph) (X : gset string) : Prop :=
  ∀ u v, u ∈ X → v ∈ nx.neighbors G u → v ∈ X.

(** What holds between two steps of the search from a node outside the
    closed set [S]: [pending] are the nodes whose neighbours are still to be
    looked at. *)
Definition bfs_inv (G : nx.Graph) (S seen : gset string) (pending : list string)
  : Prop :=
  (∀ x, x ∈ pending → x ∈ seen)
  ∧ (∀ x, x ∈ seen → x ∈ nx._node G)
  ∧ (∀ x y, x ∈ seen → x ∉ pending → y ∈ nx.neighbors G x → y ∈ seen)
  ∧ seen ## S.

(** What holds of the set the search returns. *)
Definition bfs_post (G : nx.Graph) (S R : gset string) : Prop :=
  (∀ x, x ∈ R → x ∈ nx._node G) ∧ closed G R ∧ R ## S.

(** One connected component: not empty, closed, and not cut by any closed
    set. *)
Definition component (G : nx.Graph) (c : gset string) : Prop :=
  c ≠ ∅ ∧ closed G c ∧ ∀ X, closed G X → c ⊆ X ∨ c ## X.

(** What holds of the state of [connected_components] after the nodes
    [processed]. *)
Record components_inv (G : nx.Graph) (processed : list string)
    (st : gset string * list (gset string)) : Prop := {
  ci_cover : ∀ x, x ∈ st.1 ↔ ∃ c, c ∈ st.2 ∧ x ∈ c;
  ci_closed : closed G st.1;
  ci_processed : ∀ x, x ∈ processed → x ∈ st.1;
  ci_nodes : ∀ x, x ∈ st.1 → x ∈ nx._node G;
  ci_disjoint : ∀ i j c1 c2,
    i ≠ j → st.2 !! i = Some c1 → st.2 !! j = Some c2 → c1 ## c2;
  ci_each : ∀ c, c ∈ st.2 → component G c;
}.

(** [d1] comes before [d2] in [l]. *)
Definition precedes (d1 d2 : string) (l : list string) : Prop :=
  ∃ l1 l2, l = l1 ++ d1 :: l2 ∧ d2 ∈ l2.

(** The distance [cluster_by_similarity] computes for two domains. *)
Definition domain_distance (logo_data : Py.dict (option LogoData.t))
    (d1 d2 : string) : Z :=
  _compute_hash_distance (phash_of logo_data d1) (phash_of logo_data d2).

(** The pair [d1], [d2] is within the threshold and [u], [v] are its ends. *)
Definition linked (cfg : Config) (logo_data : Py.dict (option LogoData.t))
    (d1 d2 u v : string) : Prop :=
  domain_distance logo_data d1 d2 ≤ NEAR_DUPLICATE_THRESHOLD cfg
  ∧ ((u = d1 ∧ v = d2) ∨ (u = d2 ∧ v = d1)).

(** The number of bits of a hexadecimal code, when it is one. *)
Definition code_bits (hexstr : string) : option nat :=
  match ImageHash.hex_to_hash hexstr with
  | Ok h => Some (ImageHash.size h)
  | Raise _ => None
  end.

(** [d] is a member of some cluster. *)
Definition clustered (clusters : list (gset string)) (d : string) : Prop :=
  ∃ c, c ∈ clusters ∧ d ∈ c.

(** The policy the specification asks for when the primary codes of [d1]
    and [d2] differ in bit length: the pair gets no distance, so one of the
    two records is left out of the clusters ([cluster_by_similarity] returns
    a list and has no way to reject a run). *)
Definition mismatch_rejected (cfg : Config)
    (logo_data : Py.dict (option LogoData.t)) (d1 d2 : string) : Prop :=
  ∀ n1 n2,
    code_bits (phash_of logo_data d1) = Some n1 →
    code_bits (phash_of logo_data d2) = Some n2 →
    n1 ≠ n2 →
    ¬ clustered (cluster_by_similarity cfg logo_data) d1
    ∨ ¬ clustered (cluster_by_similarity cfg logo_data) d2.

(** ** The outside world: network, [PIL] and the hash functions *)

(** An [aiohttp] response: its status and what [text()] and [read()] give. *)
Module Response.
Record t : Type := {
  status : Z;
  text : result string;
  read : result (list Byte.byte);
}.
End Response.

(** A [PIL.Image.Image]. *)
Module Image.
Record t : Type := {
  mode : string;
  size : Z * Z;
  format : option string;
  data : list Byte.byte;
}.
End Image.

(** Everything the code asks of its environment during one run.  A request
    is answered by its URL alone; the [User-Agent] drawn by [_get_headers]
    is not part of the model. *)
Record World : Type := {
  (** [session.get(url)] *)
  session_get : string → result Response.t;
  (** [session.head(url, allow_redirects=True)]: the status *)
  session_head : string → result Z;
  (** the [BeautifulSoup] searches of [_extract_from_html], with
      [normalize_url] and [is_valid_image_url], on a page and its base URL *)
  find_logo_in_html : string → string → result (option string);
  (** [Image.open(io.BytesIO(image_data))] *)
  Image_open : list Byte.byte → result Image.t;
  (** the pixels of [img.convert(mode)] and of [img.resize(size, LANCZOS)] *)
  convert_data : string → Image.t → result (list Byte.byte);
  resize_data : Z * Z → Image.t → result (list Byte.byte);
  (** [imagehash.phash], [dhash], [average_hash], [whash] *)
  phash : Image.t → result ImageHash.t;
  dhash : Image.t → result ImageHash.t;
  average_hash : Image.t → result ImageHash.t;
  whash : Image.t → result ImageHash.t;
}.

(** [asyncio.Semaphore(value)] *)
Definition Semaphore (value : Z) : result Z :=
  if decide (value < 0) then Raise ValueError else Ok value.

(** Tasks that each run under [async with sem]: all of them complete, unless
    the semaphore has no permit at all and a task waits for one for ever. *)
Definition run_under {A} (sem : Z) (tasks : list A) : result (list A) :=
  match tasks with
  | [] => Ok []
  | _ :: _ => if decide (sem = 0) then Raise Deadlock else Ok tasks
  end.

(** ** [src/logo_extractor.py] *)

(** [LogoExtractor._extract_from_html] *)
Definition _extract_from_html (w : World) (base_url : string) : option string :=
  try_except
    (response ← session_get w base_url;
     if decide (Response.status response ≠ 200) then Ok None
     else
       html ← Response.text response;
       find_logo_in_html w html base_url)
    (λ _, None).

Definition common_paths : list string :=
  [ "/logo.png"; "/logo.svg";
    "/assets/logo.png"; "/assets/logo.svg";
    "/images/logo.png"; "/img/logo.png";
    "/static/logo.png"; "/static/images/logo.png";
    "/wp-content/uploads/logo.png" ].

(** The loop [for path in common_paths] of [_try_common_paths]. *)
Fixpoint try_paths (w : World) (base_url : string) (paths : list string)
  : option string :=
  match paths with
  | [] => None
  | path :: rest =>
      let url := base_url +:+ path in
      match session_head w url with
      | Ok status =>
          if decide (status = 200) then Some url else try_paths w base_url rest
      | Raise _ => try_paths w base_url rest
      end
  end.

(** [LogoExtractor._try_common_paths] *)
Definition _try_common_paths (w : World) (base_url : string) : option string :=
  try_paths w base_url common_paths.

(** The body of [extract_logo_url] over any two strategies, each of which
    may return a URL, return nothing, or raise. *)
Definition extract_logo_url_with
    (from_html common_paths : string → result (option string))
    (domain : string) : option string :=
  let base_url := "https://" +:+ domain in
  try_except
    (logo_url ← from_html base_url;
     if Py.opt_str_truthy logo_url then Ok logo_url
     else
       logo_url ← common_paths base_url;
       if Py.opt_str_truthy logo_url then Ok logo_url
       else Ok (Some (base_url +:+ "/favicon.ico")))
    (λ _, Some (base_url +:+ "/favicon.ico")).

(** [LogoExtractor.extract_logo_url] *)
Definition extract_logo_url (w : World) (domain : string) : option string :=
  extract_logo_url_with
    (λ base_url, Ok (_extract_from_html w base_url))
    (λ base_url, Ok (_try_common_paths w base_url))
    domain.

(** The loop [for domain, result in zip(domains, results)] of
    [extract_batch]. *)
Definition collect_url (output : Py.dict (option string))
    (item : string * result (option string)) : Py.dict (option string) :=
  match item.2 with
  | Raise _ => Py.set item.1 None output
  | Ok url => Py.set item.1 url output
  end.

(** [LogoExtractor.extract_batch]; [asyncio.gather] with
    [return_exceptions=True] gives the outcomes in the order of the tasks. *)
Definition extract_batch (cfg : Config) (w : World) (domains : list string)
  : result (Py.dict (option string)) :=
  sem ← Semaphore (MAX_CONCURRENT cfg);
  results ← run_under sem (map (λ d, Ok (extract_logo_url w d)) domains);
  Ok (fold_left collect_url (zip domains results) []).

(** [LogoSimilarityPipeline.extract_all_logos] in [main.py]; the division
    is the one of [total_batches]. *)
Definition extract_all_logos (cfg : Config) (w : World) (domains : list string)
  : result (Py.dict (option string)) :=
  if decide (BATCH_SIZE cfg = 0) then Raise ZeroDivisionError
  else
    batches ← Py.slices (BATCH_SIZE cfg) domains;
    for_each
      (λ logo_urls batch,
         batch_results ← extract_batch cfg w batch;
         Ok (Py.update logo_urls batch_results))
      batches [].

(** ** [src/image_processor.py] *)

(** [img.convert(mode)]: a new image of that mode, not read from a file. *)
Definition Image_convert (w : World) (mode : string) (img : Image.t)
  : result Image.t :=
  data ← convert_data w mode img;
  Ok {| Image.mode := mode; Image.size := Image.size img;
        Image.format := None; Image.data := data |}.

(** [img.resize(size, Image.Resampling.LANCZOS)]: [ValueError] unless both
    sides are positive. *)
Definition Image_resize (w : World) (size : Z * Z) (img : Image.t)
  : result Image.t :=
  if decide (0 < size.1 ∧ 0 < size.2) then
    data ← resize_data w size img;
    Ok {| Image.mode := Image.mode img; Image.size := size;
          Image.format := None; Image.data := data |}
  else Raise ValueError.

(** [ImageProcessor._validate_image] *)
Definition _validate_image (cfg : Config) (img : Image.t) : bool :=
  let '(width, height) := Image.size img in
  if decide (width < MIN_IMAGE_SIZE cfg ∨ height < MIN_IMAGE_SIZE cfg)
  then false else true.

(** [ImageProcessor.download_image] *)
Definition download_image (cfg : Config) (w : World) (url : string)
  : option Image.t :=
  try_except
    (response ← session_get w url;
     if decide (Response.status response ≠ 200) then Ok None
     else
       image_data ← Response.read response;
       img ← Image_open w image_data;
       if negb (_validate_image cfg img) then Ok None else Ok (Some img))
    (λ _, None).

(** [if img.mode not in ['RGB', 'L', 'RGBA']: img = img.convert('RGB')] *)
Definition to_known_mode (w : World) (img : Image.t) : result Image.t :=
  if decide (Image.mode img ∉ ["RGB"; "L"; "RGBA"])
  then Image_convert w "RGB" img
  else Ok img.

(** [if img.mode == 'P': img = img.convert('RGBA').convert('RGB')] *)
Definition expand_palette (w : World) (img : Image.t) : result Image.t :=
  if decide (Image.mode img = "P")
  then rgba ← Image_convert w "RGBA" img; Image_convert w "RGB" rgba
  else Ok img.

(** [ImageProcessor.normalize_image] *)
Definition normalize_image (cfg : Config) (w : World) (img : Image.t)
  : result Image.t :=
  img ← to_known_mode w img;
  img ← expand_palette w img;
  Image_resize w (NORMALIZE_SIZE cfg, NORMALIZE_SIZE cfg) img.

(** [ImageProcessor.compute_hashes] *)
Definition compute_hashes (cfg : Config) (w : World) (img : Image.t)
  : result (Py.dict string) :=
  normalized ← normalize_image cfg w img;
  p ← phash w normalized;
  d ← dhash w normalized;
  a ← average_hash w normalized;
  wv ← whash w normalized;
  Ok [ ("phash", ImageHash.to_str p);
       ("dhash", ImageHash.to_str d);
       ("ahash", ImageHash.to_str a);
       ("whash", ImageHash.to_str wv) ].

(** [ImageProcessor.process_logo]; an [Image] is always true. *)
Definition process_logo (cfg : Config) (w : World) (url : string)
  : option LogoData.t :=
  match download_image cfg w url with
  | None => None
  | Some img =>
      try_except
        (hashes ← compute_hashes cfg w img;
         Ok (Some {| LogoData.url := url;
                     LogoData.hashes := Some hashes;
                     LogoData.size := Image.size img;
                     LogoData.format := Image.format img |}))
        (λ _, None)
  end.

(** ** [main.py]: the hashing phase *)

(** [[(d, u) for d, u in logo_urls.items() if u]] *)
Definition work_items (logo_urls : Py.dict (option string))
  : list (string * string) :=
  omap (λ item : string * option string,
          match item.2 with
          | Some u => if Py.str_truthy u then Some (item.1, u) else None
          | None => None
          end)
       logo_urls.

(** The [worker] of [process_all_images]; [process_logo] does not raise. *)
Definition worker (cfg : Config) (w : World) (item : string * string)
  : string * option LogoData.t :=
  (item.1, process_logo cfg w item.2).

(** [if data: logo_data[domain] = data] *)
Definition collect_data (logo_data : Py.dict LogoData.t)
    (done : string * option LogoData.t) : Py.dict LogoData.t :=
  match done.2 with
  | Some data => Py.set done.1 data logo_data
  | None => logo_data
  end.

(** The order in which [asyncio.as_completed] hands back the tasks of a
    chunk.  The chunks of one run are different lists, so a function of the
    chunk can order each of them in its own way. *)
Definition Scheduler : Type :=
  list (string * option LogoData.t) → list (string * option LogoData.t).

(** Every task completes once. *)
Definition fair (as_completed : Scheduler) : Prop :=
  ∀ tasks, as_completed tasks ≡ₚ tasks.

(** [LogoSimilarityPipeline.process_all_images] *)
Definition process_all_images (cfg : Config) (w : World)
    (as_completed : Scheduler) (logo_urls : Py.dict (option string))
  : result (Py.dict LogoData.t) :=
  let items := work_items logo_urls in
  sem ← Semaphore (MAX_CONCURRENT cfg);
  chunks ← Py.slices (HASH_CHUNK_SIZE cfg) items;
  for_each
    (λ logo_data chunk,
       tasks ← run_under sem (map (worker cfg w) chunk);
       Ok (fold_left collect_data (as_completed tasks) logo_data))
    chunks [].

(** The configuration with another chunk size and concurrency limit. *)
Definition with_scheduling (cfg : Config) (chunk_size max_concurrent : Z)
  : Config :=
  {| TIMEOUT := TIMEOUT cfg;
     MAX_RETRIES := MAX_RETRIES cfg;
     BATCH_SIZE := BATCH_SIZE cfg;
     MAX_CONCURRENT := max_concurrent;
     HASH_CHUNK_SIZE := chunk_size;
     EXACT_MATCH_THRESHOLD := EXACT_MATCH_THRESHOLD cfg;
     NEAR_DUPLICATE_THRESHOLD := NEAR_DUPLICATE_THRESHOLD cfg;
     SIMILAR_THRESHOLD := SIMILAR_THRESHOLD cfg;
     NORMALIZE_SIZE := NORMALIZE_SIZE cfg;
     MIN_IMAGE_SIZE := MIN_IMAGE_SIZE cfg |}.

(** [PIL] never fails on the pixels of an image. *)
Definition pil_total (w : World) : Prop :=
  ∀ img, (∀ mode, ∃ data, convert_data w mode img = Ok data)
         ∧ (∀ size, ∃ data, resize_data w size img = Ok data).

(** [m] has exactly the keys [l], each once, and maps [k] to [f k]. *)
Definition tabulates {V} (f : string → V) (l : list string) (m : Py.dict V)
  : Prop :=
  NoDup (Py.keys m)
  ∧ (∀ k, k ∈ Py.keys m ↔ k ∈ l)
  ∧ (∀ k, k ∈ l → Py.get k m = Some (f k)).

(** ** A small world to run the model in *)

Definition png_bytes : list Byte.byte :=
  [Byte.x89; Byte.x50; Byte.x4e; Byte.x47].

Definition example_page : Response.t :=
  {| Response.status := 200;
     Response.text := Ok "<link rel=icon href=/logo.png>";
     Response.read := Ok [] |}.

Definition example_image : Response.t :=
  {| Response.status := 200; Response.text := Ok ""; Response.read := Ok png_bytes |}.

Definition example_not_found : Response.t :=
  {| Response.status := 404; Response.text := Ok ""; Response.read := Ok [] |}.

(** [a.com] serves a page that names its logo, [b.com] and [c.com] are
    down but for their favicons, of which the one of [b.com] is missing.
    Every image is a 120x40 palette PNG. *)
Definition example_world : World :=
  {| session_get := λ url,
       if decide (url = "https://a.com") then Ok example_page
       else if decide (url ∈ ["https://a.com/logo.png"; "https://c.com/favicon.ico"])
       then Ok example_image
       else if decide (url = "https://b.com/favicon.ico") then Ok example_not_found
       else Raise ClientError;
     session_head := λ _, Raise ClientError;
     find_logo_in_html := λ _ base_url, Ok (Some (base_url +:+ "/logo.png"));
     Image_open := λ image_data,
       Ok {| Image.mode := "P"; Image.size := (120, 40);
             Image.format := Some "PNG"; Image.data := image_data |};
     convert_data := λ _ img, Ok (Image.data img);
     resize_data := λ _ img, Ok (Image.data img);
     phash := λ _, Ok (replicate 8 (replicate 8 false));
     dhash := λ _, Ok (replicate 8 (replicate 8 true));
     average_hash := λ _, Ok (replicate 8 (replicate 8 false));
     whash := λ _, Ok (replicate 8 (replicate 8 true)) |}.

Definition example_domains : list string := ["a.com"; "b.com"; "c.com"].

Definition example_urls : Py.dict (option string) :=
  [ ("a.com", Some "https://a.com/logo.png");
    ("b.com", Some "https://b.com/favicon.ico");
    ("c.com", Some "https://c.com/favicon.ico");
    ("d.com", Some "");
    ("e.com", None) ].

Definition example_record (u : string) : LogoData.t :=
  {| LogoData.url := u;
     LogoData.hashes :=
       Some [ ("phash", "0000000000000000"); ("dhash", "ffffffffffffffff");
              ("ahash", "0000000000000000"); ("whash", "ffffffffffffffff") ];
     LogoData.size := (120, 40);
     LogoData.format := Some "PNG" |}.

(** A palette image as [example_world] opens it. *)
Definition example_palette_image : Image.t :=
  {| Image.mode := "P"; Image.size := (120, 40);
     Image.format := Some "PNG"; Image.data := png_bytes |}.

(** The strategy chain finds no logo under [base_url]: a strategy raises,
    or both return nothing (or an empty string). *)
Definition chain_fails (from_html common_paths : string → result (option string))
    (base_url : string) : Prop :=
  (∃ e, from_html base_url = Raise e)
  ∨ (∃ found, from_html base_url = Ok found ∧ Py.opt_str_truthy found = false
       ∧ ((∃ e, common_paths base_url = Raise e)
          ∨ (∃ found', common_paths base_url = Ok found'
                       ∧ Py.opt_str_truthy found' = false))).

(** ** The clusterer over any distance method *)








(** ** Independence of the scheduling, as the specification words it *)

(** Two runs on [logo_urls] that differ in chunk size, concurrency limit
    and completion order only return maps with the same keys and, at every
    key, the same hash codes. *)
Definition scheduling_only (cfg : Config) (w : World)
    (logo_urls : Py.dict (option string)) : Prop :=
  ∀ (chunk_size1 max_concurrent1 chunk_size2 max_concurrent2 : Z)
    (as_completed1 as_completed2 : Scheduler)
    (logo_data1 logo_data2 : Py.dict LogoData.t),
    fair as_completed1 → fair as_completed2 →
    process_all_images (with_scheduling cfg chunk_size1 max_concurrent1) w
      as_completed1 logo_urls = Ok logo_data1 →
    process_all_images (with_scheduling cfg chunk_size2 max_concurrent2) w
      as_completed2 logo_urls = Ok logo_data2 →
    (∀ d, d ∈ Py.keys logo_data1 ↔ d ∈ Py.keys logo_data2)
    ∧ (∀ d, LogoData.hashes <$> Py.get d logo_data1
            = LogoData.hashes <$> Py.get d logo_data2).

(** ** Bookkeeping for the proofs *)

(** Closes a decidable goal about concrete data by evaluation. *)
Ltac by_evaluation :=
  match goal with
  | |- ?P => apply (bool_decide_unpack P); vm_compute; exact I
  end.

(** The tasks of all chunks, in the order of their completion. *)
Definition completed (cfg : Config) (w : World) (as_completed : Scheduler)
    (chunks : list (list (string * string))) : list (string * option LogoData.t) :=
  concat (map (λ chunk, as_completed (map (worker cfg w) chunk)) chunks).

(** ** Further predicates *)

(** A character that [format] prints for a hexadecimal digit. *)
Definition hexd (c : ascii) : Prop :=
  ∃ d, 0 ≤ d < 16 ∧ c = ImageHash.hex_char d.

(** A square hash of [n] rows and [n] columns, as the four hash functions
    of [imagehash] return them ([n] is their [hash_size]). *)
Definition square (n : nat) (h : ImageHash.t) : Prop :=
  length h = n ∧ Forall (λ row, length row = n) h.

(** Every weight of [G] is the distance of the two ends of its edge. *)
Definition weights_ok (logo_data : Py.dict (option LogoData.t)) (G : nx.Graph)
  : Prop :=
  ∀ u v z, nx.edge_distance G u v = Some z → z = domain_distance logo_data u v.

(** [v] is a neighbour of [u] in [G]. *)
Definition edge (G : nx.Graph) (u v : string) : Prop := v ∈ nx.neighbors G u.

(** Two different domains with a primary code whose distance is within the
    threshold. *)
Definition near (cfg : Config) (logo_data : Py.dict (option LogoData.t))
    (u v : string) : Prop :=
  u ∈ valid_domains logo_data ∧ v ∈ valid_domains logo_data ∧ u ≠ v
  ∧ domain_distance logo_data u v ≤ NEAR_DUPLICATE_THRESHOLD cfg.

(** [u] and [v] are members of one cluster. *)
Definition same_cluster (clusters : list (gset string)) (u v : string) : Prop :=
  ∃ c, c ∈ clusters ∧ u ∈ c ∧ v ∈ c.

(** The configuration with another near-duplicate threshold. *)
Definition with_threshold (cfg : Config) (threshold : Z) : Config :=
  {| TIMEOUT := TIMEOUT cfg;
     MAX_RETRIES := MAX_RETRIES cfg;
     BATCH_SIZE := BATCH_SIZE cfg;
     MAX_CONCURRENT := MAX_CONCURRENT cfg;
     HASH_CHUNK_SIZE := HASH_CHUNK_SIZE cfg;
     EXACT_MATCH_THRESHOLD := EXACT_MATCH_THRESHOLD cfg;
     NEAR_DUPLICATE_THRESHOLD := threshold;
     SIMILAR_THRESHOLD := SIMILAR_THRESHOLD cfg;
     NORMALIZE_SIZE := NORMALIZE_SIZE cfg;
     MIN_IMAGE_SIZE := MIN_IMAGE_SIZE cfg |}.

(** Two records with the same primary code, which is no hexadecimal
    number. *)
Definition unreadable_logos : Py.dict (option LogoData.t) :=
  [ ("a.com", record_with_phash "https://a.com/favicon.ico" "not a hash");
    ("b.com", record_with_phash "https://b.com/favicon.ico" "not a hash") ].

(** ** Reference points for the two coordinators *)

(** The map that asking [f] about one key after the other builds. *)
Definition set_all {V} (f : string → V) (l : list string) (acc : Py.dict V)
  : Py.dict V :=
  fold_left (λ out d, Py.set d (f d) out) l acc.

(** Extraction without batches and without concurrency. *)
Definition extract_sequentially (w : World) (domains : list string)
  : Py.dict (option string) :=
  set_all (extract_logo_url w) domains [].

(** [total_batches] of [extract_all_logos], for a batch size that is not
    zero; [//] rounds down, as [Z.div] does. *)
Definition total_batches (cfg : Config) (domains : list string) : Z :=
  (Z.of_nat (length domains) + BATCH_SIZE cfg - 1) / BATCH_SIZE cfg.

(** The configuration with another batch size and concurrency limit. *)
Definition with_batching (cfg : Config) (batch_size max_concurrent : Z)
  : Config :=
  {| TIMEOUT := TIMEOUT cfg;
     MAX_RETRIES := MAX_RETRIES cfg;
     BATCH_SIZE := batch_size;
     MAX_CONCURRENT := max_concurrent;
     HASH_CHUNK_SIZE := HASH_CHUNK_SIZE cfg;
     EXACT_MATCH_THRESHOLD := EXACT_MATCH_THRESHOLD cfg;
     NEAR_DUPLICATE_THRESHOLD := NEAR_DUPLICATE_THRESHOLD cfg;
     SIMILAR_THRESHOLD := SIMILAR_THRESHOLD cfg;
     NORMALIZE_SIZE := NORMALIZE_SIZE cfg;
     MIN_IMAGE_SIZE := MIN_IMAGE_SIZE cfg |}.

(** A server on which [/assets/logo.svg] and [/static/logo.png] under
    [https://a.com] answer a [HEAD] request with 200; pages are not served
    at all. *)
Definition example_head_world : World :=
  {| session_get := λ _, Raise ClientError;
     session_head := λ url,
       if decide (url = "https://a.com/logo.svg") then Ok 404
       else if decide (url = "https://a.com/assets/logo.svg") then Ok 200
       else if decide (url = "https://a.com/static/logo.png") then Ok 200
       else Raise ClientError;
     find_logo_in_html := find_logo_in_html example_world;
     Image_open := Image_open example_world;
     convert_data := convert_data example_world;
     resize_data := resize_data example_world;
     phash := phash example_world;
     dhash := dhash example_world;
     average_hash := average_hash example_world;
     whash := whash example_world |}.

(** ** [main.py]: the statistics *)

(** [sum(1 for url in logo_urls.values() if url)] *)
Definition count_extracted (logo_urls : Py.dict (option string)) : Z :=
  Z.of_nat (length (filter (λ item, Py.opt_str_truthy item.2 = true) logo_urls)).

(** [extract_all_logos] together with [self.stats['logos_extracted']],
    which every batch sets anew; [logos_extracted] is its value before the
    call. *)
Definition extract_all_logos_stats (cfg : Config) (w : World)
    (domains : list string) (logos_extracted : Z)
  : result (Py.dict (option string) * Z) :=
  if decide (BATCH_SIZE cfg = 0) then Raise ZeroDivisionError
  else
    batches ← Py.slices (BATCH_SIZE cfg) domains;
    for_each
      (λ (st : Py.dict (option string) * Z) batch,
         batch_results ← extract_batch cfg w batch;
         let logo_urls := Py.update st.1 batch_results in
         Ok (logo_urls, count_extracted logo_urls))
      batches ([], logos_extracted).

(** [if data: logo_data[domain] = data; processed += 1] *)
Definition collect_data_stats (st : Py.dict LogoData.t * Z)
    (done : string * option LogoData.t) : Py.dict LogoData.t * Z :=
  match done.2 with
  | Some data => (Py.set done.1 data st.1, st.2 + 1)
  | None => st
  end.

(** [process_all_images] together with the counter [processed], which
    becomes [self.stats['logos_processed']]. *)
Definition process_all_images_stats (cfg : Config) (w : World)
    (as_completed : Scheduler) (logo_urls : Py.dict (option string))
  : result (Py.dict LogoData.t * Z) :=
  let items := work_items logo_urls in
  sem ← Semaphore (MAX_CONCURRENT cfg);
  chunks ← Py.slices (HASH_CHUNK_SIZE cfg) items;
  for_each
    (λ st chunk,
       tasks ← run_under sem (map (worker cfg w) chunk);
       Ok (fold_left collect_data_stats (as_completed tasks) st))
    chunks ([], 0).

(** ** [main.py]: clustering, the output files and the whole run *)

(** [LogoSimilarityPipeline.cluster_logos]; the records of
    [process_all_images] are never [None]. *)
Definition cluster_logos (cfg : Config) (logo_data : Py.dict LogoData.t)
  : list (gset string) :=
  cluster_by_similarity cfg (map (λ item, (item.1, Some item.2)) logo_data).

(** An entry of [clusters.json]. *)
Module ClusterEntry.
Record t : Type := {
  cluster_id : Z;
  size : Z;
  domains : list string;
}.
End ClusterEntry.

(** A row of [clusters.csv]. *)
Module Row.
Record t : Type := {
  cluster_id : Z;
  domain : string;
  logo_url : string;
  cluster_size : Z;
}.
End Row.

(** The order in which Python iterates over each set. *)
Definition SetOrder : Type := gset string → list string.

(** An iteration visits every member once. *)
Definition faithful (order : SetOrder) : Prop := ∀ c, order c ≡ₚ elements c.

(** [logo_data.get(domain, {}).get('url', '')] *)
Definition logo_url_of (logo_data : Py.dict LogoData.t) (domain : string)
  : string :=
  match Py.get domain logo_data with
  | Some data => LogoData.url data
  | None => ""
  end.

(** The list [clusters_json] of [save_results]. *)
Definition clusters_json (order : SetOrder) (clusters : list (gset string))
  : list ClusterEntry.t :=
  imap (λ i cluster,
          {| ClusterEntry.cluster_id := Z.of_nat i;
             ClusterEntry.size := Z.of_nat (size cluster);
             ClusterEntry.domains := order cluster |})
       clusters.

(** The list [rows] of [save_results]. *)
Definition csv_rows (order : SetOrder) (clusters : list (gset string))
    (logo_data : Py.dict LogoData.t) : list Row.t :=
  concat
    (imap (λ i cluster,
             map (λ domain,
                    {| Row.cluster_id := Z.of_nat i;
                       Row.domain := domain;
                       Row.logo_url := logo_url_of logo_data domain;
                       Row.cluster_size := Z.of_nat (size cluster) |})
                 (order cluster))
          clusters).

(** [self.stats] *)
Module Stats.
Record t : Type := {
  total_domains : Z;
  logos_extracted : Z;
  logos_processed : Z;
}.
End Stats.

(** What a run leaves in [clusters.json], [clusters.csv] and
    [statistics.json]. *)
Module Output.
Record t : Type := {
  clusters : list ClusterEntry.t;
  rows : list Row.t;
  stats : Stats.t;
}.
End Output.

(** [LogoSimilarityPipeline.run] on the domains read from the input
    file. *)
Definition run (cfg : Config) (w : World) (as_completed : Scheduler)
    (order : SetOrder) (domains : list string) : result Output.t :=
  extracted ← extract_all_logos_stats cfg w domains 0;
  processed ← process_all_images_stats cfg w as_completed extracted.1;
  let clusters := cluster_logos cfg processed.1 in
  Ok {| Output.clusters := clusters_json order clusters;
        Output.rows := csv_rows order clusters processed.1;
        Output.stats :=
          {| Stats.total_domains := Z.of_nat (length domains);
             Stats.logos_extracted := extracted.2;
             Stats.logos_processed := processed.2 |} |}.

(** The logo of [d] is found, downloaded and hashed. *)
Definition fingerprinted (cfg : Config) (w : World) (d : string) : Prop :=
  ∃ u r, extract_logo_url w d = Some u ∧ process_logo cfg w u = Some r.

(** A member of [c1] comes before every member of [c2] in [nodes]. *)
Definition led_by (nodes : list string) (c1 c2 : gset string) : Prop :=
  ∃ u, u ∈ c1 ∧ ∀ v, v ∈ c2 → precedes u v nodes.

(** What holds of the components yielded after the nodes [processed]: each
    has a member among them, and they are listed in the order of their
    first members. *)
Record order_inv (G : nx.Graph) (processed : list string)
    (st : gset string * list (gset string)) : Prop := {
  oi_leader : ∀ c, c ∈ st.2 → ∃ u, u ∈ c ∧ u ∈ processed;
  oi_ordered : ∀ i j c1 c2,
    (i < j)%nat → st.2 !! i = Some c1 → st.2 !! j = Some c2 →
    led_by (nx._node G) c1 c2;
}.

(** The configuration with other image sizes. *)
Definition with_min_size (cfg : Config) (min_image_size : Z) : Config :=
  {| TIMEOUT := TIMEOUT cfg;
     MAX_RETRIES := MAX_RETRIES cfg;
     BATCH_SIZE := BATCH_SIZE cfg;
     MAX_CONCURRENT := MAX_CONCURRENT cfg;
     HASH_CHUNK_SIZE := HASH_CHUNK_SIZE cfg;
     EXACT_MATCH_THRESHOLD := EXACT_MATCH_THRESHOLD cfg;
     NEAR_DUPLICATE_THRESHOLD := NEAR_DUPLICATE_THRESHOLD cfg;
     SIMILAR_THRESHOLD := SIMILAR_THRESHOLD cfg;
     NORMALIZE_SIZE := NORMALIZE_SIZE cfg;
     MIN_IMAGE_SIZE := min_image_size |}.

Definition with_normalize_size (cfg : Config) (normalize_size : Z) : Config :=
  {| TIMEOUT := TIMEOUT cfg;
     MAX_RETRIES := MAX_RETRIES cfg;
     BATCH_SIZE := BATCH_SIZE cfg;
     MAX_CONCURRENT := MAX_CONCURRENT cfg;
     HASH_CHUNK_SIZE := HASH_CHUNK_SIZE cfg;
     EXACT_MATCH_THRESHOLD := EXACT_MATCH_THRESHOLD cfg;
     NEAR_DUPLICATE_THRESHOLD := NEAR_DUPLICATE_THRESHOLD cfg;
     SIMILAR_THRESHOLD := SIMILAR_THRESHOLD cfg;
     NORMALIZE_SIZE := normalize_size;
     MIN_IMAGE_SIZE := MIN_IMAGE_SIZE cfg |}.

(** Identifies the results of one call that two hypotheses name. *)
Ltac merge_Ok :=
  repeat match goal with
         | H1 : ?t = Ok ?a, H2 : ?t = Ok ?b |- _ =>
             let E := fresh in
             assert (E : b = a) by congruence; clear H2; try subst b
         end.

(** ** [src/utils.py] *)

(** What [urllib.parse] and [str.lower] answer; [urlparse] and [urljoin]
    may raise [ValueError]. *)
Module ParseResult.
Record t : Type := {
  scheme : string;
  netloc : string;
  path : string;
}.
End ParseResult.

Record UrlLib : Type := {
  urlparse : string → result ParseResult.t;
  urljoin : string → string → result string;
  str_lower : string → string;
}.

(** [s.endswith(suffix)] *)
Fixpoint endswith (s suffix : string) : bool :=
  String.eqb s suffix
  || match s with
     | EmptyString => false
     | String _ s' => endswith s' suffix
     end.

(** [keyword in s] *)
Fixpoint contains (keyword s : string) : bool :=
  String.prefix keyword s
  || match s with
     | EmptyString => false
     | String _ s' => contains keyword s'
     end.

(** [normalize_url]; the [url] is [None] when the attribute is missing. *)
Definition normalize_url (lib : UrlLib) (url : option string) (base_url : string)
  : result (option string) :=
  match url with
  | None => Ok None
  | Some url =>
      if negb (Py.str_truthy url) then Ok None
      else if String.prefix "//" url then
        parsed_base ← urlparse lib base_url;
        Ok (Some (ParseResult.scheme parsed_base +:+ ":" +:+ url))
      else if String.prefix "http://" url || String.prefix "https://" url then
        Ok (Some url)
      else
        joined ← urljoin lib base_url url;
        Ok (Some joined)
  end.

Definition valid_extensions : list string :=
  [".png"; ".jpg"; ".jpeg"; ".gif"; ".ico"; ".svg"; ".webp"].

Definition image_keywords : list string := ["logo"; "icon"; "favicon"].

(** [is_valid_image_url] over any list of keywords. *)
Definition is_valid_image_url_with (keywords : list string) (lib : UrlLib)
    (url : option string) : result bool :=
  match url with
  | None => Ok false
  | Some url =>
      if negb (Py.str_truthy url) then Ok false
      else
        parsed ← urlparse lib (str_lower lib url);
        if existsb (endswith (ParseResult.path parsed)) valid_extensions
        then Ok true
        else if existsb
                  (λ keyword,
                     contains keyword (str_lower lib (ParseResult.path parsed)))
                  keywords
        then Ok true
        else Ok false
  end.

(** [is_valid_image_url] *)
Definition is_valid_image_url (lib : UrlLib) (url : option string) : result bool :=
  is_valid_image_url_with image_keywords lib url.

(** A library that splits nothing: the whole URL is the path. *)
Definition example_lib : UrlLib :=
  {| urlparse := λ url,
       Ok {| ParseResult.scheme := "https"; ParseResult.netloc := "";
             ParseResult.path := url |};
     urljoin := λ base_url url, Ok (base_url +:+ url);
     str_lower := λ s, s |}.

(** * Properties *)

Set Warnings "-clear-no-such-hyp".

Section HammingFacts.
Import ImageHash.

Lemma count_differing_comm (a b : list bool) :
    count_differing a b = count_differing b a.
  Proof.
    revert b. induction a as [|x a IH]; intros [|y b]; simpl; try done.
    rewrite IH. by destruct x, y.
  Qed.

Lemma count_differing_nonneg (a b : list bool) : 0 ≤ count_differing a b.
  Proof.
    revert b. induction a as [|x a IH]; intros [|y b]; simpl; try lia.
    specialize (IH b). destruct (xorb x y); lia.
  Qed.

Lemma count_differing_bound (a b : list bool) :
    count_differing a b ≤ Z.of_nat (length a).
  Proof.
    revert b. induction a as [|x a IH]; intros [|y b]; simpl; try lia.
    specialize (IH b). destruct (xorb x y); lia.
  Qed.

(** Going from [a] to [c] through [b] changes every position an even
      number of times more than going directly. *)
Lemma count_differing_parity (a b c : list bool) :
    length a = length b → length b = length c →
    ∃ k, count_differing a b + count_differing b c
         = count_differing a c + 2 * k.
  Proof.
    revert b c. induction a as [|x a IH]; intros [|y b] [|z c]; simpl;
      try discriminate; intros Hab Hbc.
    - exists 0. lia.
    - destruct (IH b c) as [k Hk]; [congruence.. |].
      exists (k + if xorb x y && xorb y z then 1 else 0).
      destruct x, y, z; simpl; lia.
  Qed.

Lemma sub_comm (h1 h2 : t) : sub h1 h2 = sub h2 h1.
  Proof.
    unfold sub. destruct (decide (size h1 = size h2)) as [E|E].
    - rewrite decide_True by done. by rewrite count_differing_comm.
    - by rewrite decide_False by done.
  Qed.

Lemma sub_Ok h1 h2 d :
    sub h1 h2 = Ok d → size h1 = size h2 ∧ d = count_differing (flatten h1) (flatten h2).
  Proof. unfold sub. case_decide; naive_solver. Qed.
End HammingFacts.

Lemma compute_hash_distance_comm hash1 hash2 :
  _compute_hash_distance hash1 hash2 = _compute_hash_distance hash2 hash1.
Proof.
  unfold _compute_hash_distance.
  destruct (ImageHash.hex_to_hash hash1) as [h1|e1], (ImageHash.hex_to_hash hash2) as [h2|e2]; simpl; try done.
  unfold mbind, result_bind. by rewrite sub_comm.
Qed.

(** What a distance other than the sentinel tells. *)
Lemma compute_hash_distance_cases hash1 hash2 :
  (∃ h1 h2, ImageHash.hex_to_hash hash1 = Ok h1 ∧ ImageHash.hex_to_hash hash2 = Ok h2 ∧
     ImageHash.size h1 = ImageHash.size h2 ∧
     _compute_hash_distance hash1 hash2 = ImageHash.count_differing (ImageHash.flatten h1) (ImageHash.flatten h2))
  ∨ _compute_hash_distance hash1 hash2 = 999.
Proof.
  unfold _compute_hash_distance.
  destruct (ImageHash.hex_to_hash hash1) as [h1|e1], (ImageHash.hex_to_hash hash2) as [h2|e2]; simpl; auto.
  unfold mbind, result_bind, ImageHash.sub. case_decide; simpl; [left|by right].
  by exists h1, h2.
Qed.

Lemma no_three_codes_3_4_6 hA hB hC :
  ¬ (_compute_hash_distance hA hB = 3 ∧ _compute_hash_distance hB hC = 4 ∧ _compute_hash_distance hA hC = 6).
Proof.
  intros (HAB & HBC & HAC).
  destruct (compute_hash_distance_cases hA hB) as [(a & b & Ha & Hb & Sab & Dab)|?]; [|lia].
  destruct (compute_hash_distance_cases hB hC) as [(b' & c & Hb' & Hc & Sbc & Dbc)|?]; [|lia].
  destruct (compute_hash_distance_cases hA hC) as [(a' & c' & Ha' & Hc' & Sac & Dac)|?]; [|lia].
  assert (b' = b) as -> by congruence.
  assert (a' = a) as -> by congruence.
  assert (c' = c) as -> by congruence.
  unfold ImageHash.size in *.
  destruct (count_differing_parity (ImageHash.flatten a) (ImageHash.flatten b)
              (ImageHash.flatten c)) as [k Hk]. 
  1-2: assumption.
  lia.
Qed.

(** ** Facts about dictionaries *)

Section DictFacts.
Context {V : Type}.
Implicit Types (d : Py.dict V) (k : string) (v : V).

Lemma get_set k k' v d :
    Py.get k (Py.set k' v d) = if decide (k = k') then Some v else Py.get k d.
  Proof.
    induction d as [|[k0 v0] d IH]; simpl.
    - repeat case_decide; congruence.
    - repeat (case_decide; simpl; subst); try congruence.
  Qed.

Lemma keys_set k k' v d :
    k ∈ Py.keys (Py.set k' v d) ↔ k = k' ∨ k ∈ Py.keys d.
  Proof.
    unfold Py.keys. induction d as [|[k0 v0] d IH]; simpl.
    - rewrite list_elem_of_singleton. split; [auto|]. by intros [?|?%elem_of_nil].
    - case_decide; simpl; subst; rewrite !elem_of_cons; [naive_solver|].
      rewrite IH. naive_solver.
  Qed.

Lemma get_is_Some k d : is_Some (Py.get k d) ↔ k ∈ Py.keys d.
  Proof.
    unfold Py.keys. induction d as [|[k0 v0] d IH]; simpl.
    - split; [by intros [? ?]|by intros ?%elem_of_nil].
    - case_decide; subst; rewrite elem_of_cons; [naive_solver|].
      rewrite IH. naive_solver.
  Qed.

Lemma get_None k d : Py.get k d = None ↔ k ∉ Py.keys d.
  Proof. rewrite <- get_is_Some, eq_None_not_Some. done. Qed.

Lemma get_Some_elem k v d : Py.get k d = Some v → (k, v) ∈ d.
  Proof.
    induction d as [|[k0 v0] d IH]; simpl; [done|].
    case_decide; subst; intros; simplify_eq; set_solver.
  Qed.

Lemma elem_get_Some k v d : NoDup (Py.keys d) → (k, v) ∈ d → Py.get k d = Some v.
  Proof.
    unfold Py.keys. induction d as [|[k0 v0] d IH]; simpl; [by intros _ ?%elem_of_nil|].
    rewrite NoDup_cons, elem_of_cons. intros [Hk Hd] [E|E].
    - simplify_eq. by rewrite decide_True.
    - rewrite decide_False; [by apply IH|].
      intros ->. apply Hk. apply list_elem_of_fmap. by exists (k0, v).
  Qed.

Lemma keys_set_NoDup k v d : NoDup (Py.keys d) → NoDup (Py.keys (Py.set k v d)).
  Proof.
    unfold Py.keys. induction d as [|[k0 v0] d IH]; simpl.
    - intros _. apply NoDup_singleton.
    - rewrite NoDup_cons. intros [Hk Hd]. case_decide; simpl; subst.
      + by apply NoDup_cons.
      + apply NoDup_cons. split; [|by apply IH].
        pose proof (keys_set k0 k v d) as K. unfold Py.keys in K.
        rewrite K. naive_solver.
  Qed.
End DictFacts.

(** ** Facts about graphs *)

Section GraphFacts.
Import nx.

Lemma graph_wf_empty : graph_wf empty.
  Proof.
    split; [apply NoDup_nil_2|..]; unfold neighbors, adj; simpl;
      by intros ?? ?%elem_of_nil.
  Qed.

Lemma neighbors_outside G u : graph_wf G → u ∉ _node G → neighbors G u = [].
  Proof.
    intros HG Hu. destruct (neighbors G u) as [|v l] eqn:E; [done|].
    destruct (graph_wf_node G HG u v) as [? _]; [rewrite E; left|done].
  Qed.

Lemma node_add_node n G x : x ∈ _node (add_node n G) ↔ x ∈ _node G ∨ x = n.
  Proof.
    unfold add_node. case_decide; simpl; [naive_solver|].
    rewrite elem_of_app, list_elem_of_singleton. done.
  Qed.

Lemma neighbors_add_node n G u :
    graph_wf G → neighbors (add_node n G) u = neighbors G u.
  Proof.
    intros HG. unfold add_node. case_decide; [done|].
    unfold neighbors, adj; simpl. rewrite get_set. case_decide; [subst|done].
    fold (adj G n). fold (neighbors G n). by rewrite neighbors_outside.
  Qed.

Lemma graph_wf_add_node n G : graph_wf G → graph_wf (add_node n G).
  Proof.
    intros HG. split.
    - unfold add_node. case_decide; [apply HG|simpl].
      apply NoDup_app. split_and!; [apply HG| |apply NoDup_singleton].
      intros x Hx ->%list_elem_of_singleton. done.
    - intros u v. rewrite neighbors_add_node, !node_add_node by done.
      intros Huv. destruct (graph_wf_node G HG u v Huv). auto.
    - intros u v. rewrite !neighbors_add_node by done. apply HG.
  Qed.

Lemma node_add_edge u v d G x :
    x ∈ _node (add_edge u v d G) ↔ x ∈ _node G ∨ x = u ∨ x = v.
  Proof. unfold add_edge; simpl. rewrite !node_add_node. naive_solver. Qed.

Lemma neighbors_add_edge u v d G u' v' :
    graph_wf G →
    v' ∈ neighbors (add_edge u v d G) u'
    ↔ v' ∈ neighbors G u' ∨ (u' = u ∧ v' = v) ∨ (u' = v ∧ v' = u).
  Proof.
    intros HG.
    assert (HG2 : graph_wf (add_node v (add_node u G))) by by do 2 apply graph_wf_add_node.
    assert (N : ∀ x, neighbors (add_node v (add_node u G)) x = neighbors G x).
    { intros x. rewrite neighbors_add_node by by apply graph_wf_add_node.
      by rewrite neighbors_add_node. }
    unfold add_edge, neighbors at 1, adj at 1; simpl.
    rewrite !get_set.
    destruct (decide (u' = v)) as [->|Hv]; simpl.
    - rewrite keys_set. destruct (decide (v = u)) as [->|Hu]; simpl.
      + rewrite keys_set. fold (neighbors (add_node u (add_node u G)) u).
        rewrite N. naive_solver.
      + fold (adj (add_node v (add_node u G)) v).
        fold (neighbors (add_node v (add_node u G)) v). rewrite N. naive_solver.
    - destruct (decide (u' = u)) as [->|Hu]; simpl.
      + rewrite keys_set. fold (neighbors (add_node v (add_node u G)) u).
        rewrite N. naive_solver.
      + fold (adj (add_node v (add_node u G)) u').
        fold (neighbors (add_node v (add_node u G)) u'). rewrite N. naive_solver.
  Qed.

Lemma graph_wf_add_edge u v d G : graph_wf G → graph_wf (add_edge u v d G).
  Proof.
    intros HG. split.
    - unfold add_edge; simpl. by do 2 apply graph_wf_add_node.
    - intros x y. rewrite neighbors_add_edge, !node_add_edge by done.
      intros [Hxy|[[-> ->]|[-> ->]]]; [|by auto..].
      destruct (graph_wf_node G HG x y Hxy). auto.
    - intros x y. rewrite !neighbors_add_edge by done.
      intros [Hxy|[[-> ->]|[-> ->]]]; [|by auto..].
      left. by apply HG.
  Qed.
End GraphFacts.

(** ** Breadth-first search *)

Section BfsFacts.
Import nx.
Variable G : Graph.
Hypothesis HG : graph_wf G.

Lemma closed_union X Y : closed G X → closed G Y → closed G (X ∪ Y).
  Proof. intros HX HY u v [?|?]%elem_of_union ?; apply elem_of_union; eauto. Qed.

Lemma closed_empty : closed G ∅.
  Proof. by intros u v ?%not_elem_of_empty. Qed.

Lemma visit_spec ws seen next :
    ∃ added,
      visit ws (seen, next) = (seen ∪ list_to_set ws, next ++ added)
      ∧ (∀ x, x ∈ added ↔ x ∈ ws ∧ x ∉ seen)
      ∧ (size (seen ∪ list_to_set ws) = size seen + length added)%nat.
  Proof.
    revert seen next. induction ws as [|w ws IH]; intros seen next; simpl.
    - exists []. rewrite app_nil_r, (right_id_L ∅ (∪)).
      split_and!; [done| |simpl; lia].
      intros x. split; [by intros ?%elem_of_nil|by intros [?%elem_of_nil _]].
    - unfold visit; simpl. case_decide as Hw; simpl.
      + destruct (IH seen next) as (added & E & Hin & Hsz). exists added.
        assert (seen ∪ ({[w]} ∪ list_to_set ws) = seen ∪ list_to_set ws) as ->
          by set_solver.
        split_and!; [exact E| |done].
        intros x. rewrite Hin, elem_of_cons. naive_solver.
      + destruct (IH ({[w]} ∪ seen) (next ++ [w])) as (added & E & Hin & Hsz).
        exists (w :: added).
        assert (seen ∪ ({[w]} ∪ list_to_set ws) = {[w]} ∪ seen ∪ list_to_set ws) as ->
          by set_solver.
        split_and!.
        * unfold visit in E. rewrite E. by rewrite <- app_assoc.
        * intros x. rewrite !elem_of_cons, Hin, elem_of_union, elem_of_singleton.
          destruct (decide (x = w)); naive_solver.
        * rewrite Hsz, size_union, size_singleton by set_solver. simpl. lia.
  Qed.

Variable S : gset string.
Hypothesis HS : closed G S.

Lemma bfs_inv_nil seen : bfs_inv G S seen [] → bfs_post G S seen.
  Proof.
    intros (_ & Hn & Hc & Hd). split_and!; [done| |done].
    intros u v Hu Hv. eapply Hc; [done| |done]. by intros ?%elem_of_nil.
  Qed.

Lemma all_nodes_seen (seen : gset string) :
    (∀ x, x ∈ seen → x ∈ _node G) → size seen = length (_node G) →
    ∀ x, x ∈ _node G → x ∈ seen.
  Proof.
    intros Hsub Hsz x Hx.
    assert (E : seen = list_to_set (_node G)).
    { apply set_subseteq_size_eq.
      - intros y Hy. apply elem_of_list_to_set. auto.
      - rewrite size_list_to_set by apply HG. lia. }
    rewrite E. by apply elem_of_list_to_set.
  Qed.

Lemma bfs_inv_all seen pending :
    bfs_inv G S seen pending → size seen = length (_node G) → bfs_post G S seen.
  Proof.
    intros (_ & Hn & _ & Hd) Hsz. split_and!; [done| |done].
    intros u v Hu Hv. apply all_nodes_seen; [done..|].
    by destruct (graph_wf_node G HG u v Hv).
  Qed.

Lemma bfs_inv_visit v rest seen next :
    bfs_inv G S seen ((v :: rest) ++ next) →
    ∃ added,
      visit (neighbors G v) (seen, next)
        = (seen ∪ list_to_set (neighbors G v), next ++ added)
      ∧ bfs_inv G S (seen ∪ list_to_set (neighbors G v)) (rest ++ (next ++ added))
      ∧ (size (seen ∪ list_to_set (neighbors G v)) = size seen + length added)%nat.
  Proof.
    change ((v :: rest) ++ next) with (v :: (rest ++ next)).
    intros (Hp & Hn & Hc & Hd).
    destruct (visit_spec (neighbors G v) seen next) as (added & E & Hin & Hsz).
    exists added. split_and!; [done| |done].
    assert (Hv : v ∈ seen) by (apply Hp; left).
    split_and!.
    - intros x. rewrite !elem_of_app, elem_of_union. intros [Hx|[Hx|Hx]].
      + left. apply Hp. right. apply elem_of_app. by left.
      + left. apply Hp. right. apply elem_of_app. by right.
      + right. apply elem_of_list_to_set. by apply Hin.
    - intros x [Hx|Hx%elem_of_list_to_set]%elem_of_union; [by apply Hn|].
      by destruct (graph_wf_node G HG v x Hx).
    - intros x y Hx Hnp Hy. rewrite !elem_of_app in Hnp.
      destruct (decide (x = v)) as [->|Hxv].
      { apply elem_of_union. right. by apply elem_of_list_to_set. }
      apply elem_of_union in Hx as [Hx|Hx%elem_of_list_to_set].
      + apply elem_of_union. left. apply (Hc x y); [done| |done].
        rewrite elem_of_cons, !elem_of_app. naive_solver.
      + destruct (decide (x ∈ seen)) as [Hs|Hs].
        * apply elem_of_union. left. apply (Hc x y); [done| |done].
          rewrite elem_of_cons, !elem_of_app. naive_solver.
        * exfalso. apply Hnp. right. right. by apply Hin.
    - intros x [Hx|Hx%elem_of_list_to_set]%elem_of_union HxS; [by apply (Hd x)|].
      apply (Hd v); [done|]. apply (HS x v); [done|]. by apply HG.
  Qed.
Lemma scan_level_spec this seen next k :
    bfs_inv G S seen (this ++ next) → (size seen = k + length next)%nat →
    let r := scan_level G (length (_node G)) this seen next in
    seen ⊆ r.1.1 ∧
    if r.2 then bfs_post G S r.1.1
    else bfs_inv G S r.1.1 r.1.2 ∧ (size r.1.1 = k + length r.1.2)%nat.
  Proof.
    revert seen next. induction this as [|v rest IH]; intros seen next Hinv Hsz.
    - simpl. by split_and!.
    - destruct (bfs_inv_visit v rest seen next Hinv) as (added & E & Hinv' & Hsz').
      simpl. rewrite E. simpl. case_decide as Hn; simpl.
      + split; [apply union_subseteq_l|]. by eapply bfs_inv_all.
      + destruct (IH (seen ∪ list_to_set (neighbors G v)) (next ++ added))
          as [Hsub Hr]; [done|rewrite length_app; lia|].
        split; [|done]. etrans; [apply union_subseteq_l|done].
  Qed.

Lemma size_seen_le (seen : gset string) :
    (∀ x, x ∈ seen → x ∈ _node G) → (size seen ≤ length (_node G))%nat.
  Proof.
    intros Hsub. rewrite <- (size_list_to_set (C:=gset string) (_node G)) by apply HG.
    apply subseteq_size. intros x Hx. apply elem_of_list_to_set. auto.
  Qed.

Lemma bfs_loop_spec fuel seen next :
    bfs_inv G S seen next → (length (_node G) < size seen + fuel)%nat →
    let R := bfs_loop fuel G (length (_node G)) seen next in
    seen ⊆ R ∧ bfs_post G S R.
  Proof.
    revert seen next. induction fuel as [|fuel IH]; intros seen next Hinv Hfuel.
    - simpl. split; [done|]. destruct next as [|v next]; [by apply bfs_inv_nil|].
      pose proof (size_seen_le seen (proj1 (proj2 Hinv))). lia.
    - simpl. destruct next as [|v next]; [split; [done|by apply bfs_inv_nil]|].
      pose proof (scan_level_spec (v :: next) seen [] (size seen)) as Hscan.
      rewrite app_nil_r in Hscan.
      destruct Hscan as [Hsub Hr]; [done|simpl; lia|].
      destruct (scan_level G (length (_node G)) (v :: next) seen [])
        as [[seen' next'] [|]]; simpl in *; [done|].
      destruct Hr as [Hinv' Hsz'].
      destruct next' as [|w next'].
      + assert (bfs_loop fuel G (length (_node G)) seen' [] = seen') as ->
          by by destruct fuel.
        split; [done|by apply bfs_inv_nil].
      + destruct (IH seen' (w :: next')) as [Hsub' HR]; [done|simpl in Hsz'; lia|].
        split; [by etrans|done].
  Qed.

Lemma plain_bfs_spec source :
    source ∈ _node G → source ∉ S →
    let R := _plain_bfs G (length (_node G)) source in
    source ∈ R ∧ bfs_post G S R.
  Proof.
    intros Hsrc HnS. unfold _plain_bfs.
    destruct (bfs_loop_spec (length (_node G)) {[source]} [source]) as [Hsub HR].
    - split_and!.
      + intros x ->%list_elem_of_singleton. by apply elem_of_singleton.
      + by intros x ->%elem_of_singleton.
      + intros x y ->%elem_of_singleton Hx. exfalso. apply Hx. left.
      + by apply disjoint_singleton_l.
    - rewrite size_singleton. lia.
    - split; [|done]. apply Hsub. by apply elem_of_singleton.
  Qed.
End BfsFacts.

(** ** Connected components *)

Section ComponentFacts.
Import nx.
Variable G : Graph.
Hypothesis HG : graph_wf G.

Lemma closed_complement (X : gset string) :
    closed G X → closed G (list_to_set (_node G) ∖ X).
  Proof.
    intros HX u v [Hu Hn]%elem_of_difference Hv. apply elem_of_difference. split.
    - apply elem_of_list_to_set. by destruct (graph_wf_node G HG u v Hv).
    - intros HvX. apply Hn. apply (HX v u); [done|]. by apply HG.
  Qed.

(** The search from [v] returns the smallest closed set that holds [v]. *)
Lemma plain_bfs_component v :
    v ∈ _node G →
    let c := _plain_bfs G (length (_node G)) v in
    v ∈ c ∧ (∀ x, x ∈ c → x ∈ _node G) ∧ closed G c
    ∧ ∀ X, closed G X → if decide (v ∈ X) then c ⊆ X else c ## X.
  Proof.
    intros Hv c.
    destruct (plain_bfs_spec G HG ∅ (closed_empty G) v Hv) as (Hin & Hn & Hc & _);
      [apply not_elem_of_empty|].
    split_and!; [done..|].
    intros X HX. case_decide as HvX.
    - destruct (plain_bfs_spec G HG _ (closed_complement X HX) v Hv) as (_ & _ & _ & Hd).
      { rewrite elem_of_difference. naive_solver. }
      intros x Hx. destruct (decide (x ∈ X)) as [|Hno]; [done|].
      exfalso. apply (Hd x Hx). apply elem_of_difference. split; [|done].
      apply elem_of_list_to_set. by apply Hn.
    - by destruct (plain_bfs_spec G HG X HX v Hv HvX) as (_ & _ & _ & Hd).
  Qed.

Lemma components_step_inv processed st v :
    v ∈ _node G → components_inv G processed st →
    components_inv G (processed ++ [v]) (components_step G st v).
  Proof.
    intros Hv [Hcov Hcl Hpr Hno Hdi Hea]. unfold components_step.
    case_decide as Hseen.
    - split; try done.
      intros x [?| ->%list_elem_of_singleton]%elem_of_app; auto.
    - destruct (plain_bfs_component v Hv) as (Hin & Hn & Hc & Hat).
      set (c := _plain_bfs G (length (_node G)) v) in *.
      assert (Hdisj : c ## st.1).
      { specialize (Hat st.1 Hcl). by rewrite decide_False in Hat. }
      split; simpl.
      + intros x. rewrite elem_of_union, Hcov. split.
        * intros [(c' & Hc' & Hx)|Hx].
          -- exists c'. split; [|done]. apply elem_of_app. by left.
          -- exists c. split; [|done]. apply elem_of_app. right. left.
        * intros (c' & [Hc'| ->%list_elem_of_singleton]%elem_of_app & Hx); eauto.
      + by apply closed_union.
      + intros x [?| ->%list_elem_of_singleton]%elem_of_app; apply elem_of_union; auto.
      + intros x [?|?]%elem_of_union; auto.
      + assert (Hold : ∀ i c', st.2 !! i = Some c' → c' ## c).
        { intros i c' Hi x Hx Hxc. apply (Hdisj x Hxc). apply Hcov.
          exists c'. split; [|done]. by eapply list_elem_of_lookup_2. }
        intros i j c1 c2 Hij Hi Hj.
        apply lookup_app_Some in Hi as [Hi|[Hil Hi]];
          apply lookup_app_Some in Hj as [Hj|[Hjl Hj]].
        * by eapply Hdi.
        * apply list_lookup_singleton_Some in Hj as [_ <-]. by eapply Hold.
        * apply list_lookup_singleton_Some in Hi as [_ <-]. symmetry. by eapply Hold.
        * apply list_lookup_singleton_Some in Hi as [Hi _].
          apply list_lookup_singleton_Some in Hj as [Hj _]. lia.
      + intros c' [Hc'| ->%list_elem_of_singleton]%elem_of_app; [by apply Hea|].
        split_and!; [set_solver|done|]. intros X HX. specialize (Hat X HX).
        case_decide; auto.
  Qed.

Lemma components_fold_inv l processed st :
    (∀ x, x ∈ l → x ∈ _node G) → components_inv G processed st →
    components_inv G (processed ++ l) (fold_left (components_step G) l st).
  Proof.
    revert processed st. induction l as [|v l IH]; intros processed st Hl Hinv; simpl.
    - by rewrite app_nil_r.
    - rewrite cons_middle, app_assoc. apply IH.
      + intros x Hx. apply Hl. by right.
      + apply components_step_inv; [|done]. apply Hl. left.
  Qed.

Lemma components_inv_init : components_inv G [] (∅, []).
  Proof.
    split; simpl.
    - intros x. split; [by intros ?%not_elem_of_empty|].
      by intros (c & ?%elem_of_nil & _).
    - apply closed_empty.
    - by intros x ?%elem_of_nil.
    - by intros x ?%not_elem_of_empty.
    - by intros i j c1 c2 _ ?.
    - by intros c ?%elem_of_nil.
  Qed.

(** [connected_components] returns a partition of the nodes into
      components. *)
Lemma connected_components_spec :
    let cs := connected_components G in
    (∀ x, x ∈ _node G ↔ ∃ c, c ∈ cs ∧ x ∈ c)
    ∧ (∀ i j c1 c2, i ≠ j → cs !! i = Some c1 → cs !! j = Some c2 → c1 ## c2)
    ∧ (∀ c, c ∈ cs → component G c).
  Proof.
    pose proof (components_fold_inv (_node G) [] (∅, []) (λ x H, H) components_inv_init)
      as [Hcov Hcl Hpr Hno Hdi Hea].
    unfold connected_components.
    split_and!; [|done..].
    intros x. rewrite <- Hcov. split; [apply Hpr|apply Hno].
  Qed.
End ComponentFacts.

(** ** The threshold graph *)

Lemma precedes_cons d1 d2 d l :
  precedes d1 d2 (d :: l) ↔ (d1 = d ∧ d2 ∈ l) ∨ precedes d1 d2 l.
Proof.
  split.
  - intros ([|x l1] & l2 & E & Hin); simplify_eq/=; [by left|].
    right. by exists l1, l2.
  - intros [[-> Hin]|(l1 & l2 & -> & Hin)].
    + by exists [], l.
    + by exists (d :: l1), l2.
Qed.

Lemma precedes_total d1 d2 l :
  d1 ∈ l → d2 ∈ l → d1 ≠ d2 → precedes d1 d2 l ∨ precedes d2 d1 l.
Proof.
  intros (l1 & l2 & ->)%list_elem_of_split H2 Hne.
  apply elem_of_app in H2 as [H2|H2].
  - right. apply list_elem_of_split in H2 as (a & b & ->).
    exists a, (b ++ d1 :: l2). split; [by rewrite <- app_assoc|].
    apply elem_of_app. right. left.
  - left. exists l1, l2. split; [done|].
    apply elem_of_cons in H2 as [?|?]; [congruence|done].
Qed.

Lemma precedes_NoDup d1 d2 l :
  NoDup l → precedes d1 d2 l → d1 ∈ l ∧ d2 ∈ l ∧ d1 ≠ d2.
Proof.
  intros Hl (l1 & l2 & -> & Hin). split_and!.
  - apply elem_of_app. right. left.
  - apply elem_of_app. right. by right.
  - intros ->. apply NoDup_app in Hl as (_ & _ & Hl).
    by apply NoDup_cons in Hl as [Hl _].
Qed.

Section SimilarityGraphFacts.
Variable cfg : Config.
Variable logo_data : Py.dict (option LogoData.t).

Lemma elem_of_valid_domains d :
    d ∈ valid_domains logo_data ↔ ∃ data, (d, data) ∈ logo_data ∧ has_phash data = true.
  Proof.
    unfold valid_domains. rewrite list_elem_of_fmap. split.
    - intros ([d' data] & -> & [Hp Hin]%list_elem_of_filter). simpl in *.
      exists data. split; [done|]. by apply Is_true_eq_true.
    - intros (data & Hin & Hp). exists (d, data). split; [done|].
      apply list_elem_of_filter. split; [|done]. simpl. by apply Is_true_eq_left.
  Qed.

Lemma valid_domains_NoDup :
    NoDup (Py.keys logo_data) → NoDup (valid_domains logo_data).
  Proof.
    unfold valid_domains, Py.keys. intros Hk.
    eapply sublist_NoDup; [exact Hk|]. apply fmap_sublist, sublist_filter.
  Qed.

Lemma add_nodes_spec l G :
    graph_wf G →
    let G' := fold_left (λ G domain, nx.add_node domain G) l G in
    graph_wf G' ∧ (∀ x, x ∈ nx._node G' ↔ x ∈ nx._node G ∨ x ∈ l)
    ∧ ∀ u, nx.neighbors G' u = nx.neighbors G u.
  Proof.
    revert G. induction l as [|d l IH]; intros G HG; simpl.
    - split_and!; [done| |done]. intros x. rewrite elem_of_nil. naive_solver.
    - destruct (IH (nx.add_node d G)) as (Hwf & Hn & He); [by apply graph_wf_add_node|].
      split_and!; [done|..].
      + intros x. rewrite Hn, node_add_node, elem_of_cons. naive_solver.
      + intros u. by rewrite He, neighbors_add_node.
  Qed.

Lemma add_edges_from_spec d1 rest G :
    graph_wf G → d1 ∈ nx._node G → (∀ x, x ∈ rest → x ∈ nx._node G) →
    let G' := add_edges_from cfg logo_data d1 rest G in
    graph_wf G' ∧ (∀ x, x ∈ nx._node G' ↔ x ∈ nx._node G)
    ∧ ∀ u v, v ∈ nx.neighbors G' u
             ↔ v ∈ nx.neighbors G u ∨ ∃ d2, d2 ∈ rest ∧ linked cfg logo_data d1 d2 u v.
  Proof.
    unfold add_edges_from. revert G.
    induction rest as [|d2 rest IH]; intros G HG H1 Hrest; simpl.
    - split_and!; [done..|]. intros u v. split; [auto|].
      by intros [?|(? & ?%elem_of_nil & _)].
    - set (G1 := if decide (_ ≤ _) then _ else _).
      assert (HG1 : graph_wf G1 ∧ (∀ x, x ∈ nx._node G1 ↔ x ∈ nx._node G)
                ∧ ∀ u v, v ∈ nx.neighbors G1 u
                         ↔ v ∈ nx.neighbors G u ∨ linked cfg logo_data d1 d2 u v).
      { subst G1. unfold linked, domain_distance. case_decide as Hd.
        - split_and!; [by apply graph_wf_add_edge|..].
          + intros x. rewrite node_add_edge. split; [|auto].
            intros [?|[->| ->]]; [done..|]. apply Hrest. left.
          + intros u v. rewrite neighbors_add_edge by done. naive_solver.
        - split_and!; [done..|]. intros u v. naive_solver. }
      destruct HG1 as (Hwf1 & Hn1 & He1).
      destruct (IH G1) as (Hwf & Hn & He); [done|by apply Hn1|..].
      { intros x Hx. apply Hn1, Hrest. by right. }
      split_and!; [done|..].
      + intros x. by rewrite Hn, Hn1.
      + intros u v. rewrite He, He1. split.
        * intros [[?|?]|(d & Hd & ?)]; [by left|right..].
          -- exists d2. split; [left|done].
          -- exists d. split; [by right|done].
        * intros [?|(d & [->|Hd]%elem_of_cons & ?)]; [by left; left|by left; right|].
          right. by exists d.
  Qed.

Lemma add_all_edges_spec valid G :
    graph_wf G → (∀ x, x ∈ valid → x ∈ nx._node G) →
    let G' := add_all_edges cfg logo_data valid G in
    graph_wf G' ∧ (∀ x, x ∈ nx._node G' ↔ x ∈ nx._node G)
    ∧ ∀ u v, v ∈ nx.neighbors G' u
             ↔ v ∈ nx.neighbors G u
               ∨ ∃ d1 d2, precedes d1 d2 valid ∧ linked cfg logo_data d1 d2 u v.
  Proof.
    revert G. induction valid as [|d1 rest IH]; intros G HG Hvalid; simpl.
    - split_and!; [done..|]. intros u v. split; [auto|].
      intros [?|(? & ? & ([|??] & ? & ? & _) & _)]; [done|discriminate..].
    - destruct (add_edges_from_spec d1 rest G) as (Hwf1 & Hn1 & He1);
        [done|apply Hvalid; left|intros x Hx; apply Hvalid; by right|].
      destruct (IH (add_edges_from cfg logo_data d1 rest G)) as (Hwf & Hn & He);
        [done|intros x Hx; apply Hn1, Hvalid; by right|].
      split_and!; [done|..].
      + intros x. by rewrite Hn, Hn1.
      + intros u v. rewrite He, He1. split.
        * intros [[?|(d2 & Hd2 & ?)]|(a & b & Hp & ?)]; [by left|right..].
          -- exists d1, d2. split; [|done]. apply precedes_cons. by left.
          -- exists a, b. split; [|done]. apply precedes_cons. by right.
        * intros [?|(a & b & [[-> Hb]|Hp]%precedes_cons & ?)]; [by left; left|..].
          -- left. right. by exists b.
          -- right. by exists a, b.
  Qed.

(** The graph [cluster_by_similarity] builds. *)
Lemma similarity_graph_spec :
    let G := similarity_graph cfg logo_data in
    graph_wf G
    ∧ (∀ x, x ∈ nx._node G ↔ x ∈ valid_domains logo_data)
    ∧ ∀ u v, v ∈ nx.neighbors G u
             ↔ ∃ d1 d2, precedes d1 d2 (valid_domains logo_data) ∧ linked cfg logo_data d1 d2 u v.
  Proof.
    unfold similarity_graph.
    destruct (add_nodes_spec (valid_domains logo_data) nx.empty graph_wf_empty)
      as (Hwf0 & Hn0 & He0).
    destruct (add_all_edges_spec (valid_domains logo_data)
                (fold_left (λ G domain, nx.add_node domain G)
                   (valid_domains logo_data) nx.empty))
      as (Hwf & Hn & He); [done|intros x Hx; apply Hn0; by right|].
    split_and!; [done|..].
    - intros x. rewrite Hn, Hn0. simpl. rewrite elem_of_nil. naive_solver.
    - intros u v. rewrite He, He0. unfold nx.neighbors, nx.adj; simpl.
      rewrite elem_of_nil. naive_solver.
  Qed.

(** With distinct keys, an edge joins exactly the pairs of distinct nodes
      within the threshold. *)
Lemma similarity_graph_edge u v :
    NoDup (Py.keys logo_data) →
    v ∈ nx.neighbors (similarity_graph cfg logo_data) u
    ↔ u ∈ valid_domains logo_data ∧ v ∈ valid_domains logo_data ∧ u ≠ v
      ∧ domain_distance logo_data u v ≤ NEAR_DUPLICATE_THRESHOLD cfg.
  Proof.
    intros Hk%valid_domains_NoDup.
    destruct similarity_graph_spec as (_ & _ & He). rewrite He. split.
    - intros (d1 & d2 & Hp & Hd & Huv).
      destruct (precedes_NoDup _ _ _ Hk Hp) as (H1 & H2 & Hne).
      destruct Huv as [[-> ->]|[-> ->]]; [done|].
      split_and!; [done..|]. unfold domain_distance in *.
      by rewrite compute_hash_distance_comm.
    - intros (Hu & Hv & Hne & Hd).
      destruct (precedes_total u v _ Hu Hv Hne) as [Hp|Hp].
      + exists u, v. split; [done|]. split; [done|by left].
      + exists v, u. split; [done|]. split; [|by right].
        unfold domain_distance in *. by rewrite compute_hash_distance_comm.
  Qed.
End SimilarityGraphFacts.

(** ** Clusters of the threshold graph *)

Lemma has_phash_true data :
  has_phash data = true
  ↔ ∃ r hs h, data = Some r ∧ LogoData.hashes r = Some hs
              ∧ Py.get "phash" hs = Some h ∧ h ≠ "".
Proof.
  unfold has_phash, Py.opt_str_truthy, Py.str_truthy. split.
  - destruct data as [r|]; [|done].
    destruct (LogoData.hashes r) as [hs|] eqn:Ehs; [|done].
    destruct (Py.get "phash" hs) as [h|] eqn:Eh; [|done].
    intros Hh. exists r, hs, h. split_and!; try done.
    intros ->. by rewrite bool_decide_eq_true_2 in Hh.
  - intros (r & hs & h & -> & -> & -> & Hh). by rewrite bool_decide_eq_false_2.
Qed.

Lemma has_edge_true G u v : nx.has_edge G u v = true ↔ v ∈ nx.neighbors G u.
Proof. unfold nx.has_edge. apply bool_decide_eq_true. Qed.

Lemma has_edge_false G u v : nx.has_edge G u v = false ↔ v ∉ nx.neighbors G u.
Proof. unfold nx.has_edge. apply bool_decide_eq_false. Qed.

Lemma cluster_by_similarity_spec cfg logo_data :
  let G := similarity_graph cfg logo_data in
  let clusters := cluster_by_similarity cfg logo_data in
  (∀ d, clustered clusters d ↔ d ∈ valid_domains logo_data)
  ∧ (∀ i j c1 c2,
       i ≠ j → clusters !! i = Some c1 → clusters !! j = Some c2 → c1 ## c2)
  ∧ (∀ c, c ∈ clusters → component G c).
Proof.
  intros G clusters.
  destruct (similarity_graph_spec cfg logo_data) as (HG & Hn & _).
  destruct (connected_components_spec _ HG) as (Hcov & Hdis & Hcomp).
  split_and!; [|done..].
  intros d. unfold clustered. fold G in Hcov, Hn. by rewrite <- Hn, Hcov.
Qed.

(** A graph in which every closed set that is not empty holds all nodes
    has one component. *)
Lemma connected_components_single G :
  graph_wf G → nx._node G ≠ [] →
  (∀ X, closed G X → X ≠ ∅ → (∀ x, x ∈ X → x ∈ nx._node G) →
        ∀ x, x ∈ nx._node G → x ∈ X) →
  nx.connected_components G = [list_to_set (nx._node G)].
Proof.
  intros HG Hne Hconn.
  destruct (connected_components_spec _ HG) as (Hcov & Hdis & Hcomp).
  assert (Hall : ∀ c, c ∈ nx.connected_components G → c = list_to_set (nx._node G)).
  { intros c Hc. destruct (Hcomp c Hc) as (Hc0 & Hcl & _).
    apply set_eq. intros x. rewrite elem_of_list_to_set. split.
    - intros Hx. apply Hcov. by exists c.
    - apply Hconn; [done..|]. intros y Hy. apply Hcov. by exists c. }
  destruct (nx.connected_components G) as [|c0 [|c1 cs]] eqn:E.
  - destruct (nx._node G) as [|x l]; [done|].
    assert (Hx : x ∈ x :: l) by left.
    apply Hcov in Hx as (c & Hc & _). by apply elem_of_nil in Hc.
  - f_equal. apply Hall. left.
  - exfalso.
    assert (H0 : c0 = list_to_set (nx._node G)) by (apply Hall; left).
    assert (H1 : c1 = list_to_set (nx._node G)) by (apply Hall; right; left).
    assert (Hd : c0 ## c1) by (by apply (Hdis 0%nat 1%nat)).
    rewrite H0, H1 in Hd.
    destruct (nx._node G) as [|x l]; [done|].
    apply (Hd x); apply elem_of_list_to_set; left.
Qed.

Example distance_3 :
  _compute_hash_distance "0000000000000000" "0000000000000007" = 3.
Proof. reflexivity. Qed.

Example distance_mismatch :
  _compute_hash_distance "ffff" "ffffffffffffffff" = 999.
Proof. reflexivity. Qed.

Example three_logos_clusters :
  cluster_by_similarity default_config three_logos
  = [ {["a.com"; "b.com"; "c.com"]}; {["d.com"]} ].
Proof. by vm_compute. Qed.

Example mismatched_logos_clusters :
  cluster_by_similarity default_config mismatched_logos
  = [ {["a.com"]}; {["b.com"]} ].
Proof. by vm_compute. Qed.

(** ** The claims on the clusterer *)

(** C9: the distance of [_compute_hash_distance] is symmetric: for every
    pair of hash strings [a] and [b], the distance from [a] to [b] is the
    distance from [b] to [a]. *)
Theorem hash_distance_symmetric (a b : string) :
  _compute_hash_distance a b = _compute_hash_distance b a.
Proof. apply compute_hash_distance_comm. Qed.

(** C4: for every pair of distinct nodes of the graph, an edge joins them
    if and only if the distance of their primary codes is at most
    [NEAR_DUPLICATE_THRESHOLD] (5 by default); a pair at exactly the
    threshold has an edge, a pair one above it has none.  That distance is
    the Hamming distance of the two codes, the number of places at which
    their bits differ, whenever both codes parse to arrays of one size, so
    that there the edge is present exactly when the codes differ in at most
    [NEAR_DUPLICATE_THRESHOLD] bits; for every other pair it is the
    sentinel 999. *)
Theorem edge_iff_within_threshold (cfg : Config)
    (logo_data : Py.dict (option LogoData.t)) (u v : string) :
  NoDup (Py.keys logo_data) →
  u ∈ nx._node (similarity_graph cfg logo_data) →
  v ∈ nx._node (similarity_graph cfg logo_data) →
  u ≠ v →
  let G := similarity_graph cfg logo_data in
  let distance := domain_distance logo_data u v in
  (nx.has_edge G u v = true ↔ distance ≤ NEAR_DUPLICATE_THRESHOLD cfg)
  ∧ (distance = NEAR_DUPLICATE_THRESHOLD cfg → nx.has_edge G u v = true)
  ∧ (distance = NEAR_DUPLICATE_THRESHOLD cfg + 1 → nx.has_edge G u v = false)
  ∧ NEAR_DUPLICATE_THRESHOLD default_config = 5
  ∧ (∀ hu hv,
       ImageHash.hex_to_hash (phash_of logo_data u) = Ok hu →
       ImageHash.hex_to_hash (phash_of logo_data v) = Ok hv →
       ImageHash.size hu = ImageHash.size hv →
       let hamming :=
         ImageHash.count_differing (ImageHash.flatten hu) (ImageHash.flatten hv) in
       distance = hamming
       ∧ (nx.has_edge G u v = true ↔ hamming ≤ NEAR_DUPLICATE_THRESHOLD cfg)
       ∧ (hamming = NEAR_DUPLICATE_THRESHOLD cfg → nx.has_edge G u v = true)
       ∧ (hamming = NEAR_DUPLICATE_THRESHOLD cfg + 1 → nx.has_edge G u v = false))
  ∧ ((∀ hu hv,
        ImageHash.hex_to_hash (phash_of logo_data u) = Ok hu →
        ImageHash.hex_to_hash (phash_of logo_data v) = Ok hv →
        ImageHash.size hu ≠ ImageHash.size hv) →
     distance = 999).
Proof.
  intros Hk Hu Hv Hne G distance.
  destruct (similarity_graph_spec cfg logo_data) as (_ & Hn & _).
  apply Hn in Hu, Hv.
  assert (Hedge : nx.has_edge G u v = true
                  ↔ distance ≤ NEAR_DUPLICATE_THRESHOLD cfg).
  { rewrite has_edge_true. unfold G. rewrite similarity_graph_edge by done.
    naive_solver. }
  split_and!; [done| | |done| |].
  - intros E. apply Hedge. lia.
  - intros E. apply not_true_is_false. rewrite Hedge. lia.
  - intros hu hv Eu Ev Es hamming.
    assert (Ed : distance = hamming).
    { unfold distance, domain_distance, _compute_hash_distance.
      rewrite Eu, Ev. simpl. unfold ImageHash.sub.
      by rewrite decide_True by done. }
    split_and!; [done|by rewrite <- Ed|..].
    + intros E. apply Hedge. lia.
    + intros E. apply not_true_is_false. rewrite Hedge. lia.
  - intros Hno. unfold distance, domain_distance, _compute_hash_distance.
    destruct (ImageHash.hex_to_hash (phash_of logo_data u)) as [hu|] eqn:Eu;
      [|done].
    destruct (ImageHash.hex_to_hash (phash_of logo_data v)) as [hv|] eqn:Ev;
      [|done].
    simpl. unfold ImageHash.sub.
    by rewrite decide_False by by apply Hno.
Qed.

Lemma edge_iff_within_threshold_witness :
  NoDup (Py.keys three_logos)
  ∧ "a.com" ∈ nx._node (similarity_graph default_config three_logos)
  ∧ "b.com" ∈ nx._node (similarity_graph default_config three_logos)
  ∧ "a.com" ≠ "b.com"
  ∧ ImageHash.hex_to_hash (phash_of three_logos "a.com")
    = Ok (replicate 8 (replicate 8 false))
  ∧ ImageHash.hex_to_hash (phash_of three_logos "b.com")
    = Ok (replicate 7 (replicate 8 false)
          ++ [[false; false; false; false; false; true; true; true]])
  ∧ domain_distance three_logos "a.com" "b.com" = 3
  ∧ ImageHash.count_differing
      (ImageHash.flatten (replicate 8 (replicate 8 false)))
      (ImageHash.flatten
         (replicate 7 (replicate 8 false)
          ++ [[false; false; false; false; false; true; true; true]])) = 3
  ∧ nx.has_edge (similarity_graph default_config three_logos) "a.com" "b.com"
    = true.
Proof.
  assert (H1 : NoDup (Py.keys three_logos)) by by_evaluation.
  assert (H2 : "a.com" ∈ nx._node (similarity_graph default_config three_logos))
    by by_evaluation.
  assert (H3 : "b.com" ∈ nx._node (similarity_graph default_config three_logos))
    by by_evaluation.
  assert (H4 : "a.com" ≠ "b.com") by discriminate.
  assert (Ha : ImageHash.hex_to_hash (phash_of three_logos "a.com")
               = Ok (replicate 8 (replicate 8 false))) by reflexivity.
  assert (Hb : ImageHash.hex_to_hash (phash_of three_logos "b.com")
               = Ok (replicate 7 (replicate 8 false)
                     ++ [[false; false; false; false; false; true; true; true]]))
    by reflexivity.
  destruct (edge_iff_within_threshold default_config three_logos
              "a.com" "b.com" H1 H2 H3 H4) as (_ & _ & _ & _ & Hham & _).
  destruct (Hham _ _ Ha Hb eq_refl) as (Hd & He & _).
  split_and!; [done..|by rewrite Hd| |].
  - reflexivity.
  - apply He. by vm_compute.
Defined.

(** C3: the clusters returned by [cluster_by_similarity] partition the
    node set: a domain is in some cluster if and only if its record has a
    non-empty ['phash'], and two clusters at different places of the list
    share no domain. *)
Theorem clusters_partition_nodes (cfg : Config)
    (logo_data : Py.dict (option LogoData.t)) :
  let clusters := cluster_by_similarity cfg logo_data in
  (∀ d, clustered clusters d
        ↔ ∃ r hs h, (d, Some r) ∈ logo_data ∧ LogoData.hashes r = Some hs
                    ∧ Py.get "phash" hs = Some h ∧ h ≠ "")
  ∧ (∀ d, d ∈ nx._node (similarity_graph cfg logo_data) ↔ clustered clusters d)
  ∧ (∀ i j c1 c2,
       i ≠ j → clusters !! i = Some c1 → clusters !! j = Some c2 → c1 ## c2)
  ∧ (∀ c, c ∈ clusters → c ≠ ∅).
Proof.
  intros clusters.
  destruct (cluster_by_similarity_spec cfg logo_data) as (Hcov & Hdis & Hcomp).
  destruct (similarity_graph_spec cfg logo_data) as (_ & Hn & _).
  split_and!; [| |done|].
  - intros d. unfold clusters. rewrite Hcov, elem_of_valid_domains. split.
    + intros (data & Hin & (r & hs & h & -> & ?)%has_phash_true). by exists r, hs, h.
    + intros (r & hs & h & Hin & ?). exists (Some r). split; [done|].
      apply has_phash_true. by exists r, hs, h.
  - intros d. unfold clusters. by rewrite Hcov, Hn.
  - intros c Hc. by destruct (Hcomp c Hc).
Qed.

Lemma clusters_partition_nodes_witness :
  clustered (cluster_by_similarity default_config three_logos) "c.com"
  ∧ ¬ clustered (cluster_by_similarity default_config three_logos) "e.com"
  ∧ ∀ c1 c2,
      cluster_by_similarity default_config three_logos !! 0%nat = Some c1 →
      cluster_by_similarity default_config three_logos !! 1%nat = Some c2 →
      c1 ## c2.
Proof.
  destruct (clusters_partition_nodes default_config three_logos)
    as (Hrec & _ & Hdis & _).
  split_and!.
  - apply Hrec.
    exists {| LogoData.url := "https://c.com/favicon.ico";
              LogoData.hashes :=
                Some [("phash", "0000000000000f07"); ("dhash", "0000000000000f07");
                      ("ahash", "0000000000000f07"); ("whash", "0000000000000f07")];
              LogoData.size := (32, 32);
              LogoData.format := Some "PNG" |}.
    exists [("phash", "0000000000000f07"); ("dhash", "0000000000000f07");
            ("ahash", "0000000000000f07"); ("whash", "0000000000000f07")].
    exists "0000000000000f07".
    split_and!; [|reflexivity|reflexivity|discriminate].
    unfold three_logos, record_with_phash. do 2 right. left.
  - intros (r & hs & h & Hin & _)%Hrec.
    unfold three_logos, record_with_phash in Hin.
    repeat (apply elem_of_cons in Hin as [Hin|Hin]; [discriminate|]).
    by apply elem_of_nil in Hin.
  - intros c1 c2. by apply Hdis.
Defined.

(** ** The threshold graph over any distance method *)




Section SimilarityGraphWith.
Variable distance : string → string → Z.
Variable cfg : Config.
Variable logo_data : Py.dict (option LogoData.t).




End SimilarityGraphWith.

(** ** A chain of three nodes *)

(** With [_compute_hash_distance] as shipped no three codes are 3, 4 and 6
    apart: the two distances through the middle code and the direct one
    differ by an even number. *)
Lemma scenario_3_4_6_has_no_codes :
  ¬ ∃ hA hB hC : string,
      _compute_hash_distance hA hB = 3
      ∧ _compute_hash_distance hB hC = 4
      ∧ _compute_hash_distance hA hC = 6.
Proof. intros (hA & hB & hC & H). by apply (no_three_codes_3_4_6 hA hB hC). Qed.

(** Three nodes [A], [B], [C] whose primary codes are 3 (A-B), 4 (B-C) and
    7 (A-C) bits apart, with threshold 5, get exactly the edges A-B and
    B-C, no edge A-C, and form the single cluster {A, B, C}. *)
Theorem chain_of_three_is_one_cluster (cfg : Config)
    (logo_data : Py.dict (option LogoData.t)) (A B C : string) :
  NoDup (Py.keys logo_data) →
  valid_domains logo_data ≡ₚ [A; B; C] →
  NEAR_DUPLICATE_THRESHOLD cfg = 5 →
  domain_distance logo_data A B = 3 →
  domain_distance logo_data B C = 4 →
  domain_distance logo_data A C = 7 →
  let G := similarity_graph cfg logo_data in
  nx.has_edge G A B = true
  ∧ nx.has_edge G B C = true
  ∧ nx.has_edge G A C = false
  ∧ (∀ u v, nx.has_edge G u v = true →
            (u = A ∧ v = B) ∨ (u = B ∧ v = A) ∨ (u = B ∧ v = C) ∨ (u = C ∧ v = B))
  ∧ cluster_by_similarity cfg logo_data = [ {[A; B; C]} ].
Proof.
  intros Hk Hperm Hthr HAB HBC HAC G.
  assert (Hnd : NoDup [A; B; C]).
  { rewrite <- Hperm. by apply valid_domains_NoDup. }
  assert (A ≠ B ∧ A ≠ C ∧ B ≠ C) as (NAB & NAC & NBC).
  { apply NoDup_cons in Hnd as [HA Hnd]. apply NoDup_cons in Hnd as [HB _].
    split_and!; intros ->.
    - apply HA. left.
    - apply HA. right. left.
    - apply HB. left. }
  assert (Hmem : ∀ x, x ∈ valid_domains logo_data ↔ x = A ∨ x = B ∨ x = C).
  { intros x. rewrite Hperm, !elem_of_cons, elem_of_nil. naive_solver. }
  assert (Hedge : ∀ u v, nx.has_edge G u v = true
            ↔ (u = A ∨ u = B ∨ u = C) ∧ (v = A ∨ v = B ∨ v = C) ∧ u ≠ v
              ∧ domain_distance logo_data u v ≤ 5).
  { intros u v. rewrite has_edge_true. unfold G.
    rewrite similarity_graph_edge, !Hmem, Hthr by done. done. }
  assert (HBA : domain_distance logo_data B A = 3).
  { unfold domain_distance in *. by rewrite compute_hash_distance_comm. }
  assert (HCB : domain_distance logo_data C B = 4).
  { unfold domain_distance in *. by rewrite compute_hash_distance_comm. }
  assert (HCA : domain_distance logo_data C A = 7).
  { unfold domain_distance in *. by rewrite compute_hash_distance_comm. }
  assert (EAB : nx.has_edge G A B = true) by (apply Hedge; split_and!; auto; lia).
  assert (EBA : nx.has_edge G B A = true) by (apply Hedge; split_and!; auto; lia).
  assert (EBC : nx.has_edge G B C = true) by (apply Hedge; split_and!; auto; lia).
  assert (ECB : nx.has_edge G C B = true) by (apply Hedge; split_and!; auto; lia).
  split_and!; [done|done| | |].
  - apply not_true_is_false. rewrite Hedge. lia.
  - intros u v (Hu & Hv & Hne & Hd)%Hedge.
    destruct Hu as [->|[->| ->]], Hv as [->|[->| ->]]; try done; auto; lia.
  - destruct (similarity_graph_spec cfg logo_data) as (HG & Hn & _). fold G in HG, Hn.
    unfold cluster_by_similarity. fold G.
    assert (Hset : list_to_set (nx._node G) = ({[A; B; C]} : gset string)).
    { apply set_eq. intros x. rewrite elem_of_list_to_set, Hn, Hmem. set_solver. }
    rewrite <- Hset. apply connected_components_single; [done| |].
    + intros Hnil. assert (HA : A ∈ nx._node G) by (apply Hn, Hmem; auto).
      rewrite Hnil in HA. by apply elem_of_nil in HA.
    + apply has_edge_true in EAB, EBA, EBC, ECB.
      intros X HX Hne Hsub x Hx.
      apply set_choose_L in Hne as [y Hy].
      assert (Hy' := Hsub y Hy). apply Hn, Hmem in Hy'. apply Hn, Hmem in Hx.
      assert (A ∈ X ∧ B ∈ X ∧ C ∈ X) as (HA & HB & HC).
      { destruct Hy' as [->|[->| ->]].
        - assert (B ∈ X) by by eapply HX. split_and!; [done..|]. by eapply (HX B C).
        - split_and!; [by eapply (HX B A)|done|by eapply (HX B C)].
        - assert (B ∈ X) by by eapply HX. split_and!; [|done..]. by eapply (HX B A). }
      by destruct Hx as [->|[->| ->]].
Qed.

Lemma chain_of_three_is_one_cluster_witness :
  NoDup (Py.keys chain_logos)
  ∧ valid_domains chain_logos ≡ₚ ["a.com"; "b.com"; "c.com"]
  ∧ NEAR_DUPLICATE_THRESHOLD default_config = 5
  ∧ domain_distance chain_logos "a.com" "b.com" = 3
  ∧ domain_distance chain_logos "b.com" "c.com" = 4
  ∧ domain_distance chain_logos "a.com" "c.com" = 7
  ∧ cluster_by_similarity default_config chain_logos
    = [ {["a.com"; "b.com"; "c.com"]} ].
Proof.
  assert (H1 : NoDup (Py.keys chain_logos)) by by_evaluation.
  assert (H2 : valid_domains chain_logos ≡ₚ ["a.com"; "b.com"; "c.com"])
    by reflexivity.
  assert (H3 : NEAR_DUPLICATE_THRESHOLD default_config = 5) by reflexivity.
  assert (H4 : domain_distance chain_logos "a.com" "b.com" = 3) by reflexivity.
  assert (H5 : domain_distance chain_logos "b.com" "c.com" = 4) by reflexivity.
  assert (H6 : domain_distance chain_logos "a.com" "c.com" = 7) by reflexivity.
  split_and!; [done..|].
  exact (proj2 (proj2 (proj2 (proj2
    (chain_of_three_is_one_cluster default_config chain_logos
       "a.com" "b.com" "c.com" H1 H2 H3 H4 H5 H6))))).
Defined.




(** ** Codes of different length *)

Lemma code_bits_Some hexstr n :
  code_bits hexstr = Some n
  ↔ ∃ h, ImageHash.hex_to_hash hexstr = Ok h ∧ ImageHash.size h = n.
Proof.
  unfold code_bits. destruct (ImageHash.hex_to_hash hexstr) as [h|e]; naive_solver.
Qed.

Lemma compute_hash_distance_mismatch hash1 hash2 n1 n2 :
  code_bits hash1 = Some n1 → code_bits hash2 = Some n2 → n1 ≠ n2 →
  _compute_hash_distance hash1 hash2 = 999.
Proof.
  intros (h1 & E1 & <-)%code_bits_Some (h2 & E2 & <-)%code_bits_Some Hne.
  unfold _compute_hash_distance. rewrite E1, E2. simpl.
  unfold ImageHash.sub. by rewrite decide_False.
Qed.

(** C2, as stated, fails: two records whose codes have 16 and 64 bits are
    compared without any rejection: the pair gets the distance 999, and
    both records end up in the clusters. *)
Lemma mismatch_is_not_rejected :
  domain_distance mismatched_logos "a.com" "b.com" = 999
  ∧ ¬ mismatch_rejected default_config mismatched_logos "a.com" "b.com".
Proof.
  split; [reflexivity|].
  intros H. specialize (H 16%nat 64%nat eq_refl eq_refl).
  destruct H as [H|H]; [lia|..]; apply H; unfold clustered;
    rewrite mismatched_logos_clusters.
  - exists {["a.com"]}. split; [left|by apply elem_of_singleton].
  - exists {["b.com"]}. split; [right; left|by apply elem_of_singleton].
Qed.

(** C2, amended: when the primary codes of two nodes differ in bit length,
    the distance of the pair is the sentinel 999, the pair has an edge only
    under a threshold of at least 999, and both nodes stay in the
    clusters. *)
Theorem mismatch_gets_sentinel (cfg : Config)
    (logo_data : Py.dict (option LogoData.t)) (d1 d2 : string) (n1 n2 : nat) :
  NoDup (Py.keys logo_data) →
  d1 ∈ valid_domains logo_data →
  d2 ∈ valid_domains logo_data →
  d1 ≠ d2 →
  code_bits (phash_of logo_data d1) = Some n1 →
  code_bits (phash_of logo_data d2) = Some n2 →
  n1 ≠ n2 →
  domain_distance logo_data d1 d2 = 999
  ∧ (nx.has_edge (similarity_graph cfg logo_data) d1 d2 = true
     ↔ 999 ≤ NEAR_DUPLICATE_THRESHOLD cfg)
  ∧ clustered (cluster_by_similarity cfg logo_data) d1
  ∧ clustered (cluster_by_similarity cfg logo_data) d2.
Proof.
  intros Hk H1 H2 Hne E1 E2 Hn.
  assert (Hd : domain_distance logo_data d1 d2 = 999)
    by by eapply compute_hash_distance_mismatch.
  destruct (cluster_by_similarity_spec cfg logo_data) as (Hcov & _ & _).
  split_and!; [done| |by apply Hcov..].
  rewrite has_edge_true, similarity_graph_edge, Hd by done. naive_solver.
Qed.

Lemma mismatch_gets_sentinel_witness :
  NoDup (Py.keys mismatched_logos)
  ∧ "a.com" ∈ valid_domains mismatched_logos
  ∧ "b.com" ∈ valid_domains mismatched_logos
  ∧ "a.com" ≠ "b.com"
  ∧ code_bits (phash_of mismatched_logos "a.com") = Some 16%nat
  ∧ code_bits (phash_of mismatched_logos "b.com") = Some 64%nat
  ∧ 16%nat ≠ 64%nat
  ∧ domain_distance mismatched_logos "a.com" "b.com" = 999.
Proof.
  assert (H1 : NoDup (Py.keys mismatched_logos)) by by_evaluation.
  assert (H2 : "a.com" ∈ valid_domains mismatched_logos) by by_evaluation.
  assert (H3 : "b.com" ∈ valid_domains mismatched_logos) by by_evaluation.
  assert (H4 : "a.com" ≠ "b.com") by discriminate.
  assert (H5 : code_bits (phash_of mismatched_logos "a.com") = Some 16%nat)
    by reflexivity.
  assert (H6 : code_bits (phash_of mismatched_logos "b.com") = Some 64%nat)
    by reflexivity.
  assert (H7 : 16%nat ≠ 64%nat) by lia.
  split_and!; [done..|].
  exact (proj1 (mismatch_gets_sentinel default_config mismatched_logos
                  "a.com" "b.com" 16 64 H1 H2 H3 H4 H5 H6 H7)).
Defined.

(** ** Image fetch and fingerprint *)

Lemma bind_Ok {A B} (m : result A) (f : A → result B) (b : B) :
  m ≫= f = Ok b ↔ ∃ a, m = Ok a ∧ f a = Ok b.
Proof. destruct m as [a|e]; simpl; naive_solver. Qed.

Lemma Image_convert_Ok w mode img out :
  Image_convert w mode img = Ok out →
  Image.mode out = mode ∧ Image.size out = Image.size img.
Proof.
  unfold Image_convert. intros (data & _ & E)%bind_Ok. by simplify_eq.
Qed.

Lemma Image_resize_Ok w size img out :
  Image_resize w size img = Ok out →
  Image.mode out = Image.mode img ∧ Image.size out = size
  ∧ 0 < size.1 ∧ 0 < size.2.
Proof.
  unfold Image_resize. case_decide as Hs; [|done].
  intros (data & _ & E)%bind_Ok. by simplify_eq.
Qed.

Lemma to_known_mode_Ok w img img1 :
  to_known_mode w img = Ok img1 →
  Image.mode img1 ∈ ["RGB"; "L"; "RGBA"] ∧ Image.size img1 = Image.size img.
Proof.
  unfold to_known_mode. case_decide as Hm.
  - intros [-> ->]%Image_convert_Ok. split; [by left|done].
  - intros [= <-]. by split.
Qed.

Lemma known_mode_not_palette (mode : string) :
  mode ∈ ["RGB"; "L"; "RGBA"] → mode ≠ "P".
Proof. rewrite !elem_of_cons, elem_of_nil. intros [->|[->|[->|[]]]]; discriminate. Qed.

Lemma expand_palette_skipped w img :
  Image.mode img ∈ ["RGB"; "L"; "RGBA"] → expand_palette w img = Ok img.
Proof.
  intros Hm%known_mode_not_palette. unfold expand_palette. by rewrite decide_False.
Qed.

(** [normalize_image] is the mode check followed by the resize. *)
Lemma normalize_image_unfold cfg w img :
  normalize_image cfg w img
  = (img1 ← to_known_mode w img;
     Image_resize w (NORMALIZE_SIZE cfg, NORMALIZE_SIZE cfg) img1).
Proof.
  unfold normalize_image. destruct (to_known_mode w img) as [img1|e] eqn:E; [|done].
  simpl. apply to_known_mode_Ok in E as [Hm _]. by rewrite expand_palette_skipped.
Qed.

Lemma normalize_image_Ok cfg w img out :
  normalize_image cfg w img = Ok out →
  Image.size out = (NORMALIZE_SIZE cfg, NORMALIZE_SIZE cfg)
  ∧ Image.mode out ∈ ["RGB"; "L"; "RGBA"].
Proof.
  rewrite normalize_image_unfold.
  intros (img1 & [Hm _]%to_known_mode_Ok & (Hm' & Hs & _)%Image_resize_Ok)%bind_Ok.
  split; [done|]. by rewrite Hm'.
Qed.

Lemma normalize_image_total cfg w img :
  0 < NORMALIZE_SIZE cfg → pil_total w → ∃ out, normalize_image cfg w img = Ok out.
Proof.
  intros Hn Hw. rewrite normalize_image_unfold.
  assert (∃ img1, to_known_mode w img = Ok img1) as [img1 ->].
  { unfold to_known_mode, Image_convert. case_decide; [|by eexists].
    destruct (Hw img) as [Hc _]. destruct (Hc "RGB") as [data ->]. by eexists. }
  simpl. unfold Image_resize. rewrite decide_True by done.
  destruct (Hw img1) as [_ Hr].
  destruct (Hr (NORMALIZE_SIZE cfg, NORMALIZE_SIZE cfg)) as [data ->]. by eexists.
Qed.

(** C10: whatever the input image, the image [normalize_image] returns has
    the size [NORMALIZE_SIZE] x [NORMALIZE_SIZE] (64 x 64 by default) and one
    of the modes RGB, L, RGBA; the palette branch is never taken, since the
    image that reaches it has one of these three modes; and an image is
    returned whenever the size is positive and [PIL] converts and resizes
    without an error. *)
Theorem normalize_image_canonical (cfg : Config) (w : World) (img : Image.t) :
  (∀ out, normalize_image cfg w img = Ok out →
          Image.size out = (NORMALIZE_SIZE cfg, NORMALIZE_SIZE cfg)
          ∧ Image.mode out ∈ ["RGB"; "L"; "RGBA"])
  ∧ (∀ img1, to_known_mode w img = Ok img1 →
             Image.mode img1 ≠ "P" ∧ expand_palette w img1 = Ok img1)
  ∧ (0 < NORMALIZE_SIZE cfg → pil_total w →
     ∃ out, normalize_image cfg w img = Ok out)
  ∧ NORMALIZE_SIZE default_config = 64.
Proof.
  split_and!; [| | |done].
  - apply normalize_image_Ok.
  - intros img1 [Hm _]%to_known_mode_Ok.
    split; [by apply known_mode_not_palette|by apply expand_palette_skipped].
  - apply normalize_image_total.
Qed.

Lemma example_world_pil_total : pil_total example_world.
Proof. intros img. split; intros ?; by eexists. Qed.

Lemma normalize_image_canonical_witness :
  0 < NORMALIZE_SIZE default_config
  ∧ pil_total example_world
  ∧ (∃ out, normalize_image default_config example_world example_palette_image = Ok out)
  ∧ ∀ out, normalize_image default_config example_world example_palette_image = Ok out →
           Image.size out = (64, 64) ∧ Image.mode out ∈ ["RGB"; "L"; "RGBA"].
Proof.
  assert (H1 : 0 < NORMALIZE_SIZE default_config) by reflexivity.
  pose proof example_world_pil_total as H2.
  pose proof (normalize_image_canonical default_config example_world
                example_palette_image) as (H3 & _ & H4 & _).
  split_and!; [done|done|by apply H4|exact H3].
Defined.

Lemma validate_image_true cfg img :
  _validate_image cfg img = true
  ↔ MIN_IMAGE_SIZE cfg ≤ (Image.size img).1 ∧ MIN_IMAGE_SIZE cfg ≤ (Image.size img).2.
Proof.
  unfold _validate_image. destruct (Image.size img) as [width height]; simpl.
  case_decide; split; try done; lia.
Qed.

Lemma validate_image_false cfg img :
  _validate_image cfg img = false
  ↔ (Image.size img).1 < MIN_IMAGE_SIZE cfg ∨ (Image.size img).2 < MIN_IMAGE_SIZE cfg.
Proof.
  unfold _validate_image. destruct (Image.size img) as [width height]; simpl.
  case_decide; split; try done; lia.
Qed.

Lemma download_image_Some cfg w url img :
  download_image cfg w url = Some img
  ↔ ∃ response image_data,
      session_get w url = Ok response ∧ Response.status response = 200
      ∧ Response.read response = Ok image_data
      ∧ Image_open w image_data = Ok img
      ∧ _validate_image cfg img = true.
Proof.
  unfold download_image. split.
  - destruct (session_get w url) as [response|e]; [simpl|done].
    case_decide as Hs; [done|].
    destruct (Response.read response) as [image_data|e] eqn:Er; [simpl|done].
    destruct (Image_open w image_data) as [img'|e] eqn:Eo; [simpl|done].
    destruct (_validate_image cfg img') eqn:Ev; [simpl|done].
    intros [= ->]. by exists response, image_data.
  - intros (response & image_data & -> & Hs & Er & Eo & Ev). simpl.
    rewrite decide_False by (by intros []). rewrite Er. simpl. rewrite Eo. simpl.
    by rewrite Ev.
Qed.

Lemma download_image_bad_status cfg w url response :
  session_get w url = Ok response → Response.status response ≠ 200 →
  download_image cfg w url = None.
Proof. intros E Hs. unfold download_image. rewrite E. simpl. by rewrite decide_True. Qed.

Lemma compute_hashes_Ok cfg w img hashes :
  compute_hashes cfg w img = Ok hashes
  ↔ ∃ normalized p d a wv,
      normalize_image cfg w img = Ok normalized
      ∧ phash w normalized = Ok p ∧ dhash w normalized = Ok d
      ∧ average_hash w normalized = Ok a ∧ whash w normalized = Ok wv
      ∧ hashes = [ ("phash", ImageHash.to_str p); ("dhash", ImageHash.to_str d);
                   ("ahash", ImageHash.to_str a); ("whash", ImageHash.to_str wv) ].
Proof.
  unfold compute_hashes. split.
  - intros (normalized & En & (p & Ep & (d & Ed & (a & Ea & (wv & Ew & E)%bind_Ok
      )%bind_Ok)%bind_Ok)%bind_Ok)%bind_Ok.
    exists normalized, p, d, a, wv. split_and!; try done. by injection E.
  - intros (normalized & p & d & a & wv & -> & Ep & Ed & Ea & Ew & ->). simpl.
    rewrite Ep. simpl. rewrite Ed. simpl. rewrite Ea. simpl. by rewrite Ew.
Qed.

Lemma process_logo_Some cfg w url record :
  process_logo cfg w url = Some record
  ↔ ∃ img hashes,
      download_image cfg w url = Some img
      ∧ compute_hashes cfg w img = Ok hashes
      ∧ record = {| LogoData.url := url; LogoData.hashes := Some hashes;
                    LogoData.size := Image.size img;
                    LogoData.format := Image.format img |}.
Proof.
  unfold process_logo. split.
  - destruct (download_image cfg w url) as [img|]; [|done].
    destruct (compute_hashes cfg w img) as [hashes|e] eqn:Eh; [simpl|done].
    intros [= <-]. by exists img, hashes.
  - intros (img & hashes & -> & -> & ->). done.
Qed.

(** C6: a record returned by [process_logo] holds the four codes computed
    on the normalized image (64 x 64 by default), the size of the image as
    it was downloaded, and its format; the download gives nothing on a
    status other than 200, and an image with a side under [MIN_IMAGE_SIZE]
    (16 by default) is rejected. *)
Theorem process_logo_record (cfg : Config) (w : World) (url : string) :
  (∀ record, process_logo cfg w url = Some record →
     ∃ response image_data img normalized p d a wv,
       session_get w url = Ok response
       ∧ Response.status response = 200
       ∧ Response.read response = Ok image_data
       ∧ Image_open w image_data = Ok img
       ∧ MIN_IMAGE_SIZE cfg ≤ (Image.size img).1
       ∧ MIN_IMAGE_SIZE cfg ≤ (Image.size img).2
       ∧ normalize_image cfg w img = Ok normalized
       ∧ Image.size normalized = (NORMALIZE_SIZE cfg, NORMALIZE_SIZE cfg)
       ∧ phash w normalized = Ok p
       ∧ dhash w normalized = Ok d
       ∧ average_hash w normalized = Ok a
       ∧ whash w normalized = Ok wv
       ∧ record = {| LogoData.url := url;
                     LogoData.hashes :=
                       Some [ ("phash", ImageHash.to_str p);
                              ("dhash", ImageHash.to_str d);
                              ("ahash", ImageHash.to_str a);
                              ("whash", ImageHash.to_str wv) ];
                     LogoData.size := Image.size img;
                     LogoData.format := Image.format img |})
  ∧ (∀ response,
       session_get w url = Ok response → Response.status response ≠ 200 →
       download_image cfg w url = None ∧ process_logo cfg w url = None)
  ∧ (∀ img,
       (Image.size img).1 < MIN_IMAGE_SIZE cfg
       ∨ (Image.size img).2 < MIN_IMAGE_SIZE cfg →
       _validate_image cfg img = false)
  ∧ (∀ response image_data img,
       session_get w url = Ok response →
       Response.read response = Ok image_data →
       Image_open w image_data = Ok img →
       (Image.size img).1 < MIN_IMAGE_SIZE cfg
       ∨ (Image.size img).2 < MIN_IMAGE_SIZE cfg →
       download_image cfg w url = None ∧ process_logo cfg w url = None)
  ∧ MIN_IMAGE_SIZE default_config = 16
  ∧ NORMALIZE_SIZE default_config = 64.
Proof.
  split_and!; [| | | |done|done].
  - intros record (img & hashes & Hd & Hh & ->)%process_logo_Some.
    apply download_image_Some in Hd
      as (response & image_data & Eg & Es & Er & Eo & [Hw Hh']%validate_image_true).
    apply compute_hashes_Ok in Hh
      as (normalized & p & d & a & wv & En & Ep & Ed & Ea & Ew & ->).
    exists response, image_data, img, normalized, p, d, a, wv.
    split_and!; try done. by apply normalize_image_Ok in En as [? _].
  - intros response Eg Hs.
    assert (Hd : download_image cfg w url = None)
      by by eapply download_image_bad_status.
    split; [done|]. unfold process_logo. by rewrite Hd.
  - intros img. apply validate_image_false.
  - intros response image_data img Eg Er Eo Hsmall%validate_image_false.
    assert (Hd : download_image cfg w url = None).
    { unfold download_image. rewrite Eg. simpl. case_decide; [done|].
      rewrite Er. simpl. rewrite Eo. simpl. by rewrite Hsmall. }
    split; [done|]. unfold process_logo. by rewrite Hd.
Qed.

Lemma process_logo_record_witness :
  process_logo default_config example_world "https://a.com/logo.png"
  = Some (example_record "https://a.com/logo.png")
  ∧ (∃ img normalized,
       Image_open example_world png_bytes = Ok img
       ∧ normalize_image default_config example_world img = Ok normalized
       ∧ Image.size normalized = (64, 64)
       ∧ LogoData.size (example_record "https://a.com/logo.png") = Image.size img)
  ∧ session_get example_world "https://b.com/favicon.ico" = Ok example_not_found
  ∧ Response.status example_not_found ≠ 200
  ∧ process_logo default_config example_world "https://b.com/favicon.ico" = None.
Proof.
  assert (H1 : process_logo default_config example_world "https://a.com/logo.png"
               = Some (example_record "https://a.com/logo.png")) by reflexivity.
  assert (H2 : session_get example_world "https://b.com/favicon.ico"
               = Ok example_not_found) by reflexivity.
  assert (H3 : Response.status example_not_found ≠ 200) by discriminate.
  split_and!; [done| |done|done|].
  - destruct (proj1 (process_logo_record default_config example_world
                       "https://a.com/logo.png") _ H1)
      as (response & image_data & img & normalized & p & d & a & wv
          & Eg & _ & Er & Eo & _ & _ & En & Hs & _ & _ & _ & _ & Erec).
    injection Eg as <-. injection Er as <-.
    exists img, normalized. split_and!; [done..|].
    by rewrite Erec.
  - exact (proj2 (proj1 (proj2 (process_logo_record default_config example_world
                                  "https://b.com/favicon.ico")) _ H2 H3)).
Defined.

(** ** Slices, loops and tabulated dictionaries *)

Lemma slices_fuel_concat {A} (fuel n : nat) (l : list A) :
  (0 < n)%nat → (length l ≤ fuel)%nat → concat (Py.slices_fuel fuel n l) = l.
Proof.
  intros Hn. revert l. induction fuel as [|fuel IH]; intros l Hl; simpl.
  - destruct l; [done|simpl in Hl; lia].
  - destruct l as [|x l]; [done|].
    change (concat (?a :: ?b)) with (a ++ concat b).
    rewrite IH; [apply take_drop|]. rewrite length_drop. simpl in *. lia.
Qed.

Lemma slices_Ok {A} (n : Z) (l : list A) :
  0 < n → ∃ parts, Py.slices n l = Ok parts ∧ concat parts = l.
Proof.
  intros Hn. unfold Py.slices. rewrite !decide_False by lia.
  eexists. split; [done|]. apply slices_fuel_concat; lia.
Qed.

Lemma for_each_Ok {A S} (body : S → A → result S) (step : S → A → S) l s :
  (∀ s x, x ∈ l → body s x = Ok (step s x)) →
  for_each body l s = Ok (fold_left step l s).
Proof.
  revert s. induction l as [|x l IH]; intros s Hb; simpl; [done|].
  rewrite Hb by left. simpl. apply IH. intros s' y Hy. apply Hb. by right.
Qed.

Lemma Semaphore_Ok value : 0 < value → Semaphore value = Ok value.
Proof. intros Hv. unfold Semaphore. by rewrite decide_False by lia. Qed.

Lemma run_under_Ok {A} sem (tasks : list A) : 0 < sem → run_under sem tasks = Ok tasks.
Proof.
  intros Hs. unfold run_under. destruct tasks; [done|].
  by rewrite decide_False by lia.
Qed.

Section Tabulate.
Context {V : Type} (f : string → V).

Lemma tabulates_nil : tabulates f [] [].
Proof.
  split_and!; [apply NoDup_nil_2|done|]. by intros k ?%elem_of_nil.
Qed.

Lemma tabulates_proper l l' m :
  (∀ k, k ∈ l ↔ k ∈ l') → tabulates f l m → tabulates f l' m.
Proof.
  intros Hl (Hnd & Hk & Hg). split_and!; [done|..].
  - intros k. by rewrite Hk.
  - intros k Hin. apply Hg. by apply Hl.
Qed.

Lemma tabulates_set l m d :
  tabulates f l m → tabulates f (l ++ [d]) (Py.set d (f d) m).
Proof.
  intros (Hnd & Hk & Hg). split_and!.
  - by apply keys_set_NoDup.
  - intros k. rewrite keys_set, Hk, elem_of_app, list_elem_of_singleton. tauto.
  - intros k Hin. rewrite get_set. case_decide as E; [by subst|].
    apply Hg. apply elem_of_app in Hin as [?| ->%list_elem_of_singleton]; done.
Qed.

Lemma tabulates_fold l m l' :
  tabulates f l m →
  tabulates f (l ++ l') (fold_left (λ out d, Py.set d (f d) out) l' m).
Proof.
  revert l m. induction l' as [|d l' IH]; intros l m Hm; simpl.
  - by rewrite app_nil_r.
  - rewrite cons_middle, app_assoc. by apply IH, tabulates_set.
Qed.

Lemma update_tabulated m1 m2 l2 :
  tabulates f l2 m2 →
  Py.update m1 m2 = fold_left (λ out d, Py.set d (f d) out) (Py.keys m2) m1.
Proof.
  intros (Hnd & Hk & Hg). unfold Py.update.
  assert (Hv : ∀ k v, (k, v) ∈ m2 → v = f k).
  { intros k v Hin. assert (E := elem_get_Some k v m2 Hnd Hin).
    rewrite Hg in E; [congruence|]. apply Hk. apply list_elem_of_fmap.
    by exists (k, v). }
  clear Hnd Hk Hg. revert m1. induction m2 as [|[k v] m2 IH]; intros m1; [done|].
  simpl. rewrite (Hv k v) by left. apply IH. intros k' v' Hin. apply Hv. by right.
Qed.

Lemma tabulates_update l1 m1 l2 m2 :
  tabulates f l1 m1 → tabulates f l2 m2 →
  tabulates f (l1 ++ l2) (Py.update m1 m2).
Proof.
  intros H1 H2. rewrite (update_tabulated m1 m2 l2 H2).
  apply (tabulates_proper (l1 ++ Py.keys m2)).
  - intros k. rewrite !elem_of_app. destruct H2 as (_ & Hk & _). by rewrite Hk.
  - by apply tabulates_fold.
Qed.
End Tabulate.

(** ** Logo extraction *)

Lemma favicon_nonempty domain : "https://" +:+ domain +:+ "/favicon.ico" ≠ "".
Proof. done. Qed.

Lemma str_truthy_nonempty s : Py.str_truthy s = true ↔ s ≠ "".
Proof.
  unfold Py.str_truthy. rewrite negb_true_iff. apply bool_decide_eq_false.
Qed.

Lemma opt_str_truthy_Some o :
  Py.opt_str_truthy o = true ↔ ∃ u, o = Some u ∧ u ≠ "".
Proof.
  destruct o as [u|]; simpl; [|naive_solver].
  rewrite str_truthy_nonempty. naive_solver.
Qed.

Lemma extract_logo_url_with_nonempty from_html common domain :
  ∃ u, extract_logo_url_with from_html common domain = Some u ∧ u ≠ "".
Proof.
  unfold extract_logo_url_with.
  destruct (from_html _) as [found|e]; simpl;
    [|eexists; split; [done|apply favicon_nonempty]].
  destruct (Py.opt_str_truthy found) eqn:Ef; simpl.
  { by apply opt_str_truthy_Some in Ef as (u & -> & Hu); exists u. }
  destruct (common _) as [found'|e]; simpl;
    [|eexists; split; [done|apply favicon_nonempty]].
  destruct (Py.opt_str_truthy found') eqn:Ef'; simpl.
  { by apply opt_str_truthy_Some in Ef' as (u & -> & Hu); exists u. }
  eexists; split; [done|apply favicon_nonempty].
Qed.

Lemma extract_logo_url_with_fallback from_html common domain :
  chain_fails from_html common ("https://" +:+ domain) →
  extract_logo_url_with from_html common domain
  = Some ("https://" +:+ domain +:+ "/favicon.ico").
Proof.
  unfold extract_logo_url_with.
  intros [[e ->]|(found & -> & Ef & [[e ->]|(found' & -> & Ef')])]; simpl.
  - done.
  - by rewrite Ef.
  - rewrite Ef. simpl. by rewrite Ef'.
Qed.

Lemma extract_logo_url_nonempty w domain :
  ∃ u, extract_logo_url w domain = Some u ∧ u ≠ "".
Proof. apply extract_logo_url_with_nonempty. Qed.

Lemma collect_urls_fold (f : string → option string) domains acc :
  fold_left collect_url (zip domains (map (λ d, Ok (f d)) domains)) acc
  = fold_left (λ out d, Py.set d (f d) out) domains acc.
Proof.
  revert acc. induction domains as [|d domains IH]; intros acc; [done|].
  simpl. apply IH.
Qed.

Lemma extract_batch_Ok cfg w domains :
  0 < MAX_CONCURRENT cfg →
  ∃ batch_urls, extract_batch cfg w domains = Ok batch_urls
                ∧ tabulates (extract_logo_url w) domains batch_urls.
Proof.
  intros Hc. unfold extract_batch. rewrite Semaphore_Ok by done. simpl.
  rewrite run_under_Ok by done. simpl. eexists. split; [done|].
  rewrite collect_urls_fold. apply (tabulates_fold _ [] []), tabulates_nil.
Qed.

Lemma extract_batches_Ok cfg w batches done logo_urls :
  0 < MAX_CONCURRENT cfg →
  tabulates (extract_logo_url w) done logo_urls →
  ∃ logo_urls',
    for_each
      (λ logo_urls batch,
         batch_results ← extract_batch cfg w batch;
         Ok (Py.update logo_urls batch_results))
      batches logo_urls = Ok logo_urls'
    ∧ tabulates (extract_logo_url w) (done ++ concat batches) logo_urls'.
Proof.
  intros Hc. revert done logo_urls.
  induction batches as [|batch batches IH]; intros done logo_urls Ht; simpl.
  - exists logo_urls. by rewrite app_nil_r.
  - destruct (extract_batch_Ok cfg w batch Hc) as (batch_urls & -> & Hb). simpl.
    rewrite app_assoc. apply IH. by apply tabulates_update.
Qed.

Lemma extract_all_logos_Ok cfg w domains :
  0 < BATCH_SIZE cfg → 0 < MAX_CONCURRENT cfg →
  ∃ logo_urls, extract_all_logos cfg w domains = Ok logo_urls
               ∧ tabulates (extract_logo_url w) domains logo_urls.
Proof.
  intros Hb Hc. unfold extract_all_logos. rewrite decide_False by lia.
  destruct (slices_Ok (BATCH_SIZE cfg) domains Hb) as (batches & -> & Hcat). simpl.
  destruct (extract_batches_Ok cfg w batches [] [] Hc (tabulates_nil _))
    as (logo_urls & E & Ht).
  exists logo_urls. split; [done|]. by rewrite <- Hcat.
Qed.

Lemma tabulated_urls_nonempty w domains logo_urls :
  tabulates (extract_logo_url w) domains logo_urls →
  NoDup (Py.keys logo_urls)
  ∧ (∀ d, d ∈ Py.keys logo_urls ↔ d ∈ domains)
  ∧ (∀ d, d ∈ domains → ∃ u, Py.get d logo_urls = Some (Some u) ∧ u ≠ "").
Proof.
  intros (Hnd & Hk & Hg). split_and!; [done..|].
  intros d Hd. destruct (extract_logo_url_nonempty w d) as (u & E & Hu).
  exists u. split; [|done]. by rewrite Hg, E.
Qed.

(** C1: whatever the domains, the map of [extract_all_logos] (and of every
    [extract_batch]) has one entry for each input domain and no other, and
    every value is a URL that is not empty; when the strategy chain fails,
    the URL is ['https://{domain}/favicon.ico']. *)
Theorem extraction_covers_every_domain (cfg : Config) (w : World)
    (domains : list string) :
  0 < BATCH_SIZE cfg →
  0 < MAX_CONCURRENT cfg →
  (∃ logo_urls,
     extract_all_logos cfg w domains = Ok logo_urls
     ∧ NoDup (Py.keys logo_urls)
     ∧ (∀ d, d ∈ Py.keys logo_urls ↔ d ∈ domains)
     ∧ (∀ d, d ∈ domains → ∃ u, Py.get d logo_urls = Some (Some u) ∧ u ≠ ""))
  ∧ (∃ batch_urls,
       extract_batch cfg w domains = Ok batch_urls
       ∧ NoDup (Py.keys batch_urls)
       ∧ (∀ d, d ∈ Py.keys batch_urls ↔ d ∈ domains)
       ∧ (∀ d, d ∈ domains → ∃ u, Py.get d batch_urls = Some (Some u) ∧ u ≠ ""))
  ∧ (∀ from_html common d,
       chain_fails from_html common ("https://" +:+ d) →
       extract_logo_url_with from_html common d
       = Some ("https://" +:+ d +:+ "/favicon.ico"))
  ∧ (∀ from_html common d,
       ∃ u, extract_logo_url_with from_html common d = Some u ∧ u ≠ "").
Proof.
  intros Hb Hc. split_and!.
  - destruct (extract_all_logos_Ok cfg w domains Hb Hc) as (logo_urls & E & Ht).
    exists logo_urls. split; [done|]. by apply tabulated_urls_nonempty in Ht.
  - destruct (extract_batch_Ok cfg w domains Hc) as (batch_urls & E & Ht).
    exists batch_urls. split; [done|]. by apply tabulated_urls_nonempty in Ht.
  - apply extract_logo_url_with_fallback.
  - apply extract_logo_url_with_nonempty.
Qed.

Lemma extraction_covers_every_domain_witness :
  0 < BATCH_SIZE default_config
  ∧ 0 < MAX_CONCURRENT default_config
  ∧ extract_all_logos default_config example_world example_domains
    = Ok [ ("a.com", Some "https://a.com/logo.png");
           ("b.com", Some "https://b.com/favicon.ico");
           ("c.com", Some "https://c.com/favicon.ico") ]
  ∧ ∃ logo_urls,
      extract_all_logos default_config example_world example_domains = Ok logo_urls
      ∧ ∀ d, d ∈ example_domains → ∃ u, Py.get d logo_urls = Some (Some u) ∧ u ≠ "".
Proof.
  assert (H1 : 0 < BATCH_SIZE default_config) by reflexivity.
  assert (H2 : 0 < MAX_CONCURRENT default_config) by reflexivity.
  split_and!; [done|done|reflexivity|].
  destruct (proj1 (extraction_covers_every_domain default_config example_world
                     example_domains H1 H2)) as (logo_urls & E & _ & _ & Hv).
  by exists logo_urls.
Defined.

(** ** The hashing phase *)

Lemma elem_of_work_items logo_urls d u :
  (d, u) ∈ work_items logo_urls ↔ (d, Some u) ∈ logo_urls ∧ u ≠ "".
Proof.
  unfold work_items. rewrite list_elem_of_omap. split.
  - intros ([d' o] & Hin & E). simpl in E. destruct o as [u'|]; [|done].
    destruct (Py.str_truthy u') eqn:Et; [|done]. simplify_eq.
    split; [done|]. by apply str_truthy_nonempty.
  - intros [Hin Hu]. exists (d, Some u). split; [done|]. simpl.
    by rewrite (proj2 (str_truthy_nonempty u) Hu).
Qed.

Lemma work_items_sublist logo_urls :
  (work_items logo_urls).*1 `sublist_of` Py.keys logo_urls.
Proof.
  unfold work_items, Py.keys.
  induction logo_urls as [|[d o] logo_urls IH]; simpl; [done|].
  destruct o as [u|]; simpl; [|by apply sublist_cons].
  destruct (Py.str_truthy u); simpl; [by apply sublist_skip|by apply sublist_cons].
Qed.

Lemma worker_keys cfg w items : (map (worker cfg w) items).*1 = items.*1.
Proof.
  induction items as [|[d u] items IH]; [done|].
  change ((d :: (map (worker cfg w) items).*1) = d :: items.*1). by f_equal.
Qed.

(** What the loop over the completed tasks leaves in the map, when no
    domain has two tasks. *)
Lemma collect_data_get (done : list (string * option LogoData.t)) logo_data d r :
  NoDup done.*1 →
  Py.get d (fold_left collect_data done logo_data) = Some r
  ↔ (d, Some r) ∈ done
    ∨ (Py.get d logo_data = Some r ∧ ∀ r', (d, Some r') ∉ done).
Proof.
  revert logo_data. induction done as [|[d0 o0] done IH]; intros logo_data Hnd; simpl.
  - split; [intros ?; right; split; [done|]|].
    + by intros r' ?%elem_of_nil.
    + by intros [?%elem_of_nil|[? _]].
  - apply NoDup_cons in Hnd as [Hd0 Hnd]. rewrite IH by done.
    assert (Hfresh : ∀ o, (d0, o) ∉ done).
    { intros o Hin. apply Hd0. apply list_elem_of_fmap. by exists (d0, o). }
    unfold collect_data; simpl. destruct o0 as [r0|].
    + rewrite get_set. case_decide as E; [subst d|].
      * split.
        -- intros [Hin|[[= ->] _]]; [by apply Hfresh in Hin|]. left. left.
        -- intros [[[= ->]|Hin]%elem_of_cons|[_ Hno]].
           ++ right. split; [done|]. intros r' Hin. by apply Hfresh in Hin.
           ++ by apply Hfresh in Hin.
           ++ exfalso. apply (Hno r0). left.
      * split.
        -- intros [Hin|[Hg Hno]]; [left; by right|]. right. split; [done|].
           intros r' [[= ? ?]|Hin]%elem_of_cons; [done|]. by apply (Hno r').
        -- intros [[[= ? ?]|Hin]%elem_of_cons|[Hg Hno]]; [done|by left|].
           right. split; [done|]. intros r' Hin. apply (Hno r'). by right.
    + split.
      * intros [Hin|[Hg Hno]]; [left; by right|]. right. split; [done|].
        intros r' [[= ? ?]|Hin]%elem_of_cons. by apply (Hno r').
      * intros [[[= ? ?]|Hin]%elem_of_cons|[Hg Hno]]; [by left|].
        right. split; [done|]. intros r' Hin. apply (Hno r'). by right.
Qed.

Lemma completed_Permutation cfg w as_completed chunks :
  fair as_completed →
  completed cfg w as_completed chunks ≡ₚ map (worker cfg w) (concat chunks).
Proof.
  intros Hf. unfold completed. induction chunks as [|chunk chunks IH]; simpl; [done|].
  rewrite map_app, IH. apply Permutation_app_tail, Hf.
Qed.

Lemma hash_chunks_Ok cfg w as_completed sem chunks logo_data :
  0 < sem →
  for_each
    (λ logo_data chunk,
       tasks ← run_under sem (map (worker cfg w) chunk);
       Ok (fold_left collect_data (as_completed tasks) logo_data))
    chunks logo_data
  = Ok (fold_left collect_data (completed cfg w as_completed chunks) logo_data).
Proof.
  intros Hs. unfold completed. revert logo_data.
  induction chunks as [|chunk chunks IH]; intros logo_data; simpl; [done|].
  rewrite run_under_Ok by done. simpl. by rewrite IH, fold_left_app.
Qed.

Lemma process_all_images_Ok cfg w as_completed logo_urls :
  0 < HASH_CHUNK_SIZE cfg → 0 < MAX_CONCURRENT cfg → fair as_completed →
  NoDup (Py.keys logo_urls) →
  ∃ logo_data,
    process_all_images cfg w as_completed logo_urls = Ok logo_data
    ∧ ∀ d r, Py.get d logo_data = Some r
             ↔ ∃ u, (d, Some u) ∈ logo_urls ∧ u ≠ "" ∧ process_logo cfg w u = Some r.
Proof.
  intros Hchunk Hconc Hfair Hnd. unfold process_all_images.
  rewrite Semaphore_Ok by done. simpl.
  destruct (slices_Ok (HASH_CHUNK_SIZE cfg) (work_items logo_urls) Hchunk)
    as (chunks & -> & Hcat). simpl.
  rewrite hash_chunks_Ok by done. eexists. split; [done|].
  pose proof (completed_Permutation cfg w as_completed chunks Hfair) as Hperm.
  rewrite Hcat in Hperm.
  intros d r. rewrite collect_data_get.
  - rewrite Hperm, list_elem_of_fmap. split.
    + intros [([d' u] & [= -> Hr] & Hin%elem_of_work_items)|[? _]]; [|done].
      exists u. by destruct Hin.
    + intros (u & Hin & Hu & Hr). left. exists (d, u). split.
      * unfold worker. simpl. by rewrite Hr.
      * by apply elem_of_work_items.
  - rewrite Hperm, worker_keys. eapply sublist_NoDup; [exact Hnd|].
    apply work_items_sublist.
Qed.

Lemma run_under_inv {A} sem (tasks tasks' : list A) :
  run_under sem tasks = Ok tasks' → tasks' = tasks.
Proof.
  unfold run_under. destruct tasks; [congruence|].
  case_decide; [done|congruence].
Qed.

(** Whatever the semaphore admits, chunks that are all hashed leave the
    results of their tasks in the map. *)
Lemma hash_chunks_inv cfg w as_completed sem chunks logo_data logo_data' :
  for_each
    (λ logo_data chunk,
       tasks ← run_under sem (map (worker cfg w) chunk);
       Ok (fold_left collect_data (as_completed tasks) logo_data))
    chunks logo_data
  = Ok logo_data' →
  logo_data' = fold_left collect_data (completed cfg w as_completed chunks) logo_data.
Proof.
  unfold completed. revert logo_data.
  induction chunks as [|chunk chunks IH]; intros logo_data; simpl; [congruence|].
  destruct (run_under sem (map (worker cfg w) chunk)) as [tasks|e] eqn:Er;
    [|done].
  apply run_under_inv in Er as ->. simpl. intros E%IH.
  by rewrite fold_left_app.
Qed.

(** The map of a run that returns one, whatever its concurrency limit. *)
Lemma process_all_images_inv cfg w as_completed logo_urls logo_data :
  0 ≤ HASH_CHUNK_SIZE cfg → fair as_completed → NoDup (Py.keys logo_urls) →
  process_all_images cfg w as_completed logo_urls = Ok logo_data →
  ∀ d r, Py.get d logo_data = Some r
         ↔ ∃ u, (d, Some u) ∈ logo_urls ∧ u ≠ "" ∧ process_logo cfg w u = Some r.
Proof.
  intros Hchunk Hfair Hnd. unfold process_all_images.
  destruct (Semaphore (MAX_CONCURRENT cfg)) as [sem|e]; [|done]. simpl.
  destruct (decide (HASH_CHUNK_SIZE cfg = 0)) as [E0|Hpos].
  { unfold Py.slices. by rewrite decide_True by done. }
  destruct (slices_Ok (HASH_CHUNK_SIZE cfg) (work_items logo_urls))
    as (chunks & -> & Hcat); [lia|]. simpl.
  intros ->%hash_chunks_inv.
  pose proof (completed_Permutation cfg w as_completed chunks Hfair) as Hperm.
  rewrite Hcat in Hperm.
  intros d r. rewrite collect_data_get.
  - rewrite Hperm, list_elem_of_fmap. split.
    + intros [([d' u] & [= -> Hr] & Hin%elem_of_work_items)|[? _]]; [|done].
      exists u. by destruct Hin.
    + intros (u & Hin & Hu & Hr). left. exists (d, u). split.
      * unfold worker. simpl. by rewrite Hr.
      * by apply elem_of_work_items.
  - rewrite Hperm, worker_keys. eapply sublist_NoDup; [exact Hnd|].
    apply work_items_sublist.
Qed.

Lemma elem_get_iff {V} (d : Py.dict V) k v :
  NoDup (Py.keys d) → (k, v) ∈ d ↔ Py.get k d = Some v.
Proof. intros Hnd. split; [by apply elem_get_Some|apply get_Some_elem]. Qed.

Lemma fair_reverse : fair reverse.
Proof. intros tasks. apply reverse_Permutation. Qed.

Lemma fair_id : fair id.
Proof. by intros tasks. Qed.

(** Two maps with the same successful lookups are the same map, up to the
    order of their keys. *)
Lemma get_ext {V} (m1 m2 : Py.dict V) (P : string → V → Prop) :
  (∀ d r, Py.get d m1 = Some r ↔ P d r) →
  (∀ d r, Py.get d m2 = Some r ↔ P d r) →
  (∀ d, Py.get d m1 = Py.get d m2) ∧ (∀ d, d ∈ Py.keys m1 ↔ d ∈ Py.keys m2).
Proof.
  intros H1 H2.
  assert (E : ∀ d, Py.get d m1 = Py.get d m2).
  { intros d. destruct (Py.get d m1) as [r|] eqn:E1.
    - symmetry. by apply H2, H1.
    - destruct (Py.get d m2) as [r|] eqn:E2; [|done].
      apply H2, H1 in E2. congruence. }
  split; [done|]. intros d. by rewrite <- !get_is_Some, E.
Qed.

(** C5: [process_all_images] makes a work item of a domain exactly when
    its URL is not empty, and its result has an entry for a domain if and
    only if [process_logo] returned a record for the URL of that domain,
    the entry being that record; a domain whose URL is empty or whose
    processing failed has no entry. *)
Theorem fingerprint_map_entries (cfg : Config) (w : World)
    (as_completed : Scheduler) (logo_urls : Py.dict (option string)) :
  0 < HASH_CHUNK_SIZE cfg →
  0 < MAX_CONCURRENT cfg →
  fair as_completed →
  NoDup (Py.keys logo_urls) →
  (∀ d u, (d, u) ∈ work_items logo_urls
          ↔ Py.get d logo_urls = Some (Some u) ∧ u ≠ "")
  ∧ (∀ d, Py.get d logo_urls = Some (Some "") ∨ Py.get d logo_urls = Some None →
          d ∉ (work_items logo_urls).*1)
  ∧ ∃ logo_data,
      process_all_images cfg w as_completed logo_urls = Ok logo_data
      ∧ (∀ d r, Py.get d logo_data = Some r
                ↔ ∃ u, Py.get d logo_urls = Some (Some u) ∧ u ≠ ""
                       ∧ process_logo cfg w u = Some r)
      ∧ (∀ d, d ∈ Py.keys logo_data
              ↔ ∃ u, Py.get d logo_urls = Some (Some u) ∧ u ≠ ""
                     ∧ is_Some (process_logo cfg w u)).
Proof.
  intros Hchunk Hconc Hfair Hnd.
  assert (Hitems : ∀ d u, (d, u) ∈ work_items logo_urls
                          ↔ Py.get d logo_urls = Some (Some u) ∧ u ≠ "").
  { intros d u. by rewrite elem_of_work_items, elem_get_iff. }
  split_and!; [done| |].
  - intros d Hd [[d' u] [[= <-] Hin]]%list_elem_of_fmap.
    apply Hitems in Hin as [Hg Hu]. destruct Hd as [Hd|Hd]; congruence.
  - destruct (process_all_images_Ok cfg w as_completed logo_urls
                Hchunk Hconc Hfair Hnd) as (logo_data & E & Hget).
    assert (Hget' : ∀ d r, Py.get d logo_data = Some r
                ↔ ∃ u, Py.get d logo_urls = Some (Some u) ∧ u ≠ ""
                       ∧ process_logo cfg w u = Some r).
    { intros d r. rewrite Hget. by setoid_rewrite elem_get_iff. }
    exists logo_data. split_and!; [done..|].
    intros d. rewrite <- get_is_Some. split.
    + intros [r (u & ? & ? & Hr)%Hget']. exists u. by rewrite Hr.
    + intros (u & ? & ? & [r Hr]). exists r. apply Hget'. by exists u.
Qed.

Lemma fingerprint_map_entries_witness :
  0 < HASH_CHUNK_SIZE default_config
  ∧ 0 < MAX_CONCURRENT default_config
  ∧ fair reverse
  ∧ NoDup (Py.keys example_urls)
  ∧ work_items example_urls
    = [ ("a.com", "https://a.com/logo.png");
        ("b.com", "https://b.com/favicon.ico");
        ("c.com", "https://c.com/favicon.ico") ]
  ∧ process_all_images default_config example_world reverse example_urls
    = Ok [ ("c.com", example_record "https://c.com/favicon.ico");
           ("a.com", example_record "https://a.com/logo.png") ]
  ∧ ∃ logo_data,
      process_all_images default_config example_world reverse example_urls
      = Ok logo_data
      ∧ ∀ d r, Py.get d logo_data = Some r
               ↔ ∃ u, Py.get d example_urls = Some (Some u) ∧ u ≠ ""
                      ∧ process_logo default_config example_world u = Some r.
Proof.
  assert (H1 : 0 < HASH_CHUNK_SIZE default_config) by reflexivity.
  assert (H2 : 0 < MAX_CONCURRENT default_config) by reflexivity.
  assert (H3 : NoDup (Py.keys example_urls)) by by_evaluation.
  split_and!; [done|done|exact fair_reverse|done|reflexivity|reflexivity|].
  destruct (fingerprint_map_entries default_config example_world reverse
              example_urls H1 H2 fair_reverse H3)
    as (_ & _ & logo_data & E & Hget & _).
  by exists logo_data.
Defined.

(** The maps of two runs in which [process_logo] has the same outcome for
    every URL of the map. *)
Lemma same_outcomes_same_map cfg1 cfg2 w1 w2 as_completed1 as_completed2
    logo_urls logo_data1 logo_data2 :
  0 ≤ HASH_CHUNK_SIZE cfg1 → 0 ≤ HASH_CHUNK_SIZE cfg2 →
  fair as_completed1 → fair as_completed2 →
  NoDup (Py.keys logo_urls) →
  (∀ d u, Py.get d logo_urls = Some (Some u) →
          process_logo cfg1 w1 u = process_logo cfg2 w2 u) →
  process_all_images cfg1 w1 as_completed1 logo_urls = Ok logo_data1 →
  process_all_images cfg2 w2 as_completed2 logo_urls = Ok logo_data2 →
  (∀ d, Py.get d logo_data1 = Py.get d logo_data2)
  ∧ (∀ d, d ∈ Py.keys logo_data1 ↔ d ∈ Py.keys logo_data2).
Proof.
  intros Hc1 Hc2 Hf1 Hf2 Hnd Hsame E1 E2.
  pose proof (process_all_images_inv _ _ _ _ _ Hc1 Hf1 Hnd E1) as Hget1.
  pose proof (process_all_images_inv _ _ _ _ _ Hc2 Hf2 Hnd E2) as Hget2.
  apply (get_ext logo_data1 logo_data2
           (λ d r, ∃ u, (d, Some u) ∈ logo_urls ∧ u ≠ ""
                        ∧ process_logo cfg2 w2 u = Some r)); [|done].
  intros d r. rewrite Hget1. split; intros (u & Hin & Hu & Hr); exists u.
  - by rewrite <- (Hsame d u) by by apply elem_get_iff.
  - by rewrite (Hsame d u) by by apply elem_get_iff.
Qed.

(** C7, as stated, fails: a negative [HASH_CHUNK_SIZE] makes
    [range(0, len(items), HASH_CHUNK_SIZE)] empty, so that the run hashes
    nothing and returns the empty map, where the run with the default 200
    returns the records of [a.com] and [c.com]. *)
Lemma negative_chunk_size_empties_the_map :
  process_all_images (with_scheduling default_config 200 20) example_world
    id example_urls
  = Ok [ ("a.com", example_record "https://a.com/logo.png");
         ("c.com", example_record "https://c.com/favicon.ico") ]
  ∧ process_all_images (with_scheduling default_config (-1) 20) example_world
      id example_urls
    = Ok []
  ∧ ¬ scheduling_only default_config example_world example_urls.
Proof.
  split_and!; [reflexivity|reflexivity|].
  intros H.
  destruct (H 200 20 (-1) 20 id id
              [ ("a.com", example_record "https://a.com/logo.png");
                ("c.com", example_record "https://c.com/favicon.ico") ] [])
    as [Hk _]; [exact fair_id|exact fair_id|reflexivity|reflexivity|].
  assert (Hin : "a.com" ∈ Py.keys (V:=LogoData.t) []).
  { apply Hk. by_evaluation. }
  by apply elem_of_nil in Hin.
Qed.

(** C7, amended: two runs of [process_all_images] on the same URL map,
    neither with a negative chunk size, in which [process_logo] has the
    same outcome for every URL of the map, whatever their chunk sizes,
    concurrency limits and completion orders: the maps they return have the
    same keys and, at every key, the same record (hence the same hash
    codes); and a run with a positive chunk size and a positive concurrency
    limit does return a map. *)
Theorem scheduling_independent (cfg1 cfg2 : Config) (w1 w2 : World)
    (as_completed1 as_completed2 : Scheduler)
    (logo_urls : Py.dict (option string)) :
  0 ≤ HASH_CHUNK_SIZE cfg1 → 0 ≤ HASH_CHUNK_SIZE cfg2 →
  fair as_completed1 → fair as_completed2 →
  NoDup (Py.keys logo_urls) →
  (∀ d u, Py.get d logo_urls = Some (Some u) →
          process_logo cfg1 w1 u = process_logo cfg2 w2 u) →
  (∀ logo_data1 logo_data2,
     process_all_images cfg1 w1 as_completed1 logo_urls = Ok logo_data1 →
     process_all_images cfg2 w2 as_completed2 logo_urls = Ok logo_data2 →
     (∀ d, d ∈ Py.keys logo_data1 ↔ d ∈ Py.keys logo_data2)
     ∧ (∀ d, Py.get d logo_data1 = Py.get d logo_data2)
     ∧ (∀ d, LogoData.hashes <$> Py.get d logo_data1
             = LogoData.hashes <$> Py.get d logo_data2))
  ∧ (0 < HASH_CHUNK_SIZE cfg1 → 0 < MAX_CONCURRENT cfg1 →
     ∃ logo_data1,
       process_all_images cfg1 w1 as_completed1 logo_urls = Ok logo_data1)
  ∧ (0 < HASH_CHUNK_SIZE cfg2 → 0 < MAX_CONCURRENT cfg2 →
     ∃ logo_data2,
       process_all_images cfg2 w2 as_completed2 logo_urls = Ok logo_data2).
Proof.
  intros Hc1 Hc2 Hf1 Hf2 Hnd Hsame. split_and!.
  - intros logo_data1 logo_data2 E1 E2.
    destruct (same_outcomes_same_map cfg1 cfg2 w1 w2 as_completed1 as_completed2
                logo_urls logo_data1 logo_data2) as [Hg Hk]; [done..|].
    split_and!; [done..|]. intros d. by rewrite Hg.
  - intros Hp1 Hm1.
    destruct (process_all_images_Ok cfg1 w1 as_completed1 logo_urls
                Hp1 Hm1 Hf1 Hnd) as (logo_data1 & E1 & _).
    by exists logo_data1.
  - intros Hp2 Hm2.
    destruct (process_all_images_Ok cfg2 w2 as_completed2 logo_urls
                Hp2 Hm2 Hf2 Hnd) as (logo_data2 & E2 & _).
    by exists logo_data2.
Qed.

Lemma scheduling_independent_witness :
  0 ≤ HASH_CHUNK_SIZE (with_scheduling default_config 1 1)
  ∧ 0 ≤ HASH_CHUNK_SIZE (with_scheduling default_config 300 100)
  ∧ fair reverse ∧ fair id
  ∧ NoDup (Py.keys example_urls)
  ∧ process_all_images (with_scheduling default_config 1 1) example_world
      reverse example_urls
    = Ok [ ("a.com", example_record "https://a.com/logo.png");
           ("c.com", example_record "https://c.com/favicon.ico") ]
  ∧ process_all_images (with_scheduling default_config 300 100) example_world
      id example_urls
    = Ok [ ("a.com", example_record "https://a.com/logo.png");
           ("c.com", example_record "https://c.com/favicon.ico") ]
  ∧ process_all_images (with_scheduling default_config 300 100) example_world
      reverse example_urls
    = Ok [ ("c.com", example_record "https://c.com/favicon.ico");
           ("a.com", example_record "https://a.com/logo.png") ]
  ∧ ∃ logo_data1 logo_data2,
      process_all_images (with_scheduling default_config 1 1) example_world
        reverse example_urls = Ok logo_data1
      ∧ process_all_images (with_scheduling default_config 300 100)
          example_world reverse example_urls = Ok logo_data2
      ∧ (∀ d, d ∈ Py.keys logo_data1 ↔ d ∈ Py.keys logo_data2)
      ∧ (∀ d, LogoData.hashes <$> Py.get d logo_data1
              = LogoData.hashes <$> Py.get d logo_data2).
Proof.
  assert (H3 : NoDup (Py.keys example_urls)) by by_evaluation.
  split_and!;
    [done|done|exact fair_reverse|exact fair_id|exact H3
    |reflexivity|reflexivity|reflexivity|].
  destruct (scheduling_independent
              (with_scheduling default_config 1 1)
              (with_scheduling default_config 300 100)
              example_world example_world reverse reverse example_urls)
    as (Hsame & Hret1 & Hret2);
    [done|done|exact fair_reverse|exact fair_reverse|exact H3|reflexivity|].
  destruct Hret1 as [logo_data1 E1]; [reflexivity|reflexivity|].
  destruct Hret2 as [logo_data2 E2]; [reflexivity|reflexivity|].
  destruct (Hsame logo_data1 logo_data2 E1 E2) as (Hk & _ & Hh).
  by exists logo_data1, logo_data2.
Defined.

(** ** The distance as a metric on codes of one length *)

Section HammingMetric.
Import ImageHash.

Lemma count_differing_refl (a : list bool) : count_differing a a = 0.
Proof. induction a as [|x a IH]; simpl; [done|]. rewrite IH. by destruct x. Qed.

Lemma count_differing_zero (a b : list bool) :
  length a = length b → count_differing a b = 0 → a = b.
Proof.
  revert b. induction a as [|x a IH]; intros [|y b]; simpl; try done.
  intros [= Hlen] Hd. pose proof (count_differing_nonneg a b).
  destruct x, y; simpl in Hd; try lia; f_equal; apply IH; (done || lia).
Qed.

Lemma count_differing_triangle (a b c : list bool) :
  length a = length b → length b = length c →
  count_differing a c ≤ count_differing a b + count_differing b c.
Proof.
  revert b c. induction a as [|x a IH]; intros [|y b] [|z c]; simpl;
    try discriminate; intros Hab Hbc; try lia.
  assert (Hi := IH b c ltac:(congruence) ltac:(congruence)).
  destruct x, y, z; simpl; lia.
Qed.

End HammingMetric.

Lemma compute_hash_distance_Ok hash1 hash2 h1 h2 :
  ImageHash.hex_to_hash hash1 = Ok h1 → ImageHash.hex_to_hash hash2 = Ok h2 →
  ImageHash.size h1 = ImageHash.size h2 →
  _compute_hash_distance hash1 hash2
  = ImageHash.count_differing (ImageHash.flatten h1) (ImageHash.flatten h2).
Proof.
  intros E1 E2 Hs. unfold _compute_hash_distance. rewrite E1, E2. simpl.
  unfold ImageHash.sub. by rewrite decide_True.
Qed.

Lemma compute_hash_distance_Raise_l hash1 hash2 e :
  ImageHash.hex_to_hash hash1 = Raise e → _compute_hash_distance hash1 hash2 = 999.
Proof. intros E. unfold _compute_hash_distance. by rewrite E. Qed.

Lemma compute_hash_distance_nonneg hash1 hash2 :
  0 ≤ _compute_hash_distance hash1 hash2.
Proof.
  destruct (compute_hash_distance_cases hash1 hash2)
    as [(h1 & h2 & _ & _ & _ & ->)| ->]; [|lia].
  apply count_differing_nonneg.
Qed.

(** X1: the distance of [_compute_hash_distance] is never negative; it is
    the sentinel 999 as soon as one of the two strings is no hexadecimal
    code; a code that parses is at distance 0 from itself; and two codes of
    [n] bits are at most [n] apart. *)
Theorem distance_range (hash1 hash2 : string) :
  0 ≤ _compute_hash_distance hash1 hash2
  ∧ (code_bits hash1 = None ∨ code_bits hash2 = None →
     _compute_hash_distance hash1 hash2 = 999)
  ∧ (code_bits hash1 ≠ None → _compute_hash_distance hash1 hash1 = 0)
  ∧ (code_bits hash1 = None → _compute_hash_distance hash1 hash1 = 999)
  ∧ (∀ n, code_bits hash1 = Some n → code_bits hash2 = Some n →
          _compute_hash_distance hash1 hash2 ≤ Z.of_nat n).
Proof.
  split_and!.
  - apply compute_hash_distance_nonneg.
  - unfold code_bits. intros [H|H].
    + destruct (ImageHash.hex_to_hash hash1) eqn:E; [done|].
      by eapply compute_hash_distance_Raise_l.
    + destruct (ImageHash.hex_to_hash hash2) eqn:E; [done|].
      rewrite compute_hash_distance_comm. by eapply compute_hash_distance_Raise_l.
  - unfold code_bits. destruct (ImageHash.hex_to_hash hash1) as [h|] eqn:E; [|done].
    intros _. rewrite (compute_hash_distance_Ok _ _ h h) by done.
    apply count_differing_refl.
  - unfold code_bits. destruct (ImageHash.hex_to_hash hash1) eqn:E; [done|].
    intros _. by eapply compute_hash_distance_Raise_l.
  - intros n (h1 & E1 & Hn1)%code_bits_Some (h2 & E2 & Hn2)%code_bits_Some.
    rewrite (compute_hash_distance_Ok _ _ h1 h2) by congruence.
    rewrite <- Hn1. apply count_differing_bound.
Qed.

(** X2: on codes of one length the distance is a metric: it is zero only
    between codes with the same bits, it obeys the triangle inequality, and
    the detour through a third code is longer than the direct way by an
    even number of bits. *)
Theorem distance_is_metric (hA hB hC : string) (a b c : ImageHash.t) :
  ImageHash.hex_to_hash hA = Ok a →
  ImageHash.hex_to_hash hB = Ok b →
  ImageHash.hex_to_hash hC = Ok c →
  ImageHash.size a = ImageHash.size b →
  ImageHash.size b = ImageHash.size c →
  (_compute_hash_distance hA hB = 0 ↔ ImageHash.flatten a = ImageHash.flatten b)
  ∧ _compute_hash_distance hA hC
    ≤ _compute_hash_distance hA hB + _compute_hash_distance hB hC
  ∧ ∃ k, 0 ≤ k
         ∧ _compute_hash_distance hA hB + _compute_hash_distance hB hC
           = _compute_hash_distance hA hC + 2 * k.
Proof.
  intros EA EB EC Hab Hbc.
  rewrite (compute_hash_distance_Ok hA hB a b), (compute_hash_distance_Ok hB hC b c),
    (compute_hash_distance_Ok hA hC a c) by congruence.
  unfold ImageHash.size in Hab, Hbc.
  pose proof (count_differing_triangle _ _ _ Hab Hbc) as Ht.
  split_and!; [|done|].
  - split; [by apply count_differing_zero|].
    intros ->. apply count_differing_refl.
  - destruct (count_differing_parity _ _ _ Hab Hbc) as [k Hk].
    exists k. split; [lia|done].
Qed.

Lemma distance_is_metric_witness :
  _compute_hash_distance "0000000000000000" "0000000000000f07"
  ≤ _compute_hash_distance "0000000000000000" "0000000000000007"
    + _compute_hash_distance "0000000000000007" "0000000000000f07".
Proof.
  eapply (distance_is_metric "0000000000000000" "0000000000000007"
            "0000000000000f07"); [reflexivity..].
Defined.

(** ** Printing a hash and reading it back *)

Section HexRoundTrip.
Import ImageHash.

Lemma hex_char_facts d :
  0 ≤ d < 16 →
  hex_digit_value (hex_char d) = Some d
  ∧ is_underscore (hex_char d) = false
  ∧ is_space (hex_char d) = false
  ∧ (ascii_code (hex_char d) =? 43) = false
  ∧ (ascii_code (hex_char d) =? 45) = false
  ∧ (ascii_code (hex_char d) =? 120) = false
  ∧ (ascii_code (hex_char d) =? 88) = false.
Proof.
  intros Hd.
  assert (d = 0 ∨ d = 1 ∨ d = 2 ∨ d = 3 ∨ d = 4 ∨ d = 5 ∨ d = 6 ∨ d = 7
          ∨ d = 8 ∨ d = 9 ∨ d = 10 ∨ d = 11 ∨ d = 12 ∨ d = 13 ∨ d = 14 ∨ d = 15)
    as Hcases by lia.
  repeat (destruct Hcases as [->|Hcases]; [by vm_compute|]).
  subst d. by vm_compute.
Qed.

Lemma hexd_zero : hexd (Ascii.ascii_of_N 48).
Proof. exists 0. split; [lia|done]. Qed.

Lemma hex_digits_step a c l d :
  hex_digit_value c = Some d → is_underscore c = false →
  hex_digits a false (c :: l) = hex_digits (16 * a + d) false l.
Proof. intros Hv Hu. simpl. by rewrite Hu, Hv. Qed.

(** The digits [hex_fuel] prints read back as the number printed, and the
    first of them is not a zero unless it is the only one. *)
Lemma hex_fuel_spec fuel v acc :
  (0 < fuel)%nat → 0 ≤ v < 16 ^ Z.of_nat fuel →
  ∃ ds, hex_fuel fuel v acc = ds ++ acc
        ∧ Forall hexd ds ∧ ds ≠ []
        ∧ (∀ a rest, hex_digits a false (ds ++ rest)
                     = hex_digits (a * 16 ^ Z.of_nat (length ds) + v) false rest)
        ∧ (length ds = 1%nat ∨ 16 ^ (Z.of_nat (length ds) - 1) ≤ v).
Proof.
  revert v acc. induction fuel as [|fuel IH]; intros v acc Hf Hv; [lia|].
  simpl. destruct (v <? 16) eqn:E.
  - apply Z.ltb_lt in E. exists [hex_char v].
    split_and!; [done| |done| |by left].
    + constructor; [|done]. exists v. split; [lia|done].
    + intros a rest. simpl app.
      destruct (hex_char_facts v) as (Hd & Hu & _); [lia|].
      rewrite (hex_digits_step _ _ _ v) by done. f_equal. simpl. lia.
  - apply Z.ltb_ge in E.
    assert (0 < fuel)%nat as Hfuel.
    { destruct fuel; [|lia]. simpl in Hv. lia. }
    assert (0 ≤ v / 16 < 16 ^ Z.of_nat fuel) as Hq.
    { split; [apply Z.div_pos; lia|].
      apply Z.div_lt_upper_bound; [lia|].
      replace (Z.of_nat (S fuel)) with (Z.of_nat fuel + 1) in Hv by lia.
      rewrite Z.pow_add_r, Z.pow_1_r in Hv by lia. lia. }
    destruct (IH (v / 16) (hex_char (v mod 16) :: acc) Hfuel Hq)
      as (ds & -> & Hall & Hne & Hread & Hsize).
    pose proof (Z.mod_pos_bound v 16 ltac:(lia)) as Hm.
    exists (ds ++ [hex_char (v mod 16)]).
    split_and!.
    + by rewrite <- app_assoc.
    + apply Forall_app. split; [done|]. constructor; [|done]. by exists (v mod 16).
    + by destruct ds.
    + intros a rest. rewrite <- app_assoc. simpl app. rewrite Hread.
      destruct (hex_char_facts (v mod 16)) as (Hd & Hu & _); [lia|].
      rewrite (hex_digits_step _ _ _ (v mod 16)) by done. f_equal.
      rewrite length_app. simpl length.
      replace (Z.of_nat (length ds + 1)) with (Z.of_nat (length ds) + 1) by lia.
      rewrite Z.pow_add_r, Z.pow_1_r by lia.
      pose proof (Z.div_mod v 16 ltac:(lia)). lia.
    + right. rewrite length_app. simpl length.
      replace (Z.of_nat (length ds + 1) - 1) with (Z.of_nat (length ds)) by lia.
      pose proof (Z.div_mod v 16 ltac:(lia)) as Hdm.
      destruct Hsize as [H1|Hge].
      * rewrite H1. simpl. lia.
      * assert (length ds ≠ 0)%nat by (by destruct ds).
        replace (Z.of_nat (length ds)) with ((Z.of_nat (length ds) - 1) + 1) by lia.
        rewrite Z.pow_add_r, Z.pow_1_r by lia. lia.
Qed.

Lemma int2_fold bits acc :
  fold_left (λ acc (b : bool), 2 * acc + (if b then 1 else 0)) bits acc
  = acc * 2 ^ Z.of_nat (length bits) + int2 bits.
Proof.
  unfold int2. revert acc. induction bits as [|b bits IH]; intros acc; simpl fold_left.
  - simpl. lia.
  - rewrite IH, (IH (2 * 0 + _)). simpl length.
    replace (Z.of_nat (S (length bits))) with (Z.of_nat (length bits) + 1) by lia.
    rewrite Z.pow_add_r, Z.pow_1_r by lia. lia.
Qed.

Lemma int2_cons b bits :
  int2 (b :: bits) = (if b then 2 ^ Z.of_nat (length bits) else 0) + int2 bits.
Proof.
  unfold int2 at 1. simpl fold_left. rewrite int2_fold. destruct b; lia.
Qed.

Lemma int2_snoc bits b : int2 (bits ++ [b]) = 2 * int2 bits + (if b then 1 else 0).
Proof. unfold int2. by rewrite fold_left_app. Qed.

Lemma int2_bound bits : 0 ≤ int2 bits < 2 ^ Z.of_nat (length bits).
Proof.
  induction bits as [|b bits IH]; [by vm_compute|].
  rewrite int2_cons. simpl length.
  replace (Z.of_nat (S (length bits))) with (Z.of_nat (length bits) + 1) by lia.
  rewrite Z.pow_add_r, Z.pow_1_r by lia. destruct b; lia.
Qed.

Lemma int2_inj bits1 bits2 :
  length bits1 = length bits2 → int2 bits1 = int2 bits2 → bits1 = bits2.
Proof.
  revert bits2. induction bits1 as [|b1 bits1 IH]; intros [|b2 bits2]; try done.
  intros [= Hlen]. rewrite !int2_cons, Hlen. intros Hv.
  pose proof (int2_bound bits1) as H1. pose proof (int2_bound bits2) as H2.
  rewrite Hlen in H1.
  destruct b1, b2; try lia; f_equal; apply IH; (done || lia).
Qed.

Lemma int2_zeros k bits : int2 (replicate k false ++ bits) = int2 bits.
Proof.
  induction k as [|k IH]; [done|]. simpl replicate. simpl app.
  rewrite int2_cons. lia.
Qed.

Lemma pos_bits_spec p :
  int2 (pos_bits p) = Z.pos p
  ∧ (0 < length (pos_bits p))%nat
  ∧ 2 ^ (Z.of_nat (length (pos_bits p)) - 1) ≤ Z.pos p.
Proof.
  induction p as [p (IH1 & IH2 & IH3)|p (IH1 & IH2 & IH3)|]; simpl pos_bits.
  - rewrite int2_snoc, length_app, IH1. simpl length. split_and!; [lia..|].
    replace (Z.of_nat (length (pos_bits p) + 1) - 1)
      with ((Z.of_nat (length (pos_bits p)) - 1) + 1) by lia.
    rewrite Z.pow_add_r, Z.pow_1_r by lia. lia.
  - rewrite int2_snoc, length_app, IH1. simpl length. split_and!; [lia..|].
    replace (Z.of_nat (length (pos_bits p) + 1) - 1)
      with ((Z.of_nat (length (pos_bits p)) - 1) + 1) by lia.
    rewrite Z.pow_add_r, Z.pow_1_r by lia. lia.
  - by vm_compute.
Qed.

(** Printing in binary on [width] digits and reading back. *)
Lemma format_bin_spec width v :
  (0 < width)%nat → 0 ≤ v < 2 ^ Z.of_nat width →
  length (format_bin width v) = width ∧ int2 (format_bin width v) = v.
Proof.
  intros Hw Hv. unfold format_bin. destruct v as [|p|p]; [| |lia].
  - rewrite length_app, length_replicate, int2_zeros. simpl. split; [lia|done].
  - destruct (pos_bits_spec p) as (Hp1 & Hp2 & Hp3).
    rewrite length_app, length_replicate, int2_zeros. split; [|done].
    assert (Z.of_nat (length (pos_bits p)) - 1 < Z.of_nat width); [|lia].
    apply (Z.pow_lt_mono_r_iff 2); lia.
Qed.

Lemma format_bin_int2 bits :
  bits ≠ [] → format_bin (length bits) (int2 bits) = bits.
Proof.
  intros Hne. assert (0 < length bits)%nat by (destruct bits; [done|simpl; lia]).
  destruct (format_bin_spec (length bits) (int2 bits)) as [Hl Hv];
    [done|apply int2_bound|].
  by apply int2_inj.
Qed.

Lemma hexd_facts c :
  hexd c →
  (∃ d, 0 ≤ d < 16 ∧ hex_digit_value c = Some d)
  ∧ is_underscore c = false ∧ is_space c = false
  ∧ (ascii_code c =? 43) = false ∧ (ascii_code c =? 45) = false
  ∧ (ascii_code c =? 120) = false ∧ (ascii_code c =? 88) = false.
Proof.
  intros (d & Hd & ->). destruct (hex_char_facts d Hd) as (? & ? & ? & ? & ? & ? & ?).
  split_and!; [by exists d|done..].
Qed.

Lemma lstrip_hexd l : Forall hexd l → lstrip l = l.
Proof.
  intros [|c l' Hc _]; [done|]. simpl.
  apply hexd_facts in Hc as (_ & _ & -> & _). done.
Qed.

Lemma strip_hexd l : Forall hexd l → strip l = l.
Proof.
  intros Hl. unfold strip. rewrite (lstrip_hexd l) by done.
  rewrite lstrip_hexd by by apply Forall_reverse. apply reverse_involutive.
Qed.

Lemma strip_sign_hexd l : Forall hexd l → strip_sign l = (1, l).
Proof.
  intros [|c l' Hc _]; [done|]. simpl.
  apply hexd_facts in Hc as (_ & _ & _ & -> & -> & _). done.
Qed.

Lemma strip_prefix_hexd l : Forall hexd l → strip_prefix l = l.
Proof.
  intros [|z l' _ [|x l'' Hx _]]; [done..|]. simpl.
  apply hexd_facts in Hx as (_ & _ & _ & _ & _ & -> & ->).
  by rewrite andb_false_r.
Qed.

Lemma hex_digits_zeros k a l :
  hex_digits a false (replicate k (Ascii.ascii_of_N 48) ++ l)
  = hex_digits (a * 16 ^ Z.of_nat k) false l.
Proof.
  revert a. induction k as [|k IH]; intros a.
  - simpl. f_equal. lia.
  - simpl replicate. simpl app.
    rewrite (hex_digits_step _ _ _ 0) by done. rewrite IH. f_equal.
    replace (Z.of_nat (S k)) with (Z.of_nat k + 1) by lia.
    rewrite Z.pow_add_r, Z.pow_1_r by lia. lia.
Qed.

Lemma log2_fuel v : 0 ≤ v → v < 16 ^ Z.of_nat (S (Z.to_nat (Z.log2 v))).
Proof.
  intros Hv. destruct (decide (v = 0)) as [->|Hne]; [by vm_compute|].
  pose proof (Z.log2_nonneg v) as Hl.
  destruct (Z.log2_spec v) as [_ Hlt]; [lia|].
  replace (Z.of_nat (S (Z.to_nat (Z.log2 v)))) with (Z.succ (Z.log2 v)) by lia.
  eapply Z.lt_le_trans; [exact Hlt|].
  apply Z.pow_le_mono_l. lia.
Qed.

(** ['{:0>{width}x}'.format(v, width=width)] has [width] digits when [v]
    fits, and [int(_, 16)] reads [v] back from it. *)
Lemma format_hex_spec width v :
  (0 < width)%nat → 0 ≤ v < 16 ^ Z.of_nat width →
  String.length (format_hex width v) = width
  ∧ format_hex width v ≠ ""
  ∧ int16 (format_hex width v) = Ok v.
Proof.
  intros Hw Hv. unfold format_hex.
  destruct (hex_fuel_spec (S (Z.to_nat (Z.log2 v))) v [])
    as (ds & Hds & Hall & Hne & Hread & Hsize); [lia|split; [lia|apply log2_fuel; lia]|].
  rewrite Hds, app_nil_r.
  assert (length ds ≤ width)%nat as Hlen.
  { destruct Hsize as [->|Hge]; [lia|].
    assert (Z.of_nat (length ds) - 1 < Z.of_nat width); [|lia].
    apply (Z.pow_lt_mono_r_iff 16); lia. }
  set (l := replicate (width - length ds) (Ascii.ascii_of_N 48) ++ ds).
  assert (Forall hexd l) as Hl.
  { apply Forall_app. split; [|done]. apply Forall_replicate, hexd_zero. }
  assert (length l = width) as Hll.
  { unfold l. rewrite length_app, length_replicate. lia. }
  split_and!.
  - rewrite <- Hll. clear. induction l as [|c l IH]; simpl; [done|]. by rewrite IH.
  - intros E. assert (l = []) as El.
    { rewrite <- (String.list_ascii_of_string_of_list_ascii l), E. done. }
    rewrite El in Hll. simpl in Hll. lia.
  - unfold int16. rewrite String.list_ascii_of_string_of_list_ascii.
    rewrite strip_hexd, strip_sign_hexd, strip_prefix_hexd by done.
    destruct l as [|c l'] eqn:El; [simpl in Hll; lia|].
    apply Forall_cons in Hl as Hc. destruct Hc as [Hc _].
    apply hexd_facts in Hc as (_ & Hu & _). rewrite Hu. rewrite <- El.
    unfold l. rewrite hex_digits_zeros.
    pose proof (Hread (0 * 16 ^ Z.of_nat (width - length ds)) []) as Hr.
    rewrite app_nil_r in Hr. rewrite Hr. simpl. f_equal. lia.
Qed.

Lemma slices_fuel_rows (fuel n : nat) (h : list (list bool)) :
  (0 < n)%nat → Forall (λ row, length row = n) h → (length h ≤ fuel)%nat →
  Py.slices_fuel fuel n (concat h) = h.
Proof.
  intros Hn. revert h. induction fuel as [|fuel IH]; intros h Hrows Hfuel.
  - destruct h; [done|simpl in Hfuel; lia].
  - destruct h as [|row h]; [done|].
    apply Forall_cons in Hrows as [Hrow Hrows]. simpl concat.
    destruct (row ++ concat h) as [|b rest] eqn:E.
    { destruct row; [simpl in Hrow; lia|done]. }
    rewrite <- E. simpl Py.slices_fuel. rewrite E at 1.
    rewrite take_app_length' by done. rewrite drop_app_length' by done.
    f_equal. apply IH; [done|]. simpl in Hfuel. lia.
Qed.

Lemma length_concat_rows (n : nat) (h : list (list bool)) :
  Forall (λ row, length row = n) h → length (concat h) = (length h * n)%nat.
Proof.
  induction 1 as [|row h Hrow _ IH]; [done|].
  simpl. rewrite length_app, IH, Hrow. lia.
Qed.

Lemma sqrt_hex_width (n : nat) :
  (2 ≤ n)%nat → Nat.sqrt (Nat.div (n * n + 3) 4 * 4) = n.
Proof.
  intros Hn. apply Nat.sqrt_unique.
  pose proof (Nat.div_mod (n * n + 3) 4 ltac:(lia)) as Hdm.
  pose proof (Nat.mod_upper_bound (n * n + 3) 4 ltac:(lia)) as Hm.
  nia.
Qed.

(** [hex_to_hash(str(h))] is [h] for a square hash of side at least 2. *)
Lemma hex_to_hash_to_str (n : nat) (h : t) :
  (2 ≤ n)%nat → square n h → hex_to_hash (to_str h) = Ok h.
Proof.
  intros Hn [Hrows Hcols].
  pose proof (length_concat_rows n h Hcols) as Hlen. rewrite Hrows in Hlen.
  set (bits := concat h) in *.
  set (width := Nat.div (n * n + 3) 4).
  assert (0 < width)%nat as Hw.
  { unfold width. apply Nat.div_str_pos. nia. }
  assert (n * n ≤ 4 * width)%nat as Hfit.
  { unfold width. pose proof (Nat.div_mod (n * n + 3) 4 ltac:(lia)).
    pose proof (Nat.mod_upper_bound (n * n + 3) 4 ltac:(lia)). lia. }
  pose proof (int2_bound bits) as Hv. rewrite Hlen in Hv.
  assert (int2 bits < 16 ^ Z.of_nat width) as Hv16.
  { eapply Z.lt_le_trans; [apply Hv|].
    change 16 with (2 ^ 4). rewrite <- Z.pow_mul_r by lia.
    apply Z.pow_le_mono_r; lia. }
  destruct (format_hex_spec width (int2 bits) Hw) as (Hsl & _ & Hint); [lia|].
  assert (Nat.sqrt (width * 4) = n) as Hsq by by apply sqrt_hex_width.
  assert (to_str h = format_hex width (int2 bits)) as ->.
  { unfold to_str, flatten. fold bits. by rewrite Hlen. }
  assert (format_bin (n * n) (int2 bits) = bits) as Hbin.
  { rewrite <- Hlen. apply format_bin_int2.
    intros E. rewrite E in Hlen. simpl in Hlen. nia. }
  assert (Py.slices (Z.of_nat n) bits = Ok h) as Hslices.
  { unfold Py.slices. rewrite !decide_False by lia.
    rewrite Nat2Z.id. unfold bits. rewrite slices_fuel_rows; [done|lia|done|].
    fold bits. rewrite Hlen, Hrows. nia. }
  assert (forallb (λ row, bool_decide (length row = n)) h = true) as Hall.
  { apply forallb_forall. intros row Hin. apply bool_decide_eq_true_2.
    rewrite Forall_forall in Hcols. apply Hcols. by apply list_elem_of_In. }
  unfold hex_to_hash. rewrite Hint, Hsl, Hsq.
  change (Ok (int2 bits) ≫= ?f) with (f (int2 bits)). cbv beta.
  rewrite decide_False by lia. rewrite Hbin, Hslices.
  change (Ok h ≫= ?f) with (f h). cbv beta. by rewrite Hall.
Qed.

End HexRoundTrip.

Lemma to_str_nonempty (h : ImageHash.t) : ImageHash.to_str h ≠ "".
Proof.
  unfold ImageHash.to_str, ImageHash.format_hex.
  set (v := ImageHash.int2 (ImageHash.flatten h)).
  pose proof (int2_bound (ImageHash.flatten h)) as Hv. fold v in Hv.
  destruct (hex_fuel_spec (S (Z.to_nat (Z.log2 v))) v [])
    as (ds & -> & _ & Hne & _); [lia|split; [lia|apply log2_fuel; lia]|].
  rewrite app_nil_r. intros E.
  apply (f_equal String.list_ascii_of_string) in E.
  rewrite String.list_ascii_of_string_of_list_ascii in E. simpl in E.
  by destruct (replicate _ _), ds.
Qed.

Lemma square_size n h : square n h → ImageHash.size h = (n * n)%nat.
Proof.
  intros [Hrows Hcols]. unfold ImageHash.size, ImageHash.flatten.
  by rewrite (length_concat_rows n), Hrows.
Qed.

(** X3: the string that [compute_hashes] stores for a hash ([str(h)]) is
    read back by [hex_to_hash] as the same hash, for every square hash of
    side at least 2; it has one hexadecimal digit for every four bits. *)
Theorem hash_string_round_trip (n : nat) (h : ImageHash.t) :
  (2 ≤ n)%nat →
  square n h →
  ImageHash.hex_to_hash (ImageHash.to_str h) = Ok h
  ∧ String.length (ImageHash.to_str h) = Nat.div (n * n + 3) 4
  ∧ code_bits (ImageHash.to_str h) = Some (n * n)%nat.
Proof.
  intros Hn Hsq. pose proof (hex_to_hash_to_str n h Hn Hsq) as Hrt.
  split_and!; [done| |].
  - pose proof (square_size n h Hsq) as Hsize.
    unfold ImageHash.to_str. unfold ImageHash.size in Hsize. rewrite Hsize.
    pose proof (int2_bound (ImageHash.flatten h)) as Hv. rewrite Hsize in Hv.
    apply format_hex_spec.
    + apply Nat.div_str_pos. nia.
    + split; [lia|]. eapply Z.lt_le_trans; [apply Hv|].
      change 16 with (2 ^ 4). rewrite <- Z.pow_mul_r by lia.
      apply Z.pow_le_mono_r; [lia|].
      pose proof (Nat.div_mod (n * n + 3) 4 ltac:(lia)).
      pose proof (Nat.mod_upper_bound (n * n + 3) 4 ltac:(lia)). lia.
  - unfold code_bits. rewrite Hrt. f_equal. by apply square_size.
Qed.

Lemma hash_string_round_trip_witness :
  (2 ≤ 8)%nat
  ∧ square 8 (replicate 8 [true; false; true; true; false; false; true; false])
  ∧ ImageHash.to_str (replicate 8 [true; false; true; true; false; false; true; false])
    = "b2b2b2b2b2b2b2b2"
  ∧ ImageHash.hex_to_hash "b2b2b2b2b2b2b2b2"
    = Ok (replicate 8 [true; false; true; true; false; false; true; false]).
Proof.
  assert (H1 : (2 ≤ 8)%nat) by lia.
  assert (H2 : square 8 (replicate 8 [true; false; true; true; false; false; true; false])).
  { split; [reflexivity|]. by repeat constructor. }
  split_and!; [done|done|reflexivity|].
  exact (proj1 (hash_string_round_trip 8 _ H1 H2)).
Defined.

(** X4: the distance that the clusterer computes from the stored strings
    of two square hashes of one side is the number of positions in which
    the two hashes differ, and it is zero only when they are the same
    hash. *)
Theorem stored_codes_give_hamming_distance (n : nat) (h1 h2 : ImageHash.t) :
  (2 ≤ n)%nat →
  square n h1 →
  square n h2 →
  _compute_hash_distance (ImageHash.to_str h1) (ImageHash.to_str h2)
  = ImageHash.count_differing (ImageHash.flatten h1) (ImageHash.flatten h2)
  ∧ (_compute_hash_distance (ImageHash.to_str h1) (ImageHash.to_str h2) = 0
     ↔ h1 = h2)
  ∧ (ImageHash.to_str h1 = ImageHash.to_str h2 ↔ h1 = h2).
Proof.
  intros Hn Hs1 Hs2.
  pose proof (hex_to_hash_to_str n h1 Hn Hs1) as E1.
  pose proof (hex_to_hash_to_str n h2 Hn Hs2) as E2.
  assert (ImageHash.size h1 = ImageHash.size h2) as Hsize
    by by rewrite (square_size n h1), (square_size n h2).
  rewrite (compute_hash_distance_Ok _ _ h1 h2) by done.
  assert (ImageHash.to_str h1 = ImageHash.to_str h2 ↔ h1 = h2) as Hinj.
  { split; [|by intros ->]. intros E. rewrite E in E1. congruence. }
  split_and!; [done| |done].
  split.
  - intros Hd. apply count_differing_zero in Hd; [|done].
    apply Hinj. unfold ImageHash.to_str. by rewrite Hd.
  - intros ->. apply count_differing_refl.
Qed.

Lemma stored_codes_give_hamming_distance_witness :
  _compute_hash_distance
    (ImageHash.to_str (replicate 8 (replicate 8 false)))
    (ImageHash.to_str (replicate 7 (replicate 8 false)
                       ++ [[false; false; false; false; false; true; true; true]]))
  = 3.
Proof.
  assert (H1 : (2 ≤ 8)%nat) by lia.
  assert (H2 : square 8 (replicate 8 (replicate 8 false))).
  { split; [reflexivity|]. by repeat constructor. }
  assert (H3 : square 8 (replicate 7 (replicate 8 false)
                         ++ [[false; false; false; false; false; true; true; true]])).
  { split; [reflexivity|]. by repeat constructor. }
  exact (proj1 (stored_codes_give_hamming_distance 8 _ _ H1 H2 H3)).
Defined.

(** ** The weights of the edges *)

Section EdgeWeights.
Import nx.

Lemma edge_distance_is_Some G u v :
  is_Some (edge_distance G u v) ↔ v ∈ neighbors G u.
Proof. unfold edge_distance, neighbors. apply get_is_Some. Qed.

Lemma edge_distance_add_node n G u v :
  graph_wf G → edge_distance (add_node n G) u v = edge_distance G u v.
Proof.
  intros HG. destruct (edge_distance G u v) as [z|] eqn:E.
  - unfold add_node. case_decide as Hn; [done|].
    unfold edge_distance, adj in *; simpl. rewrite get_set.
    case_decide as Hu; [subst u|done].
    exfalso. assert (v ∈ neighbors G n) as Hv by (apply edge_distance_is_Some; by eexists).
    rewrite neighbors_outside in Hv by done. by apply elem_of_nil in Hv.
  - apply eq_None_not_Some. rewrite edge_distance_is_Some, neighbors_add_node by done.
    rewrite <- edge_distance_is_Some, E. by intros [? ?].
Qed.

Lemma edge_distance_add_edge u v d G u' v' z :
  graph_wf G →
  edge_distance (add_edge u v d G) u' v' = Some z →
  (z = d ∧ ((u' = u ∧ v' = v) ∨ (u' = v ∧ v' = u)))
  ∨ edge_distance G u' v' = Some z.
Proof.
  intros HG.
  assert (N : ∀ x y, Py.get y (adj (add_node v (add_node u G)) x) = edge_distance G x y).
  { intros x y. fold (edge_distance (add_node v (add_node u G)) x y).
    rewrite edge_distance_add_node by by apply graph_wf_add_node.
    by rewrite edge_distance_add_node. }
  unfold add_edge, edge_distance at 1, adj at 1; simpl.
  rewrite !get_set.
  destruct (decide (u' = v)) as [->|Hv]; simpl.
  - rewrite get_set. destruct (decide (v' = u)) as [->|Hu]; [naive_solver|].
    destruct (decide (v = u)) as [->|Hvu]; simpl.
    + rewrite get_set, decide_False by done. rewrite N. naive_solver.
    + fold (adj (add_node v (add_node u G)) v). rewrite N. naive_solver.
  - destruct (decide (u' = u)) as [->|Hu]; simpl.
    + rewrite get_set. destruct (decide (v' = v)) as [->|Hv']; [naive_solver|].
      rewrite N. naive_solver.
    + fold (adj (add_node v (add_node u G)) u'). rewrite N. naive_solver.
Qed.

Variable cfg : Config.
Variable logo_data : Py.dict (option LogoData.t).

Lemma add_edges_from_weights d1 rest G :
  graph_wf G → weights_ok logo_data G →
  graph_wf (add_edges_from cfg logo_data d1 rest G)
  ∧ weights_ok logo_data (add_edges_from cfg logo_data d1 rest G).
Proof.
  unfold add_edges_from. revert G.
  induction rest as [|d2 rest IH]; intros G HG HW; simpl; [done|].
  apply IH; case_decide; try done; [by apply graph_wf_add_edge|].
  intros u v z [[-> [[-> ->]|[-> ->]]]|E]%edge_distance_add_edge; [done| |by apply HW|done].
  unfold domain_distance. apply compute_hash_distance_comm.
Qed.

Lemma add_all_edges_weights valid G :
  graph_wf G → weights_ok logo_data G →
  weights_ok logo_data (add_all_edges cfg logo_data valid G).
Proof.
  revert G. induction valid as [|d1 rest IH]; intros G HG HW; simpl; [done|].
  destruct (add_edges_from_weights d1 rest G HG HW). by apply IH.
Qed.

Lemma similarity_graph_weights : weights_ok logo_data (similarity_graph cfg logo_data).
Proof.
  unfold similarity_graph.
  destruct (add_nodes_spec (valid_domains logo_data) empty graph_wf_empty)
    as (HG & _ & Hnb).
  apply add_all_edges_weights; [done|].
  intros u v z E. assert (v ∈ neighbors empty u) as Hv.
  { rewrite <- Hnb. apply edge_distance_is_Some. by eexists. }
  by apply elem_of_nil in Hv.
Qed.

End EdgeWeights.

(** X5: every edge of the graph of [cluster_by_similarity] carries, in both
    directions, the distance of its two ends as its ['distance'] attribute,
    and a pair without an edge carries none. *)
Theorem edge_weight_is_distance (cfg : Config)
    (logo_data : Py.dict (option LogoData.t)) (u v : string) :
  let G := similarity_graph cfg logo_data in
  (nx.has_edge G u v = true →
   nx.edge_distance G u v = Some (domain_distance logo_data u v)
   ∧ nx.edge_distance G v u = Some (domain_distance logo_data u v)
   ∧ domain_distance logo_data u v ≤ NEAR_DUPLICATE_THRESHOLD cfg)
  ∧ (nx.has_edge G u v = false → nx.edge_distance G u v = None).
Proof.
  intros G. pose proof (similarity_graph_weights cfg logo_data) as HW. fold G in HW.
  destruct (similarity_graph_spec cfg logo_data) as (HG & _ & Hedge). fold G in HG, Hedge.
  split.
  - intros Huv%has_edge_true.
    assert (Hvu := graph_wf_sym G HG u v Huv).
    pose proof Huv as [z Hz]%edge_distance_is_Some.
    pose proof Hvu as [z' Hz']%edge_distance_is_Some.
    rewrite Hz, Hz'. rewrite (HW _ _ _ Hz), (HW _ _ _ Hz').
    split_and!; [done|f_equal; apply compute_hash_distance_comm|].
    apply Hedge in Huv as (d1 & d2 & _ & Hd & [[-> ->]|[-> ->]]); [done|].
    unfold domain_distance in *. by rewrite compute_hash_distance_comm.
  - intros Huv%has_edge_false. apply eq_None_not_Some.
    by rewrite edge_distance_is_Some.
Qed.

Example three_logos_weights :
  nx.edge_distance (similarity_graph default_config three_logos) "a.com" "b.com" = Some 3
  ∧ nx.edge_distance (similarity_graph default_config three_logos) "c.com" "b.com" = Some 4
  ∧ nx.edge_distance (similarity_graph default_config three_logos) "a.com" "c.com" = None.
Proof. by vm_compute. Qed.

(** ** What the search reaches *)

Section BfsReach.
Import nx.
Variable G : Graph.
Hypothesis HG : graph_wf G.
Variable source : string.

Lemma visit_reach v seen next :
  rtc (edge G) source v →
  (∀ x, x ∈ seen → rtc (edge G) source x) →
  (∀ x, x ∈ next → rtc (edge G) source x) →
  let st := visit (neighbors G v) (seen, next) in
  (∀ x, x ∈ st.1 → rtc (edge G) source x)
  ∧ (∀ x, x ∈ st.2 → rtc (edge G) source x).
Proof.
  intros Hv Hseen Hnext.
  destruct (visit_spec G HG (neighbors G v) seen next) as (added & -> & Hadded & _).
  assert (∀ x, x ∈ neighbors G v → rtc (edge G) source x) as Hnb.
  { intros x Hx. eapply rtc_r; [exact Hv|exact Hx]. }
  simpl. split.
  - intros x [?|?%elem_of_list_to_set]%elem_of_union; auto.
  - intros x [?|[? _]%Hadded]%elem_of_app; auto.
Qed.

Lemma scan_level_reach n this seen next :
  (∀ x, x ∈ this → rtc (edge G) source x) →
  (∀ x, x ∈ seen → rtc (edge G) source x) →
  (∀ x, x ∈ next → rtc (edge G) source x) →
  let r := scan_level G n this seen next in
  (∀ x, x ∈ r.1.1 → rtc (edge G) source x)
  ∧ (∀ x, x ∈ r.1.2 → rtc (edge G) source x).
Proof.
  revert seen next. induction this as [|v rest IH]; intros seen next Hthis Hseen Hnext.
  - done.
  - simpl.
    destruct (visit_reach v seen next) as [H1 H2]; [apply Hthis; left|done..|].
    case_decide; [done|].
    apply IH; [|done..]. intros x Hx. apply Hthis. by right.
Qed.

Lemma bfs_loop_reach fuel n seen next :
  (∀ x, x ∈ seen → rtc (edge G) source x) →
  (∀ x, x ∈ next → rtc (edge G) source x) →
  ∀ x, x ∈ bfs_loop fuel G n seen next → rtc (edge G) source x.
Proof.
  revert seen next. induction fuel as [|fuel IH]; intros seen next Hseen Hnext; [done|].
  simpl. destruct next as [|v rest]; [done|].
  destruct (scan_level_reach n (v :: rest) seen []) as [H1 H2];
    [done|done|by intros ? ?%elem_of_nil|].
  destruct (scan_level G n (v :: rest) seen []).2; [done|].
  by apply IH.
Qed.

Lemma plain_bfs_reach n x :
  x ∈ _plain_bfs G n source → rtc (edge G) source x.
Proof.
  apply bfs_loop_reach.
  - by intros ? ->%elem_of_singleton.
  - by intros ? ->%list_elem_of_singleton.
Qed.

End BfsReach.

(** ** Clusters are the classes of the chains of near pairs *)

Lemma closed_rtc G c u v : closed G c → u ∈ c → rtc (edge G) u v → v ∈ c.
Proof. intros Hc Hu Hr. induction Hr as [|x y z Hxy _ IH]; [done|]. eauto. Qed.

Lemma component_reach G c u v :
  graph_wf G → component G c → (∀ x, x ∈ c → x ∈ nx._node G) →
  u ∈ c → v ∈ c → rtc (edge G) u v.
Proof.
  intros HG (_ & _ & Hatom) Hnodes Hu Hv.
  destruct (plain_bfs_component G HG u (Hnodes u Hu)) as (Hu' & _ & Hcl & _).
  apply (plain_bfs_reach G HG u (length (nx._node G))).
  destruct (Hatom _ Hcl) as [Hsub|Hdisj]; [by apply Hsub|].
  exfalso. by apply (Hdisj u).
Qed.

Section ClusterStructure.
Variable cfg : Config.
Variable logo_data : Py.dict (option LogoData.t).
Hypothesis Hkeys : NoDup (Py.keys logo_data).

Lemma edge_near u v :
  edge (similarity_graph cfg logo_data) u v ↔ near cfg logo_data u v.
Proof. unfold edge, near. by apply similarity_graph_edge. Qed.

Lemma rtc_edge_near u v :
  rtc (edge (similarity_graph cfg logo_data)) u v ↔ rtc (near cfg logo_data) u v.
Proof.
  split; induction 1 as [|x y z Hxy _ IH]; try done;
    (eapply rtc_l; [|exact IH]); by apply edge_near.
Qed.

Lemma cluster_nodes c x :
  c ∈ cluster_by_similarity cfg logo_data → x ∈ c →
  x ∈ nx._node (similarity_graph cfg logo_data).
Proof.
  intros Hc Hx.
  destruct (cluster_by_similarity_spec cfg logo_data) as (Hcov & _ & _).
  destruct (similarity_graph_spec cfg logo_data) as (_ & Hn & _).
  apply Hn, Hcov. by exists c.
Qed.

Lemma same_cluster_chain u v :
  u ∈ valid_domains logo_data →
  same_cluster (cluster_by_similarity cfg logo_data) u v
  ↔ rtc (near cfg logo_data) u v.
Proof.
  intros Hu.
  destruct (cluster_by_similarity_spec cfg logo_data) as (Hcov & _ & Hcomp).
  destruct (similarity_graph_spec cfg logo_data) as (HG & _ & _).
  split.
  - intros (c & Hc & Huc & Hvc). apply rtc_edge_near.
    apply (component_reach _ c); auto. intros x. by apply cluster_nodes.
  - intros Hr%rtc_edge_near. apply Hcov in Hu as (c & Hc & Huc).
    exists c. split_and!; [done..|].
    destruct (Hcomp c Hc) as (_ & Hcl & _). by eapply closed_rtc.
Qed.

Lemma isolated_singleton d :
  d ∈ valid_domains logo_data →
  (∀ d', ¬ near cfg logo_data d d') →
  {[d]} ∈ cluster_by_similarity cfg logo_data.
Proof.
  intros Hd Hfar.
  destruct (cluster_by_similarity_spec cfg logo_data) as (Hcov & _ & _).
  destruct (proj2 (Hcov d) Hd) as (c & Hc & Hdc).
  assert (c = {[d]}) as <-; [|done].
  apply set_eq. intros x. rewrite elem_of_singleton. split; [|by intros ->].
  intros Hx.
  assert (rtc (near cfg logo_data) d x) as Hr.
  { apply same_cluster_chain; [done|]. by exists c. }
  destruct Hr as [|? y ? Hstep _]; [done|]. by destruct (Hfar y).
Qed.

End ClusterStructure.

(** X6: two domains are put in one cluster exactly when a chain of
    domains leads from one to the other in which every two neighbours have
    primary codes within the threshold (single linkage). *)
Theorem same_cluster_iff_chain (cfg : Config)
    (logo_data : Py.dict (option LogoData.t)) (u v : string) :
  NoDup (Py.keys logo_data) →
  u ∈ valid_domains logo_data →
  same_cluster (cluster_by_similarity cfg logo_data) u v
  ↔ rtc (near cfg logo_data) u v.
Proof. intros Hk Hu. by apply same_cluster_chain. Qed.

Lemma same_cluster_iff_chain_witness :
  NoDup (Py.keys three_logos)
  ∧ "a.com" ∈ valid_domains three_logos
  ∧ (same_cluster (cluster_by_similarity default_config three_logos) "a.com" "c.com"
     ↔ rtc (near default_config three_logos) "a.com" "c.com").
Proof.
  assert (H1 : NoDup (Py.keys three_logos)) by by_evaluation.
  assert (H2 : "a.com" ∈ valid_domains three_logos) by by_evaluation.
  split_and!; [done..|].
  exact (same_cluster_iff_chain default_config three_logos "a.com" "c.com" H1 H2).
Defined.

(** X7: raising the threshold only merges clusters: every cluster found
    under a threshold is contained in a cluster found under any larger
    threshold. *)
Theorem larger_threshold_merges_clusters (cfg1 cfg2 : Config)
    (logo_data : Py.dict (option LogoData.t)) (c1 : gset string) :
  NoDup (Py.keys logo_data) →
  NEAR_DUPLICATE_THRESHOLD cfg1 ≤ NEAR_DUPLICATE_THRESHOLD cfg2 →
  c1 ∈ cluster_by_similarity cfg1 logo_data →
  ∃ c2, c2 ∈ cluster_by_similarity cfg2 logo_data ∧ c1 ⊆ c2.
Proof.
  intros Hk Hle Hc1.
  destruct (cluster_by_similarity_spec cfg1 logo_data) as (Hcov1 & _ & Hcomp1).
  destruct (cluster_by_similarity_spec cfg2 logo_data) as (Hcov2 & _ & Hcomp2).
  destruct (Hcomp1 c1 Hc1) as (Hne & _ & _).
  apply set_choose_L in Hne as [u Hu].
  assert (u ∈ valid_domains logo_data) as Hvalid by (apply Hcov1; by exists c1).
  destruct (proj2 (Hcov2 u) Hvalid) as (c2 & Hc2 & Hu2).
  exists c2. split; [done|]. intros v Hv.
  assert (rtc (near cfg1 logo_data) u v) as Hr.
  { apply same_cluster_chain; [done..|]. by exists c1. }
  assert (rtc (near cfg2 logo_data) u v) as Hr2.
  { clear -Hr Hle. induction Hr as [|x y z (? & ? & ? & ?) _ IH]; [done|].
    eapply rtc_l; [|exact IH]. split_and!; [done..|lia]. }
  apply rtc_edge_near in Hr2; [|done].
  destruct (Hcomp2 c2 Hc2) as (_ & Hcl & _). by eapply closed_rtc.
Qed.

Lemma larger_threshold_merges_clusters_witness :
  NoDup (Py.keys chain_logos)
  ∧ NEAR_DUPLICATE_THRESHOLD (with_threshold default_config 3)
    ≤ NEAR_DUPLICATE_THRESHOLD default_config
  ∧ cluster_by_similarity (with_threshold default_config 3) chain_logos
    = [ {["a.com"; "b.com"]}; {["c.com"]} ]
  ∧ ∃ c2, c2 ∈ cluster_by_similarity default_config chain_logos
          ∧ {["a.com"; "b.com"]} ⊆ c2.
Proof.
  assert (H1 : NoDup (Py.keys chain_logos)) by by_evaluation.
  assert (H2 : NEAR_DUPLICATE_THRESHOLD (with_threshold default_config 3)
               ≤ NEAR_DUPLICATE_THRESHOLD default_config) by (vm_compute; discriminate).
  assert (H3 : ({["a.com"; "b.com"]} : gset string)
               ∈ cluster_by_similarity (with_threshold default_config 3) chain_logos)
    by by_evaluation.
  split_and!; [done|done|reflexivity|].
  exact (larger_threshold_merges_clusters _ _ chain_logos _ H1 H2 H3).
Defined.

(** X8: a domain whose primary code is farther than the threshold from
    the code of every other node is a cluster of its own. *)
Theorem isolated_domain_is_alone (cfg : Config)
    (logo_data : Py.dict (option LogoData.t)) (d : string) :
  NoDup (Py.keys logo_data) →
  d ∈ valid_domains logo_data →
  (∀ d', d' ∈ valid_domains logo_data → d' ≠ d →
         NEAR_DUPLICATE_THRESHOLD cfg < domain_distance logo_data d d') →
  {[d]} ∈ cluster_by_similarity cfg logo_data
  ∧ ∀ c, c ∈ cluster_by_similarity cfg logo_data → d ∈ c → c = {[d]}.
Proof.
  intros Hk Hd Hfar.
  assert ({[d]} ∈ cluster_by_similarity cfg logo_data) as Hin.
  { apply isolated_singleton; [done..|].
    intros d' (_ & Hd' & Hne & Hle). specialize (Hfar d' Hd' ltac:(done)). lia. }
  split; [done|]. intros c Hc Hdc.
  destruct (cluster_by_similarity_spec cfg logo_data) as (_ & Hdisj & _).
  apply list_elem_of_lookup in Hin as [i Hi]. apply list_elem_of_lookup in Hc as [j Hj].
  destruct (decide (i = j)) as [->|Hij]; [congruence|].
  destruct (Hdisj i j _ _ Hij Hi Hj d); [by apply elem_of_singleton|done].
Qed.

Lemma isolated_domain_is_alone_witness :
  NoDup (Py.keys three_logos)
  ∧ "d.com" ∈ valid_domains three_logos
  ∧ {["d.com"]} ∈ cluster_by_similarity default_config three_logos.
Proof.
  assert (H1 : NoDup (Py.keys three_logos)) by by_evaluation.
  assert (H2 : "d.com" ∈ valid_domains three_logos) by by_evaluation.
  split_and!; [done..|].
  refine (proj1 (isolated_domain_is_alone default_config three_logos "d.com" H1 H2 _)).
  intros d' Hd' Hne.
  assert (d' ∈ ["a.com"; "b.com"; "c.com"; "d.com"]) as Hcases by exact Hd'.
  rewrite !elem_of_cons, elem_of_nil in Hcases.
  destruct Hcases as [->|[->|[->|[->|[]]]]]; (done || by vm_compute).
Defined.

(** X9: a record whose primary code is no hexadecimal code is at the
    sentinel distance from every other record, so under a threshold below
    999 it is a cluster of its own, even beside a record with the very same
    string; and under a negative threshold every cluster is a single
    domain. *)
Theorem unreadable_code_is_alone (cfg : Config)
    (logo_data : Py.dict (option LogoData.t)) :
  NoDup (Py.keys logo_data) →
  (∀ d, d ∈ valid_domains logo_data →
        code_bits (phash_of logo_data d) = None →
        NEAR_DUPLICATE_THRESHOLD cfg < 999 →
        {[d]} ∈ cluster_by_similarity cfg logo_data)
  ∧ (NEAR_DUPLICATE_THRESHOLD cfg < 0 →
     ∀ c, c ∈ cluster_by_similarity cfg logo_data →
          ∃ d, d ∈ valid_domains logo_data ∧ c = {[d]}).
Proof.
  intros Hk. split.
  - intros d Hd Hbits Hthr. apply isolated_singleton; [done..|].
    intros d' (_ & _ & _ & Hle). unfold domain_distance in Hle.
    unfold code_bits in Hbits.
    destruct (ImageHash.hex_to_hash (phash_of logo_data d)) eqn:E; [done|].
    rewrite (compute_hash_distance_Raise_l _ _ _ E) in Hle. lia.
  - intros Hthr c Hc.
    destruct (cluster_by_similarity_spec cfg logo_data) as (Hcov & Hdisj & Hcomp).
    destruct (Hcomp c Hc) as (Hne & _ & _). apply set_choose_L in Hne as [d Hd].
    assert (d ∈ valid_domains logo_data) as Hvalid by (apply Hcov; by exists c).
    exists d. split; [done|].
    assert ({[d]} ∈ cluster_by_similarity cfg logo_data) as Hin.
    { apply isolated_singleton; [done..|]. intros d' (_ & _ & _ & Hle).
      pose proof (compute_hash_distance_nonneg (phash_of logo_data d)
                    (phash_of logo_data d')).
      unfold domain_distance in Hle. lia. }
    apply list_elem_of_lookup in Hin as [i Hi]. apply list_elem_of_lookup in Hc as [j Hj].
    destruct (decide (i = j)) as [->|Hij]; [congruence|].
    destruct (Hdisj i j _ _ Hij Hi Hj d); [by apply elem_of_singleton|done].
Qed.

Lemma unreadable_code_is_alone_witness :
  NoDup (Py.keys unreadable_logos)
  ∧ cluster_by_similarity default_config unreadable_logos
    = [ {["a.com"]}; {["b.com"]} ]
  ∧ {["a.com"]} ∈ cluster_by_similarity default_config unreadable_logos.
Proof.
  assert (H1 : NoDup (Py.keys unreadable_logos)) by by_evaluation.
  split_and!; [done|reflexivity|].
  apply (proj1 (unreadable_code_is_alone default_config unreadable_logos H1));
    [by_evaluation|reflexivity|reflexivity].
Defined.

(** X10: two records with the same readable primary code are always put
    in one cluster when the threshold is not negative, and so are any two
    records whose codes are within the threshold. *)
Theorem duplicates_share_a_cluster (cfg : Config)
    (logo_data : Py.dict (option LogoData.t)) (u v : string) :
  NoDup (Py.keys logo_data) →
  u ∈ valid_domains logo_data →
  v ∈ valid_domains logo_data →
  (domain_distance logo_data u v ≤ NEAR_DUPLICATE_THRESHOLD cfg →
   same_cluster (cluster_by_similarity cfg logo_data) u v)
  ∧ (phash_of logo_data u = phash_of logo_data v →
     code_bits (phash_of logo_data u) ≠ None →
     0 ≤ NEAR_DUPLICATE_THRESHOLD cfg →
     same_cluster (cluster_by_similarity cfg logo_data) u v).
Proof.
  intros Hk Hu Hv.
  assert (domain_distance logo_data u v ≤ NEAR_DUPLICATE_THRESHOLD cfg →
          same_cluster (cluster_by_similarity cfg logo_data) u v) as Hnear.
  { intros Hle. apply same_cluster_chain; [done..|].
    destruct (decide (u = v)) as [->|Hne]; [done|].
    apply rtc_once. by split_and!. }
  split; [done|]. intros Heq Hbits Hthr. apply Hnear.
  unfold domain_distance. rewrite <- Heq. unfold code_bits in Hbits.
  destruct (ImageHash.hex_to_hash (phash_of logo_data u)) as [h|] eqn:E; [|done].
  rewrite (compute_hash_distance_Ok _ _ h h) by done.
  by rewrite count_differing_refl.
Qed.

Lemma duplicates_share_a_cluster_witness :
  NoDup (Py.keys three_logos)
  ∧ "a.com" ∈ valid_domains three_logos
  ∧ "b.com" ∈ valid_domains three_logos
  ∧ domain_distance three_logos "a.com" "b.com"
    ≤ NEAR_DUPLICATE_THRESHOLD default_config
  ∧ same_cluster (cluster_by_similarity default_config three_logos) "a.com" "b.com".
Proof.
  assert (H1 : NoDup (Py.keys three_logos)) by by_evaluation.
  assert (H2 : "a.com" ∈ valid_domains three_logos) by by_evaluation.
  assert (H3 : "b.com" ∈ valid_domains three_logos) by by_evaluation.
  assert (H4 : domain_distance three_logos "a.com" "b.com"
               ≤ NEAR_DUPLICATE_THRESHOLD default_config) by (vm_compute; discriminate).
  split_and!; [done..|].
  exact (proj1 (duplicates_share_a_cluster default_config three_logos
                  "a.com" "b.com" H1 H2 H3) H4).
Defined.

(** ** Counting the clusters *)

Lemma size_union_list_disjoint (cs : list (gset string)) :
  (∀ i j c1 c2, i ≠ j → cs !! i = Some c1 → cs !! j = Some c2 → c1 ## c2) →
  size (⋃ cs) = sum_list (size <$> cs).
Proof.
  induction cs as [|c cs IH]; intros Hdisj; [done|].
  simpl. rewrite size_union.
  - rewrite IH; [done|]. intros i j c1 c2 Hij Hi Hj.
    apply (Hdisj (S i) (S j)); [lia|done..].
  - intros x Hx (c' & Hc' & Hx')%elem_of_union_list.
    apply list_elem_of_lookup in Hc' as [j Hj].
    by apply (Hdisj 0%nat (S j) c c' ltac:(lia) eq_refl Hj x).
Qed.

Lemma sum_list_ge_length (cs : list (gset string)) :
  (∀ c, c ∈ cs → c ≠ ∅) → (length cs ≤ sum_list (size <$> cs))%nat.
Proof.
  induction cs as [|c cs IH]; intros Hne; [simpl; lia|].
  assert (size c ≠ 0)%nat.
  { intros ?%size_empty_inv. apply (Hne c); [left|]. by apply leibniz_equiv. }
  assert (length cs ≤ sum_list (size <$> cs))%nat as IH'.
  { apply IH. intros c' Hc'. apply Hne. by right. }
  change (sum_list (size <$> c :: cs)) with (size c + sum_list (size <$> cs))%nat.
  simpl length. lia.
Qed.

Lemma cluster_sizes_sum (cfg : Config)
    (logo_data : Py.dict (option LogoData.t)) :
  NoDup (Py.keys logo_data) →
  let clusters := cluster_by_similarity cfg logo_data in
  sum_list (size <$> clusters) = length (valid_domains logo_data)
  ∧ (length clusters ≤ length (valid_domains logo_data))%nat
  ∧ (valid_domains logo_data = [] ↔ clusters = []).
Proof.
  intros Hk clusters.
  destruct (cluster_by_similarity_spec cfg logo_data) as (Hcov & Hdisj & Hcomp).
  fold clusters in Hcov, Hdisj, Hcomp.
  assert (sum_list (size <$> clusters) = length (valid_domains logo_data)) as Hsum.
  { rewrite <- size_union_list_disjoint by done.
    rewrite <- (size_list_to_set (C:=gset string) (valid_domains logo_data))
      by by apply valid_domains_NoDup.
    f_equal. apply set_eq. intros x.
    rewrite elem_of_union_list, elem_of_list_to_set, <- Hcov. done. }
  assert (length clusters ≤ sum_list (size <$> clusters))%nat as Hlen.
  { apply sum_list_ge_length. intros c Hc. by destruct (Hcomp c Hc). }
  split_and!; [done|lia|].
  split.
  - intros E. apply nil_length_inv. rewrite E in Hsum. simpl in Hsum.
    rewrite Hsum in Hlen. lia.
  - intros E. apply nil_length_inv. rewrite <- Hsum, E. done.
Qed.

(** X11: the sizes of the clusters add up to the number of nodes, that is
    of domains with a primary code, and there are at most as many clusters
    as nodes. *)
Theorem cluster_sizes_add_up (cfg : Config)
    (logo_data : Py.dict (option LogoData.t)) :
  NoDup (Py.keys logo_data) →
  let clusters := cluster_by_similarity cfg logo_data in
  sum_list (size <$> clusters) = length (valid_domains logo_data)
  ∧ (length clusters ≤ length (valid_domains logo_data))%nat
  ∧ (valid_domains logo_data = [] ↔ clusters = []).
Proof. apply cluster_sizes_sum. Qed.

Lemma cluster_sizes_add_up_witness :
  NoDup (Py.keys three_logos)
  ∧ sum_list (size <$> cluster_by_similarity default_config three_logos) = 4%nat
  ∧ length (valid_domains three_logos) = 4%nat.
Proof.
  assert (H1 : NoDup (Py.keys three_logos)) by by_evaluation.
  split_and!; [done| |reflexivity].
  exact (proj1 (cluster_sizes_add_up default_config three_logos H1)).
Defined.

(** ** Batches do not change what is extracted *)

Section SetAll.
Context {V : Type} (f : string → V).

Lemma set_same d v (m : Py.dict V) : Py.get d m = Some v → Py.set d v m = m.
Proof.
  induction m as [|[k v'] m IH]; simpl; [done|].
  case_decide as E; [by intros [= ->]; subst|]. intros Hg. by rewrite IH.
Qed.

Lemma keys_set_list d v (m : Py.dict V) :
  Py.keys (Py.set d v m)
  = if decide (d ∈ Py.keys m) then Py.keys m else Py.keys m ++ [d].
Proof.
  unfold Py.keys. induction m as [|[k v'] m IH].
  - destruct (decide (d ∈ ([] : Py.dict V).*1)) as [Hin|_]; [|done].
    by apply elem_of_nil in Hin.
  - simpl Py.set. destruct (decide (d = k)) as [->|E].
    + destruct (decide (k ∈ ((k, v') :: m).*1)) as [_|Hn]; [done|].
      exfalso. apply Hn. left.
    + change (((k, v') :: Py.set d v m).*1) with (k :: (Py.set d v m).*1).
      rewrite IH. change (((k, v') :: m).*1) with (k :: m.*1).
      destruct (decide (d ∈ m.*1)) as [Hin|Hin];
        destruct (decide (d ∈ k :: m.*1)) as [Hin'|Hin']; try done.
      * exfalso. apply Hin'. by right.
      * apply elem_of_cons in Hin' as [?|?]; done.
Qed.

Lemma set_all_snoc l d acc :
  set_all f (l ++ [d]) acc = Py.set d (f d) (set_all f l acc).
Proof. unfold set_all. by rewrite fold_left_app. Qed.

Lemma set_all_app l1 l2 acc :
  set_all f (l1 ++ l2) acc = set_all f l2 (set_all f l1 acc).
Proof. unfold set_all. by rewrite fold_left_app. Qed.

Lemma set_all_tabulates l : tabulates f l (set_all f l []).
Proof. apply (tabulates_fold f [] [] l), tabulates_nil. Qed.

Lemma set_all_get l acc d :
  d ∈ l → Py.get d (set_all f l acc) = Some (f d).
Proof.
  induction l as [|x l IH] using rev_ind; [by intros ?%elem_of_nil|].
  rewrite set_all_snoc, get_set. case_decide as E; [by subst|].
  intros [?| ->%list_elem_of_singleton]%elem_of_app; [auto|done].
Qed.

(** Updating with a map built from nothing is building onto the map. *)
Lemma update_set_all l acc :
  Py.update acc (set_all f l []) = set_all f l acc.
Proof.
  rewrite (update_tabulated f acc _ l) by apply set_all_tabulates.
  fold (set_all f (Py.keys (set_all f l [])) acc).
  induction l as [|d l IH] using rev_ind; [done|].
  rewrite !set_all_snoc, keys_set_list.
  destruct (set_all_tabulates l) as (_ & Hk & _).
  case_decide as Hin.
  - rewrite IH. symmetry. apply set_same, set_all_get. by apply Hk.
  - by rewrite set_all_snoc, IH.
Qed.

End SetAll.

Lemma extract_batch_set_all cfg w domains :
  0 < MAX_CONCURRENT cfg →
  extract_batch cfg w domains = Ok (set_all (extract_logo_url w) domains []).
Proof.
  intros Hc. unfold extract_batch. rewrite Semaphore_Ok by done. simpl.
  rewrite run_under_Ok by done. simpl. by rewrite collect_urls_fold.
Qed.

Lemma extract_batches_set_all cfg w batches logo_urls :
  0 < MAX_CONCURRENT cfg →
  for_each
    (λ logo_urls batch,
       batch_results ← extract_batch cfg w batch;
       Ok (Py.update logo_urls batch_results))
    batches logo_urls
  = Ok (set_all (extract_logo_url w) (concat batches) logo_urls).
Proof.
  intros Hc. revert logo_urls.
  induction batches as [|batch batches IH]; intros logo_urls; simpl; [done|].
  rewrite extract_batch_set_all by done. simpl.
  by rewrite IH, update_set_all, set_all_app.
Qed.

Lemma extract_all_logos_sequential cfg w domains :
  0 < BATCH_SIZE cfg → 0 < MAX_CONCURRENT cfg →
  extract_all_logos cfg w domains = Ok (extract_sequentially w domains).
Proof.
  intros Hb Hc. unfold extract_all_logos. rewrite decide_False by lia.
  destruct (slices_Ok (BATCH_SIZE cfg) domains Hb) as (batches & -> & Hcat). simpl.
  by rewrite extract_batches_set_all, Hcat.
Qed.

(** X12: with a positive batch size and concurrency limit,
    [extract_all_logos] returns the very dictionary, entries and order, that
    asking [extract_logo_url] about one domain after the other builds; so
    the batch size and the concurrency limit have no influence on it. *)
Theorem extraction_independent_of_batching (cfg1 cfg2 : Config) (w : World)
    (domains : list string) :
  0 < BATCH_SIZE cfg1 → 0 < MAX_CONCURRENT cfg1 →
  0 < BATCH_SIZE cfg2 → 0 < MAX_CONCURRENT cfg2 →
  extract_all_logos cfg1 w domains = Ok (extract_sequentially w domains)
  ∧ extract_all_logos cfg1 w domains = extract_all_logos cfg2 w domains.
Proof.
  intros Hb1 Hc1 Hb2 Hc2.
  by rewrite !extract_all_logos_sequential.
Qed.

Lemma extraction_independent_of_batching_witness :
  extract_all_logos (with_batching default_config 1 1) example_world
    ["a.com"; "b.com"; "a.com"; "c.com"]
  = extract_all_logos (with_batching default_config 2 20) example_world
      ["a.com"; "b.com"; "a.com"; "c.com"]
  ∧ extract_all_logos (with_batching default_config 2 20) example_world
      ["a.com"; "b.com"; "a.com"; "c.com"]
    = Ok [ ("a.com", Some "https://a.com/logo.png");
           ("b.com", Some "https://b.com/favicon.ico");
           ("c.com", Some "https://c.com/favicon.ico") ].
Proof.
  split; [|reflexivity].
  apply (extraction_independent_of_batching
           (with_batching default_config 1 1) (with_batching default_config 2 20));
    reflexivity.
Defined.

(** ** The order of the strategies *)

Lemma try_paths_Some w base_url paths url :
  try_paths w base_url paths = Some url
  ↔ ∃ before path after,
      paths = before ++ path :: after
      ∧ url = base_url +:+ path
      ∧ session_head w url = Ok 200
      ∧ ∀ p, p ∈ before → session_head w (base_url +:+ p) ≠ Ok 200.
Proof.
  induction paths as [|path rest IH]; simpl.
  - split; [done|]. by intros ([|??] & ? & ? & ? & _).
  - split.
    + intros H. destruct (session_head w (base_url +:+ path)) as [status|e] eqn:E.
      * destruct (decide (status = 200)) as [->|Hs].
        { injection H as <-. exists [], path, rest. split_and!; [done..|].
          by intros p ?%elem_of_nil. }
        apply IH in H as (before & p & after & -> & -> & H200 & Hbefore).
        exists (path :: before), p, after. split_and!; [done..|].
        intros q [->|Hq]%elem_of_cons; [|by apply Hbefore].
        rewrite E. congruence.
      * apply IH in H as (before & p & after & -> & -> & H200 & Hbefore).
        exists (path :: before), p, after. split_and!; [done..|].
        intros q [->|Hq]%elem_of_cons; [|by apply Hbefore].
        by rewrite E.
    + intros ([|q before] & p & after & Hl & -> & H200 & Hbefore); simplify_eq/=.
      * rewrite H200. by rewrite decide_True.
      * assert (session_head w (base_url +:+ q) ≠ Ok 200) as Hq by (apply Hbefore; left).
        assert (try_paths w base_url (before ++ p :: after) = Some (base_url +:+ p)) as Hr.
        { apply IH. exists before, p, after. split_and!; [done..|].
          intros p' Hp'. apply Hbefore. by right. }
        destruct (session_head w (base_url +:+ q)) as [status|e]; [|done].
        rewrite decide_False; [done|]. congruence.
Qed.

Lemma try_paths_None w base_url paths :
  try_paths w base_url paths = None
  ↔ ∀ p, p ∈ paths → session_head w (base_url +:+ p) ≠ Ok 200.
Proof.
  induction paths as [|path rest IH]; simpl.
  - split; [|done]. by intros _ p ?%elem_of_nil.
  - destruct (session_head w (base_url +:+ path)) as [status|e] eqn:E.
    + destruct (decide (status = 200)) as [->|Hs].
      * split; [done|]. intros H. destruct (H path); [left|done].
      * rewrite IH. split.
        -- intros H p [->|Hp]%elem_of_cons; [rewrite E; congruence|by apply H].
        -- intros H p Hp. apply H. by right.
    + rewrite IH. split.
      * intros H p [->|Hp]%elem_of_cons; [by rewrite E|by apply H].
      * intros H p Hp. apply H. by right.
Qed.

Lemma try_paths_nonempty w base_url paths url :
  try_paths w base_url paths = Some url → (∀ p, p ∈ paths → p ≠ "") → url ≠ "".
Proof.
  intros (before & path & after & -> & -> & _)%try_paths_Some Hne.
  assert (path ≠ "") as Hp by (apply Hne, elem_of_app; right; left).
  destruct base_url; [done|]. done.
Qed.

(** X13: [_try_common_paths] returns the URL of the first of the nine
    paths, in the order of the list, to which a [HEAD] request answers 200,
    a path whose request raises counting as one that does not; it returns
    nothing exactly when no path answers 200. *)
Theorem common_paths_first_hit (w : World) (base_url : string) :
  (∀ url, _try_common_paths w base_url = Some url
          ↔ ∃ before path after,
              common_paths = before ++ path :: after
              ∧ url = base_url +:+ path
              ∧ session_head w url = Ok 200
              ∧ ∀ p, p ∈ before → session_head w (base_url +:+ p) ≠ Ok 200)
  ∧ (_try_common_paths w base_url = None
     ↔ ∀ p, p ∈ common_paths → session_head w (base_url +:+ p) ≠ Ok 200)
  ∧ length common_paths = 9%nat.
Proof.
  split_and!; [|apply try_paths_None|done].
  intros url. apply try_paths_Some.
Qed.

Example common_paths_example :
  _try_common_paths example_head_world "https://a.com"
  = Some "https://a.com/assets/logo.svg"
  ∧ _try_common_paths example_head_world "https://b.com" = None.
Proof. by vm_compute. Qed.

(** X14: [extract_logo_url] prefers the URL found in the page, then the
    first common path that answers 200, then the favicon: a non-empty URL
    from the page is returned whatever the common paths answer, and a page
    that cannot be fetched, or is answered with a status other than 200,
    counts as a page without a logo. *)
Theorem strategy_order (w : World) (domain : string) :
  let base_url := "https://" +:+ domain in
  (∀ u, _extract_from_html w base_url = Some u → u ≠ "" →
        extract_logo_url w domain = Some u)
  ∧ (Py.opt_str_truthy (_extract_from_html w base_url) = false →
     ∀ u, _try_common_paths w base_url = Some u →
          extract_logo_url w domain = Some u)
  ∧ (Py.opt_str_truthy (_extract_from_html w base_url) = false →
     _try_common_paths w base_url = None →
     extract_logo_url w domain = Some (base_url +:+ "/favicon.ico"))
  ∧ (∀ response, session_get w base_url = Ok response →
                 Response.status response ≠ 200 →
                 _extract_from_html w base_url = None)
  ∧ (∀ e, session_get w base_url = Raise e → _extract_from_html w base_url = None).
Proof.
  intros base_url. unfold extract_logo_url, extract_logo_url_with. fold base_url.
  simpl. split_and!.
  - intros u -> Hu. simpl. by rewrite (proj2 (str_truthy_nonempty u) Hu).
  - intros -> u Hp. simpl. rewrite Hp. simpl.
    assert (u ≠ "") as Hu.
    { apply try_paths_Some in Hp as (_ & path & _ & _ & -> & _). done. }
    by rewrite (proj2 (str_truthy_nonempty u) Hu).
  - intros -> ->. done.
  - intros response E Hs. unfold _extract_from_html. rewrite E. simpl.
    by rewrite decide_True.
  - intros e E. unfold _extract_from_html. by rewrite E.
Qed.

Example strategy_order_example :
  extract_logo_url example_world "a.com" = Some "https://a.com/logo.png"
  ∧ extract_logo_url example_head_world "a.com" = Some "https://a.com/assets/logo.svg"
  ∧ extract_logo_url example_head_world "b.com" = Some "https://b.com/favicon.ico".
Proof. by vm_compute. Qed.

(** ** The batches *)

Lemma slices_fuel_length {A} (fuel n : nat) (l : list A) :
  (0 < n)%nat → (length l ≤ fuel)%nat →
  Z.of_nat (length (Py.slices_fuel fuel n l))
  = (Z.of_nat (length l) + Z.of_nat n - 1) / Z.of_nat n.
Proof.
  intros Hn. revert l. induction fuel as [|fuel IH]; intros l Hl.
  - destruct l; [|simpl in Hl; lia]. simpl.
    symmetry. apply Z.div_small. lia.
  - destruct l as [|x l]; [simpl; symmetry; apply Z.div_small; lia|].
    change (Py.slices_fuel (S fuel) n (x :: l))
      with (take n (x :: l) :: Py.slices_fuel fuel n (drop n (x :: l))).
    change (length (?c :: ?cs)) with (S (length cs)).
    rewrite Nat2Z.inj_succ, IH by (rewrite length_drop; simpl in *; lia).
    rewrite length_drop. change (length (x :: l)) with (S (length l)) in *.
    set (len := S (length l)) in *.
    assert (1 ≤ len)%nat by (unfold len; lia).
    destruct (decide (len ≤ n)%nat) as [Hle|Hgt].
    + replace (Z.of_nat (len - n)) with 0 by lia.
      rewrite (Z.div_small (0 + Z.of_nat n - 1)) by lia.
      change (Z.succ 0) with 1. apply (Z.div_unique _ _ 1 (Z.of_nat len - 1)); lia.
    + replace (Z.of_nat (len - n) + Z.of_nat n - 1) with (Z.of_nat len - 1) by lia.
      replace (Z.of_nat len + Z.of_nat n - 1)
        with ((Z.of_nat len - 1) + 1 * Z.of_nat n) by lia.
      rewrite Z.div_add by lia. lia.
Qed.

Lemma slices_fuel_sizes {A} (fuel n : nat) (l : list A) :
  (0 < n)%nat →
  let parts := Py.slices_fuel fuel n l in
  (∀ c, c ∈ parts → (0 < length c ≤ n)%nat)
  ∧ (∀ i c, (S i < length parts)%nat → parts !! i = Some c → length c = n).
Proof.
  intros Hn. revert l. induction fuel as [|fuel IH]; intros l.
  - simpl. split; [by intros c ?%elem_of_nil|]. intros i c Hi. simpl in Hi. lia.
  - destruct l as [|x l].
    { simpl. split; [by intros c ?%elem_of_nil|]. intros i c Hi. simpl in Hi. lia. }
    change (Py.slices_fuel (S fuel) n (x :: l))
      with (take n (x :: l) :: Py.slices_fuel fuel n (drop n (x :: l))).
    destruct (IH (drop n (x :: l))) as [IH1 IH2]. cbv zeta. split.
    + intros c [->|Hc]%elem_of_cons; [|by apply IH1].
      rewrite length_take. simpl. lia.
    + intros [|i] c Hi Hc.
      * injection Hc as <-. rewrite length_take.
        destruct (Py.slices_fuel fuel n (drop n (x :: l))) as [|c' cs] eqn:E;
          [simpl in Hi; lia|].
        assert (0 < length (drop n (x :: l)))%nat; [|rewrite length_drop in *; lia].
        destruct (drop n (x :: l)); [|simpl; lia]. by destruct fuel.
      * apply (IH2 i); [simpl in Hi; lia|done].
Qed.

(** X15: for a positive batch size the batches of [extract_all_logos] are
    the input cut in consecutive pieces: put end to end they are the input,
    none is empty or longer than the batch size, all but the last one are
    full, and there are [total_batches] of them, the number announced to the
    progress bar. *)
Theorem batches_cut_the_input (cfg : Config) (domains : list string) :
  0 < BATCH_SIZE cfg →
  ∃ batches,
    Py.slices (BATCH_SIZE cfg) domains = Ok batches
    ∧ concat batches = domains
    ∧ Z.of_nat (length batches) = total_batches cfg domains
    ∧ (∀ b, b ∈ batches → 0 < Z.of_nat (length b) ≤ BATCH_SIZE cfg)
    ∧ (∀ i b, (S i < length batches)%nat → batches !! i = Some b →
              Z.of_nat (length b) = BATCH_SIZE cfg).
Proof.
  intros Hb. unfold Py.slices. rewrite !decide_False by lia.
  eexists. split; [done|].
  assert (0 < Z.to_nat (BATCH_SIZE cfg))%nat as Hn by lia.
  destruct (slices_fuel_sizes (length domains) (Z.to_nat (BATCH_SIZE cfg)) domains Hn)
    as [Hsz Hfull].
  split_and!.
  - apply slices_fuel_concat; lia.
  - rewrite slices_fuel_length by lia. unfold total_batches.
    by rewrite Z2Nat.id by lia.
  - intros b Hin. specialize (Hsz b Hin). lia.
  - intros i b Hi Hin. specialize (Hfull i b Hi Hin). lia.
Qed.

Lemma batches_cut_the_input_witness :
  0 < BATCH_SIZE (with_batching default_config 2 20)
  ∧ Py.slices 2 ["a.com"; "b.com"; "c.com"; "d.com"; "e.com"]
    = Ok [["a.com"; "b.com"]; ["c.com"; "d.com"]; ["e.com"]]
  ∧ total_batches (with_batching default_config 2 20)
      ["a.com"; "b.com"; "c.com"; "d.com"; "e.com"] = 3
  ∧ ∃ batches,
      Py.slices 2 ["a.com"; "b.com"; "c.com"; "d.com"; "e.com"] = Ok batches
      ∧ concat batches = ["a.com"; "b.com"; "c.com"; "d.com"; "e.com"]
      ∧ Z.of_nat (length batches) = 3.
Proof.
  assert (H1 : 0 < BATCH_SIZE (with_batching default_config 2 20)) by reflexivity.
  split_and!; [done|reflexivity|reflexivity|].
  destruct (batches_cut_the_input (with_batching default_config 2 20)
              ["a.com"; "b.com"; "c.com"; "d.com"; "e.com"] H1)
    as (batches & E & Hcat & Hlen & _).
  exists batches. split_and!; [exact E|exact Hcat|exact Hlen].
Defined.

(** ** Sizes that are not positive *)

(** X16: the two coordinators do not check their sizes: a batch size of 0
    makes [extract_all_logos] raise [ZeroDivisionError] on any input, a
    negative concurrency limit or a chunk size of 0 makes
    [process_all_images] raise [ValueError], and under a negative chunk size
    [process_all_images] hashes nothing and returns the empty map. *)
Theorem sizes_are_not_checked (cfg : Config) (w : World)
    (as_completed : Scheduler) (domains : list string)
    (logo_urls : Py.dict (option string)) :
  (BATCH_SIZE cfg = 0 → extract_all_logos cfg w domains = Raise ZeroDivisionError)
  ∧ (MAX_CONCURRENT cfg < 0 →
     process_all_images cfg w as_completed logo_urls = Raise ValueError)
  ∧ (0 ≤ MAX_CONCURRENT cfg → HASH_CHUNK_SIZE cfg = 0 →
     process_all_images cfg w as_completed logo_urls = Raise ValueError)
  ∧ (0 ≤ MAX_CONCURRENT cfg → HASH_CHUNK_SIZE cfg < 0 →
     process_all_images cfg w as_completed logo_urls = Ok []).
Proof.
  split_and!.
  - intros E. unfold extract_all_logos. by destruct (decide (BATCH_SIZE cfg = 0)).
  - intros Hm. unfold process_all_images, Semaphore.
    destruct (decide (MAX_CONCURRENT cfg < 0)); [done|lia].
  - intros Hm E. unfold process_all_images, Semaphore, Py.slices.
    destruct (decide (MAX_CONCURRENT cfg < 0)); [lia|]. simpl.
    by destruct (decide (HASH_CHUNK_SIZE cfg = 0)).
  - intros Hm E. unfold process_all_images, Semaphore, Py.slices.
    destruct (decide (MAX_CONCURRENT cfg < 0)); [lia|]. simpl.
    destruct (decide (HASH_CHUNK_SIZE cfg = 0)); [lia|].
    destruct (decide (HASH_CHUNK_SIZE cfg < 0)); [done|lia].
Qed.

Example sizes_are_not_checked_example :
  extract_all_logos (with_batching default_config 0 20) example_world []
  = Raise ZeroDivisionError
  ∧ process_all_images (with_scheduling default_config 0 20) example_world id
      example_urls = Raise ValueError
  ∧ process_all_images (with_scheduling default_config (-1) 20) example_world id
      example_urls = Ok []
  ∧ process_all_images (with_scheduling default_config 200 (-1)) example_world id
      example_urls = Raise ValueError.
Proof. by vm_compute. Qed.

(** ** The statistics *)

Lemma count_extracted_all (logo_urls : Py.dict (option string)) :
  (∀ item, item ∈ logo_urls → Py.opt_str_truthy item.2 = true) →
  count_extracted logo_urls = Z.of_nat (length logo_urls).
Proof.
  intros Hall. unfold count_extracted. f_equal. f_equal.
  unfold Py.dict in *. induction logo_urls as [|item logo_urls IH]; [done|].
  rewrite filter_cons_True by (apply Hall; left).
  f_equal. apply IH. intros item' Hin. apply Hall. by right.
Qed.

Lemma set_all_length {V} (f : string → V) l :
  length (set_all f l []) = length (remove_dups l).
Proof.
  destruct (set_all_tabulates f l) as (Hnd & Hk & _).
  rewrite <- (length_fmap fst (set_all f l [])).
  apply Permutation_length, NoDup_Permutation; [done|apply NoDup_remove_dups|].
  intros x. rewrite elem_of_remove_dups. apply Hk.
Qed.

Lemma extracted_urls_truthy w l item :
  item ∈ set_all (extract_logo_url w) l [] → Py.opt_str_truthy item.2 = true.
Proof.
  destruct (set_all_tabulates (extract_logo_url w) l) as (Hnd & Hk & Hg).
  destruct item as [d url]. intros Hin. simpl.
  assert (d ∈ l) as Hd by (apply Hk, list_elem_of_fmap; by exists (d, url)).
  apply (elem_get_Some _ _ _ Hnd) in Hin. rewrite (Hg d Hd) in Hin.
  injection Hin as <-. apply opt_str_truthy_Some, extract_logo_url_nonempty.
Qed.

Lemma extract_batches_stats cfg w batches done n :
  0 < MAX_CONCURRENT cfg →
  for_each
    (λ (st : Py.dict (option string) * Z) batch,
       batch_results ← extract_batch cfg w batch;
       let logo_urls := Py.update st.1 batch_results in
       Ok (logo_urls, count_extracted logo_urls))
    batches (set_all (extract_logo_url w) done [], n)
  = Ok (set_all (extract_logo_url w) (done ++ concat batches) [],
        if decide (batches = []) then n
        else Z.of_nat (length (remove_dups (done ++ concat batches)))).
Proof.
  intros Hc. revert done n.
  induction batches as [|batch batches IH]; intros done n.
  - simpl. by rewrite app_nil_r.
  - simpl for_each. rewrite extract_batch_set_all by done. simpl.
    rewrite update_set_all, <- set_all_app, IH.
    rewrite <- app_assoc. f_equal. f_equal.
    destruct (decide (batches = [])) as [->|_]; [|done].
    simpl. rewrite app_nil_r, count_extracted_all by apply extracted_urls_truthy.
    by rewrite set_all_length.
Qed.

Lemma extract_all_logos_stats_Ok (cfg : Config) (w : World)
    (domains : list string) (logos_extracted : Z) :
  0 < BATCH_SIZE cfg →
  0 < MAX_CONCURRENT cfg →
  ∃ logo_urls,
    extract_all_logos cfg w domains = Ok logo_urls
    ∧ extract_all_logos_stats cfg w domains logos_extracted
      = Ok (logo_urls,
            if decide (domains = []) then logos_extracted
            else Z.of_nat (length (remove_dups domains)))
    ∧ length logo_urls = length (remove_dups domains).
Proof.
  intros Hb Hc. exists (extract_sequentially w domains).
  split_and!; [by apply extract_all_logos_sequential| |apply set_all_length].
  unfold extract_all_logos_stats. rewrite decide_False by lia.
  destruct (slices_Ok (BATCH_SIZE cfg) domains Hb) as (batches & Hsl & Hcat).
  rewrite Hsl. change (Ok batches ≫= ?f) with (f batches). cbv beta.
  pose proof (extract_batches_stats cfg w batches [] logos_extracted Hc) as Hst.
  change (set_all (extract_logo_url w) [] []) with ([] : Py.dict (option string)) in Hst.
  etrans; [exact Hst|]. change ([] ++ concat batches) with (concat batches).
  rewrite Hcat. f_equal. f_equal. clear Hst.
  destruct (decide (batches = [])) as [->|Hne]; simpl in Hcat; subst.
  - by rewrite decide_True.
  - rewrite decide_False; [done|]. intros E.
    unfold Py.slices in Hsl. rewrite !decide_False in Hsl by lia.
    rewrite E in Hsl. by injection Hsl as <-.
Qed.

(** X17: with a positive batch size and a positive concurrency limit,
    after [extract_all_logos] on at least one domain, the statistic
    ['logos_extracted'] is the number of different domains of the input,
    whatever the sites answered: a domain that only got its favicon
    fallback counts as extracted.  On no domain at all the statistic keeps
    its value. *)
Theorem extracted_statistic_counts_domains (cfg : Config) (w : World)
    (domains : list string) (logos_extracted : Z) :
  0 < BATCH_SIZE cfg →
  0 < MAX_CONCURRENT cfg →
  ∃ logo_urls,
    extract_all_logos cfg w domains = Ok logo_urls
    ∧ extract_all_logos_stats cfg w domains logos_extracted
      = Ok (logo_urls,
            if decide (domains = []) then logos_extracted
            else Z.of_nat (length (remove_dups domains)))
    ∧ length logo_urls = length (remove_dups domains).
Proof. apply extract_all_logos_stats_Ok. Qed.

Lemma extracted_statistic_counts_domains_witness :
  0 < BATCH_SIZE (with_batching default_config 2 20)
  ∧ 0 < MAX_CONCURRENT (with_batching default_config 2 20)
  ∧ extract_all_logos_stats (with_batching default_config 2 20) example_world
      ["a.com"; "b.com"; "a.com"; "c.com"] 0
    = Ok ([ ("a.com", Some "https://a.com/logo.png");
            ("b.com", Some "https://b.com/favicon.ico");
            ("c.com", Some "https://c.com/favicon.ico") ], 3).
Proof.
  assert (H1 : 0 < BATCH_SIZE (with_batching default_config 2 20)) by reflexivity.
  assert (H2 : 0 < MAX_CONCURRENT (with_batching default_config 2 20)) by reflexivity.
  split_and!; [done..|].
  destruct (extracted_statistic_counts_domains (with_batching default_config 2 20)
              example_world ["a.com"; "b.com"; "a.com"; "c.com"] 0 H1 H2)
    as (logo_urls & E & Hst & _).
  rewrite Hst. vm_compute in E. injection E as <-. reflexivity.
Defined.

Lemma length_set_fresh {V} k (v : V) (m : Py.dict V) :
  k ∉ Py.keys m → length (Py.set k v m) = S (length m).
Proof.
  unfold Py.keys. induction m as [|[k' v'] m IH]; [done|].
  intros Hk. simpl. rewrite decide_False.
  - simpl. rewrite IH; [done|]. intros Hin. apply Hk. by right.
  - intros ->. apply Hk. left.
Qed.

Lemma collect_data_stats_fold done_tasks logo_data n :
  fold_left collect_data_stats done_tasks (logo_data, n)
  = (fold_left collect_data done_tasks logo_data,
     n + Z.of_nat (length (filter (λ t, is_Some t.2) done_tasks))).
Proof.
  revert logo_data n.
  induction done_tasks as [|[d [r|]] done_tasks IH]; intros logo_data n.
  - simpl. f_equal. lia.
  - simpl fold_left. unfold collect_data_stats at 2, collect_data at 2. simpl.
    rewrite IH. f_equal. lia.
  - simpl fold_left. unfold collect_data_stats at 2, collect_data at 2. simpl.
    by rewrite IH.
Qed.

Lemma collect_data_length done_tasks logo_data :
  NoDup done_tasks.*1 →
  (∀ d, d ∈ done_tasks.*1 → d ∉ Py.keys logo_data) →
  length (fold_left collect_data done_tasks logo_data)
  = (length logo_data + length (filter (λ t, is_Some t.2) done_tasks))%nat.
Proof.
  revert logo_data.
  induction done_tasks as [|[d o] done_tasks IH]; intros logo_data Hnd Hfresh.
  - simpl. lia.
  - apply NoDup_cons in Hnd as [Hd Hnd]. simpl fold_left.
    destruct o as [r|]; unfold collect_data at 2; simpl.
    + rewrite IH; [|done|].
      * rewrite length_set_fresh by (apply Hfresh; left). simpl. lia.
      * intros d' Hd' [->|Hin]%keys_set; [done|].
        by apply (Hfresh d'); [right|].
    + rewrite IH; [done|done|].
      intros d' Hd'. apply Hfresh. by right.
Qed.

Lemma hash_chunks_stats cfg w as_completed sem chunks logo_data n :
  0 < sem →
  for_each
    (λ st chunk,
       tasks ← run_under sem (map (worker cfg w) chunk);
       Ok (fold_left collect_data_stats (as_completed tasks) st))
    chunks (logo_data, n)
  = Ok (fold_left collect_data (completed cfg w as_completed chunks) logo_data,
        n + Z.of_nat (length (filter (λ t, is_Some t.2)
                                (completed cfg w as_completed chunks)))).
Proof.
  intros Hs. unfold completed. revert logo_data n.
  induction chunks as [|chunk chunks IH]; intros logo_data n; simpl.
  - do 2 f_equal. lia.
  - rewrite run_under_Ok by done. simpl.
    rewrite collect_data_stats_fold, IH, fold_left_app.
    do 2 f_equal. rewrite filter_app, length_app. lia.
Qed.

Lemma process_all_images_stats_Ok (cfg : Config) (w : World)
    (as_completed : Scheduler) (logo_urls : Py.dict (option string)) :
  0 < HASH_CHUNK_SIZE cfg →
  0 < MAX_CONCURRENT cfg →
  fair as_completed →
  NoDup (Py.keys logo_urls) →
  ∃ logo_data,
    process_all_images cfg w as_completed logo_urls = Ok logo_data
    ∧ process_all_images_stats cfg w as_completed logo_urls
      = Ok (logo_data, Z.of_nat (length logo_data))
    ∧ (length logo_data ≤ length (work_items logo_urls))%nat.
Proof.
  intros Hchunk Hconc Hfair Hnd.
  unfold process_all_images, process_all_images_stats.
  rewrite Semaphore_Ok by done. simpl.
  destruct (slices_Ok (HASH_CHUNK_SIZE cfg) (work_items logo_urls) Hchunk)
    as (chunks & -> & Hcat). simpl.
  rewrite hash_chunks_Ok, hash_chunks_stats by done.
  pose proof (completed_Permutation cfg w as_completed chunks Hfair) as Hperm.
  rewrite Hcat in Hperm.
  set (tasks := completed cfg w as_completed chunks) in *.
  assert (length (fold_left collect_data tasks [])
          = length (filter (λ t, is_Some t.2) tasks)) as Hlen.
  { rewrite collect_data_length; [done| |by intros ? _ ?%elem_of_nil].
    rewrite Hperm, worker_keys. eapply sublist_NoDup; [exact Hnd|].
    apply work_items_sublist. }
  eexists. split_and!; [done| |].
  - do 2 f_equal. rewrite Hlen. lia.
  - rewrite Hlen. etrans; [apply length_filter|].
    by rewrite Hperm, length_map.
Qed.

(** X18: with a positive chunk size and a positive concurrency limit, tasks
    that each complete once and no domain listed twice, the counter behind
    the statistic ['logos_processed'] ends as the
    number of entries of the map that [process_all_images] returns, which is
    at most the number of domains with a non-empty URL. *)
Theorem processed_statistic_counts_records (cfg : Config) (w : World)
    (as_completed : Scheduler) (logo_urls : Py.dict (option string)) :
  0 < HASH_CHUNK_SIZE cfg →
  0 < MAX_CONCURRENT cfg →
  fair as_completed →
  NoDup (Py.keys logo_urls) →
  ∃ logo_data,
    process_all_images cfg w as_completed logo_urls = Ok logo_data
    ∧ process_all_images_stats cfg w as_completed logo_urls
      = Ok (logo_data, Z.of_nat (length logo_data))
    ∧ (length logo_data ≤ length (work_items logo_urls))%nat.
Proof. apply process_all_images_stats_Ok. Qed.

Lemma processed_statistic_counts_records_witness :
  0 < HASH_CHUNK_SIZE default_config
  ∧ 0 < MAX_CONCURRENT default_config
  ∧ fair reverse
  ∧ NoDup (Py.keys example_urls)
  ∧ process_all_images_stats default_config example_world reverse example_urls
    = Ok ([ ("c.com", example_record "https://c.com/favicon.ico");
            ("a.com", example_record "https://a.com/logo.png") ], 2).
Proof.
  assert (H1 : 0 < HASH_CHUNK_SIZE default_config) by reflexivity.
  assert (H2 : 0 < MAX_CONCURRENT default_config) by reflexivity.
  assert (H3 : NoDup (Py.keys example_urls)) by by_evaluation.
  split_and!; [done|done|exact fair_reverse|done|].
  destruct (processed_statistic_counts_records default_config example_world
              reverse example_urls H1 H2 fair_reverse H3)
    as (logo_data & E & Hst & _).
  rewrite Hst. vm_compute in E. injection E as <-. reflexivity.
Defined.

(** ** The output files *)

Lemma elem_of_concat {A} (x : A) (ls : list (list A)) :
  x ∈ concat ls ↔ ∃ l, l ∈ ls ∧ x ∈ l.
Proof.
  induction ls as [|l ls IH]; simpl.
  - split; [by intros ?%elem_of_nil|]. by intros (l & ?%elem_of_nil & _).
  - rewrite elem_of_app, IH. split.
    + intros [?|(l' & ? & ?)]; [exists l; split; [left|done]|].
      exists l'. split; [by right|done].
    + intros (l' & [->|?]%elem_of_cons & ?); [by left|]. right. by exists l'.
Qed.

Lemma length_concat_sum {A} (ls : list (list A)) :
  length (concat ls) = sum_list (length <$> ls).
Proof. induction ls as [|l ls IH]; simpl; [done|]. by rewrite length_app, IH. Qed.

Section Orders.
Variable order : SetOrder.
Hypothesis Horder : faithful order.

Lemma elem_of_order c d : d ∈ order c ↔ d ∈ c.
Proof. by rewrite (Horder c), elem_of_elements. Qed.

Lemma NoDup_order c : NoDup (order c).
Proof. rewrite (Horder c). apply NoDup_elements. Qed.

Lemma length_order c : length (order c) = size c.
Proof. by rewrite (Horder c). Qed.

(** The members of all clusters, cluster after cluster. *)
Lemma elem_of_members clusters d :
  d ∈ concat (order <$> clusters) ↔ clustered clusters d.
Proof.
  rewrite elem_of_concat. unfold clustered. split.
  - intros (l & (c & -> & Hc)%list_elem_of_fmap & Hd). exists c.
    split; [done|]. by apply elem_of_order.
  - intros (c & Hc & Hd). exists (order c). split.
    + apply list_elem_of_fmap. by exists c.
    + by apply elem_of_order.
Qed.

Lemma NoDup_members clusters :
  (∀ i j c1 c2, i ≠ j → clusters !! i = Some c1 → clusters !! j = Some c2 → c1 ## c2) →
  NoDup (concat (order <$> clusters)).
Proof.
  induction clusters as [|c clusters IH]; intros Hdisj; simpl; [apply NoDup_nil_2|].
  apply NoDup_app. split_and!.
  - apply NoDup_order.
  - intros d Hd%elem_of_order (c' & Hc' & Hd')%elem_of_members.
    apply list_elem_of_lookup in Hc' as [j Hj].
    by apply (Hdisj 0%nat (S j) c c' ltac:(lia) eq_refl Hj d).
  - apply IH. intros i j c1 c2 Hij Hi Hj. apply (Hdisj (S i) (S j)); [lia|done..].
Qed.

Lemma length_members clusters :
  length (concat (order <$> clusters)) = sum_list (size <$> clusters).
Proof.
  rewrite length_concat_sum, <- list_fmap_compose. f_equal.
  apply list_fmap_ext. intros _ c _. apply length_order.
Qed.

End Orders.

Lemma concat_imap_fmap {A B C} (h : B → C) (g : nat → A → list B) (k : A → list C)
    (l : list A) :
  (∀ i a, h <$> g i a = k a) → h <$> concat (imap g l) = concat (k <$> l).
Proof.
  revert g. induction l as [|a l IH]; intros g Hg; [done|].
  rewrite imap_cons. simpl. rewrite fmap_app, Hg. f_equal.
  apply IH. intros i a'. apply Hg.
Qed.

Lemma elem_of_concat_imap {A B} (g : nat → A → list B) (l : list A) (x : B) :
  x ∈ concat (imap g l) ↔ ∃ i a, l !! i = Some a ∧ x ∈ g i a.
Proof.
  revert g. induction l as [|a l IH]; intros g.
  - simpl. split; [by intros ?%elem_of_nil|]. by intros (i & a & ? & _).
  - rewrite imap_cons. simpl. rewrite elem_of_app, IH. split.
    + intros [?|(i & a' & ? & ?)]; [by exists 0%nat, a|by exists (S i), a'].
    + intros ([|i] & a' & Hi & Hx); simplify_eq/=; [by left|].
      right. by exists i, a'.
Qed.

Lemma csv_rows_domains order clusters logo_data :
  Row.domain <$> csv_rows order clusters logo_data = concat (order <$> clusters).
Proof.
  unfold csv_rows. apply concat_imap_fmap. intros i c.
  rewrite <- list_fmap_compose. simpl. apply list_fmap_id.
Qed.

Lemma elem_of_csv_rows order clusters logo_data row :
  row ∈ csv_rows order clusters logo_data
  ↔ ∃ i c d, clusters !! i = Some c ∧ d ∈ order c
             ∧ row = {| Row.cluster_id := Z.of_nat i;
                        Row.domain := d;
                        Row.logo_url := logo_url_of logo_data d;
                        Row.cluster_size := Z.of_nat (size c) |}.
Proof.
  unfold csv_rows. rewrite elem_of_concat_imap. split.
  - intros (i & c & Hi & (d & -> & Hd)%list_elem_of_fmap). by exists i, c, d.
  - intros (i & c & d & Hi & Hd & ->). exists i, c. split; [done|].
    apply list_elem_of_fmap. by exists d.
Qed.

Lemma filter_none {A} (P : A → Prop) `{!∀ x, Decision (P x)} (l : list A) :
  (∀ x, x ∈ l → ¬ P x) → filter P l = [].
Proof.
  induction l as [|x l IH]; intros Hl; [done|].
  rewrite filter_cons_False by (apply Hl; left). apply IH.
  intros y Hy. apply Hl. by right.
Qed.

Lemma filter_all {A} (P : A → Prop) `{!∀ x, Decision (P x)} (l : list A) :
  (∀ x, x ∈ l → P x) → filter P l = l.
Proof.
  induction l as [|x l IH]; intros Hl; [done|].
  rewrite filter_cons_True by (apply Hl; left). f_equal. apply IH.
  intros y Hy. apply Hl. by right.
Qed.

(** The rows that carry one cluster number are the rows of that cluster. *)
Lemma filter_rows_id (g : nat → gset string → list Row.t) (k : nat)
    (l : list (gset string)) (i : nat) :
  (∀ j c r, r ∈ g j c → Row.cluster_id r = Z.of_nat (k + j)) →
  filter (λ r, Row.cluster_id r = Z.of_nat (k + i)) (concat (imap g l))
  = default [] (g i <$> l !! i).
Proof.
  revert g k i. induction l as [|c l IH]; intros g k i Hg; [done|].
  rewrite imap_cons. simpl concat. rewrite filter_app. destruct i as [|i].
  - rewrite filter_all.
    2:{ intros r Hr. by apply Hg in Hr. }
    rewrite filter_none; [by rewrite app_nil_r|].
    intros r (j & c' & _ & Hr)%elem_of_concat_imap. apply Hg in Hr. lia.
  - rewrite filter_none.
    2:{ intros r Hr. apply Hg in Hr. lia. }
    replace (k + S i)%nat with (S k + i)%nat by lia.
    rewrite (IH (g ∘ S) (S k) i); [done|].
    intros j c' r Hr. apply Hg in Hr. lia.
Qed.

(** X19: [save_results] writes one row of [clusters.csv] for every member
    of every cluster, hence exactly one for every clustered domain when the
    clusters are disjoint; a row carries the number and the size of the
    cluster of its domain and the URL of the record of the domain, and its
    [cluster_size] is the number of rows that carry its [cluster_id].
    [clusters.json] has one entry for every cluster, in the same order, whose
    [size] is the number of its [domains]. *)
Theorem output_files_agree (order : SetOrder) (clusters : list (gset string))
    (logo_data : Py.dict LogoData.t) :
  faithful order →
  (∀ i j c1 c2,
     i ≠ j → clusters !! i = Some c1 → clusters !! j = Some c2 → c1 ## c2) →
  let rows := csv_rows order clusters logo_data in
  let entries := clusters_json order clusters in
  NoDup (Row.domain <$> rows)
  ∧ (∀ d, d ∈ Row.domain <$> rows ↔ clustered clusters d)
  ∧ length rows = sum_list (size <$> clusters)
  ∧ (∀ row, row ∈ rows →
       ∃ c, clusters !! Z.to_nat (Row.cluster_id row) = Some c
            ∧ Row.domain row ∈ c
            ∧ Row.cluster_size row = Z.of_nat (size c)
            ∧ Row.logo_url row = logo_url_of logo_data (Row.domain row)
            ∧ Row.cluster_size row
              = Z.of_nat (length (filter (λ r, Row.cluster_id r = Row.cluster_id row)
                                         rows)))
  ∧ length entries = length clusters
  ∧ (∀ i entry, entries !! i = Some entry →
       ∃ c, clusters !! i = Some c
            ∧ ClusterEntry.cluster_id entry = Z.of_nat i
            ∧ ClusterEntry.size entry = Z.of_nat (length (ClusterEntry.domains entry))
            ∧ ClusterEntry.domains entry ≡ₚ elements c).
Proof.
  intros Horder Hdisj rows entries. split_and!.
  - unfold rows. rewrite csv_rows_domains. by apply NoDup_members.
  - intros d. unfold rows. rewrite csv_rows_domains. by apply elem_of_members.
  - rewrite <- (length_fmap Row.domain). unfold rows.
    rewrite csv_rows_domains. by apply length_members.
  - intros row (i & c & d & Hi & Hd & ->)%elem_of_csv_rows. simpl.
    exists c. rewrite Nat2Z.id.
    split_and!; [done|by apply (elem_of_order order Horder c d)|done..|].
    unfold rows, csv_rows.
    rewrite (filter_rows_id _ 0 clusters i).
    + rewrite Hi. simpl. by rewrite length_map, length_order.
    + by intros j c' r (d' & -> & _)%list_elem_of_fmap.
  - apply length_imap.
  - intros i entry Hentry. unfold entries, clusters_json in Hentry.
    rewrite list_lookup_imap in Hentry.
    destruct (clusters !! i) as [c|] eqn:Hi; [|done].
    injection Hentry as <-. exists c. simpl.
    split_and!; [done..|by rewrite length_order|apply Horder].
Qed.

Lemma output_files_agree_witness :
  faithful elements
  ∧ length (csv_rows elements [ {["a.com"; "b.com"]}; {["c.com"]} ]
              [("a.com", example_record "https://a.com/logo.png")]) = 3%nat
  ∧ NoDup (Row.domain <$> csv_rows elements [ {["a.com"; "b.com"]}; {["c.com"]} ]
                            [("a.com", example_record "https://a.com/logo.png")]).
Proof.
  assert (H1 : faithful elements) by (by intros c).
  assert (H2 : ∀ (i j : nat) (c1 c2 : gset string),
             i ≠ j →
             [ ({["a.com"; "b.com"]} : gset string); {["c.com"]} ] !! i = Some c1 →
             [ ({["a.com"; "b.com"]} : gset string); {["c.com"]} ] !! j = Some c2 →
             c1 ## c2).
  { intros [|[|i]] [|[|j]] c1 c2 Hij E1 E2; simplify_eq/=; try done; set_solver. }
  split_and!; [done|reflexivity|].
  exact (proj1 (output_files_agree elements _
                  [("a.com", example_record "https://a.com/logo.png")] H1 H2)).
Defined.

(** ** The whole run *)

Lemma collect_data_NoDup done_tasks logo_data :
  NoDup (Py.keys logo_data) →
  NoDup (Py.keys (fold_left collect_data done_tasks logo_data)).
Proof.
  revert logo_data. induction done_tasks as [|[d [r|]] done_tasks IH];
    intros logo_data Hnd; simpl; [done| |by apply IH].
  apply IH. unfold collect_data. simpl. by apply keys_set_NoDup.
Qed.

Lemma process_all_images_NoDup cfg w as_completed logo_urls logo_data :
  0 < HASH_CHUNK_SIZE cfg → 0 < MAX_CONCURRENT cfg →
  process_all_images cfg w as_completed logo_urls = Ok logo_data →
  NoDup (Py.keys logo_data).
Proof.
  intros Hchunk Hconc. unfold process_all_images.
  rewrite Semaphore_Ok by done. simpl.
  destruct (slices_Ok (HASH_CHUNK_SIZE cfg) (work_items logo_urls) Hchunk)
    as (chunks & -> & _). simpl.
  rewrite hash_chunks_Ok by done. intros [= <-].
  apply collect_data_NoDup, NoDup_nil_2.
Qed.

Lemma process_logo_has_phash cfg w u r :
  process_logo cfg w u = Some r → has_phash (Some r) = true ∧ LogoData.url r = u.
Proof.
  intros (img & hashes & _ & Hh & ->)%process_logo_Some.
  apply compute_hashes_Ok in Hh as (n & p & d & a & wv & _ & _ & _ & _ & _ & ->).
  split; [|done]. apply has_phash_true. eexists _, _, (ImageHash.to_str p).
  split_and!; [done..|]. apply to_str_nonempty.
Qed.

(** The records of a map all have a primary code: every key is a node. *)
Lemma valid_domains_records (logo_data : Py.dict LogoData.t) :
  (∀ item, item ∈ logo_data → has_phash (Some item.2) = true) →
  valid_domains (map (λ item, (item.1, Some item.2)) logo_data) = Py.keys logo_data.
Proof.
  unfold valid_domains, Py.keys, Py.dict in *.
  induction logo_data as [|[d r] logo_data IH]; intros Hall; [done|].
  simpl map. rewrite filter_cons_True by (apply Is_true_true, (Hall (d, r)); left).
  simpl. f_equal. apply IH. intros item Hin. apply Hall. by right.
Qed.

Lemma keys_records (logo_data : Py.dict LogoData.t) :
  Py.keys (map (λ item, (item.1, Some item.2)) logo_data) = Py.keys logo_data.
Proof.
  unfold Py.keys. induction logo_data as [|[d r] logo_data IH]; [done|].
  change (d :: (map (λ item : string * LogoData.t, (item.1, Some item.2)) logo_data).*1
          = d :: logo_data.*1).
  by f_equal.
Qed.

Lemma cluster_logos_spec cfg (logo_data : Py.dict LogoData.t) :
  NoDup (Py.keys logo_data) →
  (∀ item, item ∈ logo_data → has_phash (Some item.2) = true) →
  let clusters := cluster_logos cfg logo_data in
  (∀ d, clustered clusters d ↔ d ∈ Py.keys logo_data)
  ∧ (∀ i j c1 c2,
       i ≠ j → clusters !! i = Some c1 → clusters !! j = Some c2 → c1 ## c2)
  ∧ sum_list (size <$> clusters) = length logo_data.
Proof.
  intros Hnd Hall clusters. unfold clusters, cluster_logos.
  set (records := map (λ item : string * LogoData.t, (item.1, Some item.2)) logo_data).
  destruct (cluster_by_similarity_spec cfg records) as (Hcov & Hdisj & _).
  assert (valid_domains records = Py.keys logo_data) as Hvalid
    by by apply valid_domains_records.
  split_and!; [|done|].
  - intros d. by rewrite Hcov, Hvalid.
  - destruct (cluster_sizes_sum cfg records) as (Hsum & _).
    { unfold records. by rewrite keys_records. }
    rewrite Hsum, Hvalid. apply length_fmap.
Qed.

Lemma run_Ok cfg w as_completed order domains :
  0 < BATCH_SIZE cfg → 0 < MAX_CONCURRENT cfg → 0 < HASH_CHUNK_SIZE cfg →
  fair as_completed → faithful order →
  ∃ logo_data,
    process_all_images cfg w as_completed (extract_sequentially w domains)
    = Ok logo_data
    ∧ NoDup (Py.keys logo_data)
    ∧ (∀ d r, Py.get d logo_data = Some r
              ↔ d ∈ domains
                ∧ ∃ u, extract_logo_url w d = Some u ∧ process_logo cfg w u = Some r)
    ∧ run cfg w as_completed order domains
      = Ok {| Output.clusters := clusters_json order (cluster_logos cfg logo_data);
              Output.rows := csv_rows order (cluster_logos cfg logo_data) logo_data;
              Output.stats :=
                {| Stats.total_domains := Z.of_nat (length domains);
                   Stats.logos_extracted :=
                     if decide (domains = []) then 0
                     else Z.of_nat (length (remove_dups domains));
                   Stats.logos_processed := Z.of_nat (length logo_data) |} |}.
Proof.
  intros Hb Hc Hchunk Hfair Horder.
  destruct (extract_all_logos_stats_Ok cfg w domains 0 Hb Hc) as (logo_urls & E & Hst & _).
  rewrite extract_all_logos_sequential in E by done. injection E as <-.
  destruct (set_all_tabulates (extract_logo_url w) domains) as (Hnd & Hk & Hg).
  fold (extract_sequentially w domains) in Hnd, Hk, Hg.
  destruct (process_all_images_stats_Ok cfg w as_completed
              (extract_sequentially w domains) Hchunk Hc Hfair Hnd)
    as (logo_data & Ep & Hpst & _).
  destruct (process_all_images_Ok cfg w as_completed
              (extract_sequentially w domains) Hchunk Hc Hfair Hnd)
    as (logo_data' & Ep' & Hget).
  assert (logo_data' = logo_data) as -> by congruence.
  exists logo_data. split_and!; [done|by eapply process_all_images_NoDup| |].
  - intros d r. rewrite Hget. split.
    + intros (u & Hin & Hu & Hr).
      assert (d ∈ domains) as Hd.
      { apply Hk, list_elem_of_fmap. by exists (d, Some u). }
      split; [done|]. exists u. split; [|done].
      apply (elem_get_Some _ _ _ Hnd) in Hin. rewrite (Hg d Hd) in Hin. congruence.
    + intros (Hd & u & Hu & Hr). exists u. split_and!; [|  |done].
      * apply get_Some_elem. by rewrite (Hg d Hd), Hu.
      * destruct (extract_logo_url_nonempty w d) as (u' & Hu' & Hne). congruence.
  - unfold run. rewrite Hst. simpl. rewrite Hpst. done.
Qed.

(** X20: a run with positive sizes ends, and [clusters.csv] has exactly one
    row for every input domain whose logo was found, downloaded and hashed,
    and no other row; the row carries the URL that the extraction gave for
    the domain; and of the statistics, ['total_domains'] is the length of
    the input, ['logos_processed'] the number of rows, and
    ['logos_extracted'] the number of different domains of a non-empty
    input. *)
Theorem run_clusters_the_fingerprinted_domains (cfg : Config) (w : World)
    (as_completed : Scheduler) (order : SetOrder) (domains : list string) :
  0 < BATCH_SIZE cfg →
  0 < MAX_CONCURRENT cfg →
  0 < HASH_CHUNK_SIZE cfg →
  fair as_completed →
  faithful order →
  ∃ out,
    run cfg w as_completed order domains = Ok out
    ∧ NoDup (Row.domain <$> Output.rows out)
    ∧ (∀ d, d ∈ Row.domain <$> Output.rows out
            ↔ d ∈ domains ∧ fingerprinted cfg w d)
    ∧ (∀ row, row ∈ Output.rows out →
              extract_logo_url w (Row.domain row) = Some (Row.logo_url row))
    ∧ Stats.total_domains (Output.stats out) = Z.of_nat (length domains)
    ∧ Stats.logos_processed (Output.stats out) = Z.of_nat (length (Output.rows out))
    ∧ (domains ≠ [] →
       Stats.logos_extracted (Output.stats out)
       = Z.of_nat (length (remove_dups domains))).
Proof.
  intros Hb Hc Hchunk Hfair Horder.
  destruct (run_Ok cfg w as_completed order domains Hb Hc Hchunk Hfair Horder)
    as (logo_data & _ & Hnd & Hget & ->).
  assert (∀ item, item ∈ logo_data → has_phash (Some item.2) = true) as Hall.
  { intros [d r] Hin. apply (elem_get_Some _ _ _ Hnd) in Hin.
    apply Hget in Hin as (_ & u & _ & Hr). simpl.
    by destruct (process_logo_has_phash cfg w u r Hr). }
  destruct (cluster_logos_spec cfg logo_data Hnd Hall) as (Hcov & Hdisj & Hsum).
  eexists. split; [done|]. simpl. split_and!.
  - rewrite csv_rows_domains. by apply NoDup_members.
  - intros d. rewrite csv_rows_domains, elem_of_members, Hcov, <- get_is_Some by done.
    split.
    + intros [r (Hd & u & Hu & Hr)%Hget]. split; [done|]. by exists u, r.
    + intros (Hd & u & r & Hu & Hr). exists r. apply Hget. split; [done|]. by exists u.
  - intros row (i & c & d & Hi & Hd & ->)%elem_of_csv_rows. simpl.
    assert (clustered (cluster_logos cfg logo_data) d) as Hcl.
    { exists c. split; [by eapply list_elem_of_lookup_2|].
      by apply (elem_of_order order Horder c d). }
    apply Hcov, get_is_Some in Hcl as [r Hr]. unfold logo_url_of. rewrite Hr.
    apply Hget in Hr as (_ & u & Hu & Hr). rewrite Hu.
    by destruct (process_logo_has_phash cfg w u r Hr) as [_ ->].
  - done.
  - rewrite <- (length_fmap Row.domain), csv_rows_domains, length_members by done.
    by rewrite Hsum.
  - intros Hne. by rewrite decide_False.
Qed.

Lemma run_clusters_the_fingerprinted_domains_witness :
  0 < BATCH_SIZE default_config
  ∧ 0 < MAX_CONCURRENT default_config
  ∧ 0 < HASH_CHUNK_SIZE default_config
  ∧ fair id
  ∧ faithful elements
  ∧ (∃ out, run default_config example_world id elements example_domains = Ok out
            ∧ Row.domain <$> Output.rows out = ["c.com"; "a.com"]
            ∧ Output.stats out
              = {| Stats.total_domains := 3; Stats.logos_extracted := 3;
                   Stats.logos_processed := 2 |})
  ∧ ∃ out, run default_config example_world id elements example_domains = Ok out
           ∧ ∀ d, d ∈ Row.domain <$> Output.rows out
                  ↔ d ∈ example_domains ∧ fingerprinted default_config example_world d.
Proof.
  assert (H1 : 0 < BATCH_SIZE default_config) by reflexivity.
  assert (H2 : 0 < MAX_CONCURRENT default_config) by reflexivity.
  assert (H3 : 0 < HASH_CHUNK_SIZE default_config) by reflexivity.
  assert (H4 : faithful elements) by (by intros c).
  split_and!; [done|done|done|exact fair_id|done| |].
  - eexists. split_and!; [reflexivity|reflexivity|reflexivity].
  - destruct (run_clusters_the_fingerprinted_domains default_config example_world
                id elements example_domains H1 H2 H3 fair_id H4)
      as (out & E & _ & Hrows & _).
    by exists out.
Defined.

(** ** The clusters do not depend on the order of the records *)

Section SameRecords.
Variable logo_data1 logo_data2 : Py.dict (option LogoData.t).
Hypothesis Hkeys1 : NoDup (Py.keys logo_data1).
Hypothesis Hkeys2 : NoDup (Py.keys logo_data2).
Hypothesis Hsame : ∀ d, Py.get d logo_data1 = Py.get d logo_data2.

Lemma same_records_valid d :
  d ∈ valid_domains logo_data1 ↔ d ∈ valid_domains logo_data2.
Proof.
  rewrite !elem_of_valid_domains. split; intros (data & Hin & Hp); exists data.
  - split; [|done]. apply get_Some_elem. rewrite <- Hsame. by apply elem_get_Some.
  - split; [|done]. apply get_Some_elem. rewrite Hsame. by apply elem_get_Some.
Qed.

Lemma same_records_distance u v :
  domain_distance logo_data1 u v = domain_distance logo_data2 u v.
Proof. unfold domain_distance, phash_of. by rewrite !Hsame. Qed.

Lemma same_records_near cfg u v :
  near cfg logo_data1 u v → near cfg logo_data2 u v.
Proof.
  intros (Hu & Hv & Hne & Hd). split_and!; [by apply same_records_valid..|done|].
  by rewrite <- same_records_distance.
Qed.

Lemma same_records_chain cfg u v :
  rtc (near cfg logo_data1) u v → rtc (near cfg logo_data2) u v.
Proof.
  induction 1 as [|x y z Hxy _ IH]; [done|].
  eapply rtc_l; [|exact IH]. by apply same_records_near.
Qed.

End SameRecords.

Lemma cluster_unique cfg logo_data c1 c2 d :
  c1 ∈ cluster_by_similarity cfg logo_data →
  c2 ∈ cluster_by_similarity cfg logo_data →
  d ∈ c1 → d ∈ c2 → c1 = c2.
Proof.
  intros [i Hi]%list_elem_of_lookup [j Hj]%list_elem_of_lookup H1 H2.
  destruct (cluster_by_similarity_spec cfg logo_data) as (_ & Hdisj & _).
  destruct (decide (i = j)) as [->|Hij]; [congruence|].
  by destruct (Hdisj i j c1 c2 Hij Hi Hj d).
Qed.

Lemma same_records_cluster cfg logo_data1 logo_data2 c :
  NoDup (Py.keys logo_data1) → NoDup (Py.keys logo_data2) →
  (∀ d, Py.get d logo_data1 = Py.get d logo_data2) →
  c ∈ cluster_by_similarity cfg logo_data1 →
  c ∈ cluster_by_similarity cfg logo_data2.
Proof.
  intros Hk1 Hk2 Hsame Hc.
  destruct (cluster_by_similarity_spec cfg logo_data1) as (Hcov1 & _ & Hcomp1).
  destruct (cluster_by_similarity_spec cfg logo_data2) as (Hcov2 & _ & _).
  destruct (Hcomp1 c Hc) as (Hne & _ & _). apply set_choose_L in Hne as [u Hu].
  assert (u ∈ valid_domains logo_data1) as Hu1 by (apply Hcov1; by exists c).
  assert (u ∈ valid_domains logo_data2) as Hu2 by by apply (same_records_valid logo_data1).
  destruct (proj2 (Hcov2 u) Hu2) as (c' & Hc' & Hu').
  assert (c = c') as ->; [|done].
  apply set_eq. intros v. split.
  - intros Hv.
    assert (same_cluster (cluster_by_similarity cfg logo_data2) u v) as (c'' & ? & ? & ?).
    { apply same_cluster_chain; [done..|].
      apply (same_records_chain logo_data1); [done..|].
      apply same_cluster_chain; [done..|]. by exists c. }
    by rewrite (cluster_unique cfg logo_data2 c' c'' u).
  - intros Hv.
    assert (same_cluster (cluster_by_similarity cfg logo_data1) u v) as (c'' & ? & ? & ?).
    { apply same_cluster_chain; [done..|].
      apply (same_records_chain logo_data2); [done..|].
      apply same_cluster_chain; [done..|]. by exists c'. }
    by rewrite (cluster_unique cfg logo_data1 c c'' u).
Qed.

(** X21: the set of clusters depends on the records only, not on the order
    in which the dictionary holds them: two dictionaries with the same
    entries give the same clusters, possibly listed in another order. *)
Theorem clusters_ignore_record_order (cfg : Config)
    (logo_data1 logo_data2 : Py.dict (option LogoData.t)) :
  NoDup (Py.keys logo_data1) →
  NoDup (Py.keys logo_data2) →
  (∀ d, Py.get d logo_data1 = Py.get d logo_data2) →
  (∀ c, c ∈ cluster_by_similarity cfg logo_data1
        ↔ c ∈ cluster_by_similarity cfg logo_data2)
  ∧ length (cluster_by_similarity cfg logo_data1)
    = length (cluster_by_similarity cfg logo_data2).
Proof.
  intros Hk1 Hk2 Hsame.
  assert (∀ c, c ∈ cluster_by_similarity cfg logo_data1
               ↔ c ∈ cluster_by_similarity cfg logo_data2) as Hiff.
  { intros c. split; apply same_records_cluster; done. }
  split; [done|].
  apply Permutation_length, NoDup_Permutation; [| |done].
  - apply NoDup_alt. intros i j c Hi Hj.
    destruct (decide (i = j)) as [|Hij]; [done|].
    destruct (cluster_by_similarity_spec cfg logo_data1) as (_ & Hdisj & Hcomp).
    destruct (Hcomp c (list_elem_of_lookup_2 _ _ _ Hi)) as (Hne & _).
    apply set_choose_L in Hne as [x Hx]. by destruct (Hdisj i j c c Hij Hi Hj x).
  - apply NoDup_alt. intros i j c Hi Hj.
    destruct (decide (i = j)) as [|Hij]; [done|].
    destruct (cluster_by_similarity_spec cfg logo_data2) as (_ & Hdisj & Hcomp).
    destruct (Hcomp c (list_elem_of_lookup_2 _ _ _ Hi)) as (Hne & _).
    apply set_choose_L in Hne as [x Hx]. by destruct (Hdisj i j c c Hij Hi Hj x).
Qed.

Lemma clusters_ignore_record_order_witness :
  NoDup (Py.keys three_logos)
  ∧ NoDup (Py.keys (reverse three_logos))
  ∧ cluster_by_similarity default_config three_logos
    = [ {["a.com"; "b.com"; "c.com"]}; {["d.com"]} ]
  ∧ cluster_by_similarity default_config (reverse three_logos)
    = [ {["d.com"]}; {["a.com"; "b.com"; "c.com"]} ]
  ∧ ∀ c, c ∈ cluster_by_similarity default_config three_logos
         ↔ c ∈ cluster_by_similarity default_config (reverse three_logos).
Proof.
  assert (H1 : NoDup (Py.keys three_logos)) by by_evaluation.
  assert (H2 : NoDup (Py.keys (reverse three_logos))) by by_evaluation.
  split_and!; [done|done|reflexivity|reflexivity|].
  refine (proj1 (clusters_ignore_record_order default_config three_logos
                   (reverse three_logos) H1 H2 _)).
  intros d.
  destruct (decide (d = "a.com")) as [->|?]; [reflexivity|].
  destruct (decide (d = "b.com")) as [->|?]; [reflexivity|].
  destruct (decide (d = "c.com")) as [->|?]; [reflexivity|].
  destruct (decide (d = "d.com")) as [->|?]; [reflexivity|].
  destruct (decide (d = "e.com")) as [->|?]; [reflexivity|].
  unfold three_logos, reverse. simpl. by rewrite !decide_False.
Defined.

(** ** The order of the clusters *)

Section ComponentOrder.
Import nx.
Variable G : Graph.
Hypothesis HG : graph_wf G.

Lemma components_step_order processed rest st v :
  _node G = processed ++ v :: rest →
  components_inv G processed st → order_inv G processed st →
  order_inv G (processed ++ [v]) (components_step G st v).
Proof.
  intros Hnodes Hinv [Hlead Hord].
  assert (v ∈ _node G) as Hv by (rewrite Hnodes; apply elem_of_app; right; left).
  unfold components_step. case_decide as Hseen.
  - split; [|done]. intros c Hc. destruct (Hlead c Hc) as (u & ? & ?).
    exists u. split; [done|]. apply elem_of_app. by left.
  - destruct (plain_bfs_component G HG v Hv) as (Hin & Hn & Hc & Hat).
    set (c := _plain_bfs G (length (_node G)) v) in *.
    assert (Hdisj : c ## st.1).
    { specialize (Hat st.1 (ci_closed _ _ _ Hinv)). by rewrite decide_False in Hat. }
    split; simpl.
    + intros c' [Hc'| ->%list_elem_of_singleton]%elem_of_app.
      * destruct (Hlead c' Hc') as (u & ? & ?).
        exists u. split; [done|]. apply elem_of_app. by left.
      * exists v. split; [done|]. apply elem_of_app. right. left.
    + intros i j c1 c2 Hij [[_ Hi]|[-> <-]]%lookup_snoc_Some
        [[_ Hj]|[-> <-]]%lookup_snoc_Some.
      * by apply (Hord i j).
      * destruct (Hlead c1 (list_elem_of_lookup_2 _ _ _ Hi)) as (u & Hu & Hup).
        exists u. split; [done|]. intros x Hx.
        apply list_elem_of_split in Hup as (l1 & l2 & ->).
        exists l1, (l2 ++ v :: rest). split.
        { rewrite Hnodes. by rewrite <- app_assoc. }
        assert (x ∈ l1 ++ u :: l2 ∨ x ∈ v :: rest) as [Hold|Hnew]; [| |by apply elem_of_app; right].
        { apply elem_of_app. rewrite <- Hnodes. by apply Hn. }
        exfalso. apply (Hdisj x Hx). by apply (ci_processed _ _ _ Hinv).
      * apply lookup_lt_Some in Hj. lia.
      * lia.
Qed.

Lemma components_fold_order rest processed st :
  _node G = processed ++ rest →
  components_inv G processed st → order_inv G processed st →
  order_inv G (processed ++ rest) (fold_left (components_step G) rest st).
Proof.
  revert processed st. induction rest as [|v rest IH]; intros processed st Hnodes Hinv Hord.
  - by rewrite app_nil_r.
  - simpl. rewrite cons_middle, app_assoc. apply IH.
    + by rewrite <- app_assoc.
    + apply components_step_inv; [done| |done].
      rewrite Hnodes. apply elem_of_app. right. left.
    + by eapply components_step_order.
Qed.

Lemma connected_components_order i j c1 c2 :
  (i < j)%nat →
  connected_components G !! i = Some c1 →
  connected_components G !! j = Some c2 →
  led_by (_node G) c1 c2.
Proof.
  unfold connected_components.
  destruct (components_fold_order (_node G) [] (∅, [])) as [_ Hord];
    [done|apply components_inv_init| |].
  - split; [by intros c ?%elem_of_nil|]. by intros i' j' c1' c2' _ ?.
  - apply Hord.
Qed.

End ComponentOrder.

Lemma node_list_add_node n G :
  nx._node (nx.add_node n G)
  = if decide (n ∈ nx._node G) then nx._node G else nx._node G ++ [n].
Proof. unfold nx.add_node. by case_decide. Qed.

Lemma node_list_add_nodes l G :
  NoDup l → (∀ x, x ∈ l → x ∉ nx._node G) →
  nx._node (fold_left (λ G domain, nx.add_node domain G) l G) = nx._node G ++ l.
Proof.
  revert G. induction l as [|d l IH]; intros G Hnd Hfresh; simpl.
  - by rewrite app_nil_r.
  - apply NoDup_cons in Hnd as [Hd Hnd]. rewrite IH; [|done|].
    + rewrite node_list_add_node, decide_False by (apply Hfresh; left).
      by rewrite <- app_assoc.
    + intros x Hx. rewrite node_list_add_node, decide_False by (apply Hfresh; left).
      intros [?| ->%list_elem_of_singleton]%elem_of_app; [|done].
      by apply (Hfresh x); [right|].
Qed.

Lemma node_list_add_edge u v d G :
  u ∈ nx._node G → v ∈ nx._node G → nx._node (nx.add_edge u v d G) = nx._node G.
Proof.
  intros Hu Hv. unfold nx.add_edge. simpl.
  rewrite !node_list_add_node. rewrite (decide_True (P := u ∈ nx._node G)) by done.
  by rewrite decide_True.
Qed.

Lemma node_list_add_edges_from cfg logo_data d1 rest G :
  d1 ∈ nx._node G → (∀ x, x ∈ rest → x ∈ nx._node G) →
  nx._node (add_edges_from cfg logo_data d1 rest G) = nx._node G.
Proof.
  unfold add_edges_from. revert G.
  induction rest as [|d2 rest IH]; intros G Hd1 Hrest; simpl; [done|].
  assert (d2 ∈ nx._node G) as Hd2 by (apply Hrest; left).
  case_decide.
  - rewrite IH; rewrite ?node_list_add_edge by done; [done..|].
    intros x Hx. apply Hrest. by right.
  - apply IH; [done|]. intros x Hx. apply Hrest. by right.
Qed.

Lemma node_list_add_all_edges cfg logo_data valid G :
  (∀ x, x ∈ valid → x ∈ nx._node G) →
  nx._node (add_all_edges cfg logo_data valid G) = nx._node G.
Proof.
  revert G. induction valid as [|d1 rest IH]; intros G Hvalid; simpl; [done|].
  assert (nx._node (add_edges_from cfg logo_data d1 rest G) = nx._node G) as Hstep.
  { apply node_list_add_edges_from; [apply Hvalid; left|].
    intros x Hx. apply Hvalid. by right. }
  rewrite IH; [done|]. intros x Hx. rewrite Hstep. apply Hvalid. by right.
Qed.

Lemma similarity_graph_nodes cfg logo_data :
  NoDup (Py.keys logo_data) →
  nx._node (similarity_graph cfg logo_data) = valid_domains logo_data.
Proof.
  intros Hk. unfold similarity_graph.
  assert (nx._node (fold_left (λ G domain, nx.add_node domain G)
                      (valid_domains logo_data) nx.empty)
          = valid_domains logo_data) as Hnodes.
  { rewrite node_list_add_nodes; [done|by apply valid_domains_NoDup|].
    by intros x _ ?%elem_of_nil. }
  rewrite node_list_add_all_edges; [done|]. intros x Hx. by rewrite Hnodes.
Qed.

(** X22: the clusters are listed in the order in which their first domains
    appear among the records: of two clusters, the one listed first has a
    member that comes before every member of the other; so the first
    cluster is the one of the first record with a primary code. *)
Theorem clusters_follow_record_order (cfg : Config)
    (logo_data : Py.dict (option LogoData.t)) :
  NoDup (Py.keys logo_data) →
  let clusters := cluster_by_similarity cfg logo_data in
  (∀ i j c1 c2,
     (i < j)%nat → clusters !! i = Some c1 → clusters !! j = Some c2 →
     led_by (valid_domains logo_data) c1 c2)
  ∧ (∀ d rest, valid_domains logo_data = d :: rest →
               ∃ c, clusters !! 0%nat = Some c ∧ d ∈ c).
Proof.
  intros Hk clusters.
  destruct (similarity_graph_spec cfg logo_data) as (HG & _ & _).
  pose proof (similarity_graph_nodes cfg logo_data Hk) as Hnodes.
  assert (∀ i j c1 c2,
     (i < j)%nat → clusters !! i = Some c1 → clusters !! j = Some c2 →
     led_by (valid_domains logo_data) c1 c2) as Hord.
  { intros i j c1 c2 Hij Hi Hj. rewrite <- Hnodes.
    by apply (connected_components_order _ HG i j). }
  split; [done|]. intros d rest Hvalid.
  destruct (cluster_by_similarity_spec cfg logo_data) as (Hcov & _ & _).
  fold clusters in Hcov.
  destruct (proj2 (Hcov d)) as (c & [j Hj]%list_elem_of_lookup & Hd).
  { rewrite Hvalid. left. }
  destruct j as [|j]; [by exists c|]. exfalso.
  destruct (clusters !! 0%nat) as [c0|] eqn:H0.
  2:{ apply lookup_ge_None in H0. apply lookup_lt_Some in Hj. lia. }
  destruct (Hord 0%nat (S j) c0 c ltac:(lia) H0 Hj) as (u & _ & Hu).
  destruct (Hu d Hd) as (l1 & l2 & Hsplit & Hin).
  pose proof (valid_domains_NoDup logo_data Hk) as Hnd.
  rewrite Hsplit in Hnd. rewrite Hvalid in Hsplit.
  destruct l1 as [|x l1]; simplify_eq/=.
  - apply NoDup_cons in Hnd as [Hnd _]. done.
  - apply NoDup_cons in Hnd as [Hnd _]. apply Hnd.
    apply elem_of_app. right. by right.
Qed.

Lemma clusters_follow_record_order_witness :
  NoDup (Py.keys three_logos)
  ∧ valid_domains three_logos = ["a.com"; "b.com"; "c.com"; "d.com"]
  ∧ ∃ c, cluster_by_similarity default_config three_logos !! 0%nat = Some c
         ∧ "a.com" ∈ c.
Proof.
  assert (H1 : NoDup (Py.keys three_logos)) by by_evaluation.
  split_and!; [done|reflexivity|].
  exact (proj2 (clusters_follow_record_order default_config three_logos H1)
           "a.com" ["b.com"; "c.com"; "d.com"] eq_refl).
Defined.

(** ** When no record is made *)

Lemma download_image_None cfg w url :
  download_image cfg w url = None
  ↔ (∃ e, session_get w url = Raise e)
    ∨ ∃ response,
        session_get w url = Ok response
        ∧ (Response.status response ≠ 200
           ∨ (∃ e, Response.read response = Raise e)
           ∨ ∃ image_data,
               Response.read response = Ok image_data
               ∧ ((∃ e, Image_open w image_data = Raise e)
                  ∨ ∃ img, Image_open w image_data = Ok img
                           ∧ _validate_image cfg img = false)).
Proof.
  unfold download_image.
  destruct (session_get w url) as [response|e]; simpl.
  2:{ split; [|done]. intros _. left. by exists e. }
  case_decide as Hs; simpl.
  { split; [|done]. intros _. right. exists response. split; [done|]. by left. }
  destruct (Response.read response) as [image_data|e] eqn:Er; simpl.
  2:{ split; [|done]. intros _. right. exists response. split; [done|].
      right. left. by exists e. }
  destruct (Image_open w image_data) as [img|e] eqn:Eo; simpl.
  2:{ split; [|done]. intros _. right. exists response. split; [done|].
      right. right. exists image_data. split; [done|]. left. by exists e. }
  destruct (_validate_image cfg img) eqn:Hv; simpl.
  - split; [done|].
    intros [[e He]|(r & Hr & [Hst|[[e He]|(data & Hd & [[e He]|(img' & Hi & Hf)])]])];
      simplify_eq; congruence.
  - split; [|done]. intros _. right. exists response. split; [done|].
    right. right. exists image_data. split; [done|]. right. by exists img.
Qed.

(** X23: [process_logo] never raises, and it returns nothing in these
    cases only: the request raises or is answered with a status other than
    200, the body cannot be read, the bytes are no image, the image is
    smaller than [MIN_IMAGE_SIZE] on a side, or normalizing or hashing the
    image raises. *)
Theorem process_logo_fails_only_when_a_step_fails (cfg : Config) (w : World)
    (url : string) :
  process_logo cfg w url = None
  ↔ (∃ e, session_get w url = Raise e)
    ∨ ∃ response,
        session_get w url = Ok response
        ∧ (Response.status response ≠ 200
           ∨ (∃ e, Response.read response = Raise e)
           ∨ ∃ image_data,
               Response.read response = Ok image_data
               ∧ ((∃ e, Image_open w image_data = Raise e)
                  ∨ ∃ img, Image_open w image_data = Ok img
                           ∧ ((Image.size img).1 < MIN_IMAGE_SIZE cfg
                              ∨ (Image.size img).2 < MIN_IMAGE_SIZE cfg
                              ∨ ∃ e, compute_hashes cfg w img = Raise e))).
Proof.
  unfold process_logo. destruct (download_image cfg w url) as [img|] eqn:Ed.
  - apply download_image_Some in Ed as (response & image_data & Hg & Hs & Hr & Ho & Hv).
    apply validate_image_true in Hv.
    destruct (compute_hashes cfg w img) as [hashes|e] eqn:Eh; simpl.
    + split; [done|].
      intros [[e He]|(r & Hr' & [Hst|[[e He]|(data & Hd & [[e He]|(img' & Hi & Hf)])]])];
        try congruence; merge_Ok; try congruence.
      destruct Hf as [?|[?|[e ?]]]; [lia|lia|congruence].
    + split; [|done]. intros _. right. exists response. split; [done|]. right. right.
      exists image_data. split; [done|]. right. exists img. split; [done|].
      right. right. by exists e.
  - split; [|done]. intros _.
    apply download_image_None in Ed
      as [?|(r & ? & [?|[?|(data & ? & [?|(img & ? & Hv)])]])];
      [by left|right; exists r; split; [done|]..].
    + by left.
    + right. by left.
    + right. right. exists data. split; [done|]. by left.
    + right. right. exists data. split; [done|]. right. exists img. split; [done|].
      apply validate_image_false in Hv. tauto.
Qed.

Example process_logo_fails_example :
  process_logo default_config example_world "https://b.com/favicon.ico" = None
  ∧ process_logo default_config example_world "https://nowhere.example/logo.png" = None
  ∧ process_logo (with_min_size default_config 200) example_world
      "https://a.com/logo.png" = None.
Proof. by vm_compute. Qed.

(** ** Normalizing *)

(** X24: [normalize_image] keeps the mode of an [RGB], [L] or [RGBA] image
    (an alpha channel is not removed) and turns every other mode into
    [RGB]; the image it returns has the side [NORMALIZE_SIZE] and no file
    format. *)
Theorem normalize_image_mode (cfg : Config) (w : World) (img out : Image.t) :
  normalize_image cfg w img = Ok out →
  Image.mode out
  = (if decide (Image.mode img ∈ ["RGB"; "L"; "RGBA"]) then Image.mode img else "RGB")
  ∧ Image.size out = (NORMALIZE_SIZE cfg, NORMALIZE_SIZE cfg)
  ∧ Image.format out = None.
Proof.
  rewrite normalize_image_unfold. intros (img1 & H1 & H2)%bind_Ok.
  assert (Image.mode img1
          = if decide (Image.mode img ∈ ["RGB"; "L"; "RGBA"])
            then Image.mode img else "RGB") as Hmode.
  { unfold to_known_mode in H1. destruct (decide (Image.mode img ∈ _)) as [Hin|Hin].
    - rewrite decide_False in H1 by by intros ?. by injection H1 as <-.
    - rewrite decide_True in H1 by done.
      by apply Image_convert_Ok in H1 as [-> _]. }
  unfold Image_resize in H2.
  match type of H2 with context [decide ?P] => destruct (decide P) end; [|done].
  apply bind_Ok in H2 as (data & _ & [= <-]). simpl. by rewrite Hmode.
Qed.

Lemma normalize_image_mode_witness :
  normalize_image default_config example_world example_palette_image
  = Ok {| Image.mode := "RGB"; Image.size := (64, 64);
          Image.format := None; Image.data := png_bytes |}
  ∧ Image.mode {| Image.mode := "RGB"; Image.size := (64, 64);
                  Image.format := None; Image.data := png_bytes |}
    = (if decide (Image.mode example_palette_image ∈ ["RGB"; "L"; "RGBA"])
       then Image.mode example_palette_image else "RGB").
Proof.
  assert (H1 : normalize_image default_config example_world example_palette_image
               = Ok {| Image.mode := "RGB"; Image.size := (64, 64);
                       Image.format := None; Image.data := png_bytes |})
    by reflexivity.
  split; [done|].
  exact (proj1 (normalize_image_mode default_config example_world _ _ H1)).
Defined.

Lemma collect_data_nothing done_tasks logo_data :
  (∀ t, t ∈ done_tasks → t.2 = None) →
  fold_left collect_data done_tasks logo_data = logo_data.
Proof.
  revert logo_data. induction done_tasks as [|[d o] done_tasks IH];
    intros logo_data Hnone; [done|].
  simpl. assert (o = None) as -> by (apply (Hnone (d, o)); left).
  apply IH. intros t Ht. apply Hnone. by right.
Qed.

(** X25: under a [NORMALIZE_SIZE] that is not positive the resize raises for
    every image, so [process_logo] makes no record of any URL and
    [process_all_images] returns the empty map. *)
Theorem nothing_is_hashed_without_a_size (cfg : Config) (w : World)
    (as_completed : Scheduler) (logo_urls : Py.dict (option string)) :
  NORMALIZE_SIZE cfg ≤ 0 →
  (∀ img, ∃ e, normalize_image cfg w img = Raise e)
  ∧ (∀ url, process_logo cfg w url = None)
  ∧ (0 < HASH_CHUNK_SIZE cfg → 0 < MAX_CONCURRENT cfg → fair as_completed →
     process_all_images cfg w as_completed logo_urls = Ok []).
Proof.
  intros Hsize.
  assert (∀ img, ∃ e, normalize_image cfg w img = Raise e) as Hnorm.
  { intros img. rewrite normalize_image_unfold.
    destruct (to_known_mode w img) as [img1|e]; simpl; [|by exists e].
    unfold Image_resize. rewrite decide_False by (simpl; lia). by eexists. }
  assert (∀ url, process_logo cfg w url = None) as Hnone.
  { intros url. unfold process_logo.
    destruct (download_image cfg w url) as [img|]; [|done].
    unfold compute_hashes. by destruct (Hnorm img) as [e ->]. }
  split_and!; [done..|]. intros Hchunk Hconc Hfair.
  unfold process_all_images. rewrite Semaphore_Ok by done. simpl.
  destruct (slices_Ok (HASH_CHUNK_SIZE cfg) (work_items logo_urls) Hchunk)
    as (chunks & -> & _). simpl.
  rewrite hash_chunks_Ok by done. f_equal. apply collect_data_nothing.
  intros t. rewrite (completed_Permutation cfg w as_completed chunks Hfair).
  intros (item & -> & _)%list_elem_of_fmap. apply Hnone.
Qed.

Lemma nothing_is_hashed_without_a_size_witness :
  NORMALIZE_SIZE (with_normalize_size default_config 0) ≤ 0
  ∧ process_logo (with_normalize_size default_config 0) example_world
      "https://a.com/logo.png" = None
  ∧ process_logo default_config example_world "https://a.com/logo.png"
    = Some (example_record "https://a.com/logo.png").
Proof.
  assert (H1 : NORMALIZE_SIZE (with_normalize_size default_config 0) ≤ 0)
    by (vm_compute; discriminate).
  split_and!; [done| |reflexivity].
  exact (proj1 (proj2 (nothing_is_hashed_without_a_size
                         (with_normalize_size default_config 0) example_world
                         id example_urls H1)) "https://a.com/logo.png").
Defined.

(** ** The URL utilities *)

Lemma prefix_cons_inv a p s :
  String.prefix (String a p) s = true → ∃ s', s = String a s' ∧ String.prefix p s' = true.
Proof.
  destruct s as [|b s]; simpl; [done|].
  destruct (ascii_dec a b) as [->|]; [|done]. intros Hp. by exists s.
Qed.

Lemma contains_tail keyword c s :
  contains keyword s = true → contains keyword (String c s) = true.
Proof. intros H. simpl. rewrite H. apply orb_true_r. Qed.

Lemma contains_favicon s :
  contains "favicon" s = true → contains "icon" s = true.
Proof.
  induction s as [|c s IH].
  - by vm_compute.
  - intros [Hp|Ht]%orb_true_iff; [|by apply contains_tail, IH].
    apply prefix_cons_inv in Hp as (s1 & -> & Hp).
    apply prefix_cons_inv in Hp as (s2 & -> & Hp).
    apply prefix_cons_inv in Hp as (s3 & -> & Hp).
    do 3 apply contains_tail.
    destruct s3 as [|c3 s3]; [done|].
    change (contains "icon" (String c3 s3))
      with (String.prefix "icon" (String c3 s3) || contains "icon" s3).
    by rewrite Hp.
Qed.

(** X26: in [is_valid_image_url] the keyword ['favicon'] decides nothing:
    a path that contains it contains ['icon'], so the function returns what
    it would return with the keywords ['logo'] and ['icon'] alone; and a
    missing or empty URL is refused without being parsed. *)
Theorem favicon_keyword_decides_nothing (lib : UrlLib) (url : option string) :
  is_valid_image_url lib url = is_valid_image_url_with ["logo"; "icon"] lib url
  ∧ is_valid_image_url lib None = Ok false
  ∧ is_valid_image_url lib (Some "") = Ok false.
Proof.
  split_and!; [|done..].
  unfold is_valid_image_url, is_valid_image_url_with.
  destruct url as [url|]; [|done]. destruct (negb (Py.str_truthy url)); [done|].
  destruct (urlparse lib (str_lower lib url)) as [parsed|e]; [|done].
  change (Ok parsed ≫= ?f) with (f parsed). cbv beta.
  destruct (existsb (endswith (ParseResult.path parsed)) valid_extensions); [done|].
  pose proof (contains_favicon (str_lower lib (ParseResult.path parsed))) as Hf.
  unfold image_keywords. cbn [existsb].
  destruct (contains "logo" (str_lower lib (ParseResult.path parsed))); [done|].
  destruct (contains "icon" (str_lower lib (ParseResult.path parsed))); [done|].
  destruct (contains "favicon" (str_lower lib (ParseResult.path parsed))); [|done].
  by specialize (Hf eq_refl).
Qed.

Example is_valid_image_url_example :
  is_valid_image_url example_lib (Some "https://a.com/favicon.ico") = Ok true
  ∧ is_valid_image_url example_lib (Some "https://a.com/static/brand.webp") = Ok true
  ∧ is_valid_image_url example_lib (Some "https://a.com/header-icons/1") = Ok true
  ∧ is_valid_image_url example_lib (Some "https://a.com/about.html") = Ok false.
Proof. by vm_compute. Qed.

Lemma prefix_nonempty p s : String.prefix p s = true → p ≠ "" → s ≠ "".
Proof. destruct p, s; done. Qed.

(** X27: [normalize_url] answers [None] for a missing or empty URL and
    for no other; it returns a URL that begins with [http://] or
    [https://] as it is, whatever the base, so a URL it returned in that
    form is left alone when it is normalized again; and a URL that begins
    with [//] gets the scheme of the base and a colon in front. *)
Theorem normalize_url_cases (lib : UrlLib) (url : option string)
    (base_url : string) :
  (normalize_url lib url base_url = Ok None ↔ url = None ∨ url = Some "")
  ∧ (∀ u, url = Some u →
          String.prefix "http://" u = true ∨ String.prefix "https://" u = true →
          normalize_url lib url base_url = Ok (Some u)
          ∧ ∀ base_url', normalize_url lib (Some u) base_url' = Ok (Some u))
  ∧ (∀ u parsed_base, url = Some u → String.prefix "//" u = true →
          urlparse lib base_url = Ok parsed_base →
          normalize_url lib url base_url
          = Ok (Some (ParseResult.scheme parsed_base +:+ ":" +:+ u))).
Proof.
  assert (∀ u base, String.prefix "http://" u = true ∨ String.prefix "https://" u = true →
            normalize_url lib (Some u) base = Ok (Some u)) as Habs.
  { intros u base Hp. unfold normalize_url.
    assert (u ≠ "") as Hu by (destruct Hp; by eapply prefix_nonempty).
    rewrite (proj2 (str_truthy_nonempty u) Hu). simpl.
    assert (String.prefix "//" u = false) as ->.
    { destruct Hp as [Hp|Hp]; apply prefix_cons_inv in Hp as (s' & -> & _); done. }
    destruct Hp as [-> | ->]; [done|by rewrite orb_true_r]. }
  split_and!.
  - unfold normalize_url. destruct url as [u|]; [|naive_solver].
    destruct (Py.str_truthy u) eqn:Eu; simpl.
    + apply str_truthy_nonempty in Eu.
      split; [|by intros [?|[= ->]]].
      destruct (String.prefix "//" u).
      * by destruct (urlparse lib base_url).
      * destruct (_ || _); [done|]. by destruct (urljoin lib base_url u).
    + split; [|done]. intros _. right. f_equal.
      apply not_true_iff_false in Eu. rewrite str_truthy_nonempty in Eu.
      by destruct (decide (u = "")) as [|Hne]; [|destruct (Eu Hne)].
  - intros u -> Hp. split; [by apply Habs|]. intros base'. by apply Habs.
  - intros u parsed_base -> Hp Hparse. unfold normalize_url.
    assert (u ≠ "") as Hu by by eapply prefix_nonempty.
    rewrite (proj2 (str_truthy_nonempty u) Hu). simpl. by rewrite Hp, Hparse.
Qed.

Example normalize_url_example :
  normalize_url example_lib (Some "//cdn.a.com/logo.png") "https://a.com"
  = Ok (Some "https://cdn.a.com/logo.png")
  ∧ normalize_url example_lib (Some "http://b.com/logo.png") "https://a.com"
    = Ok (Some "http://b.com/logo.png")
  ∧ normalize_url example_lib (Some "/logo.png") "https://a.com"
    = Ok (Some "https://a.com/logo.png")
  ∧ normalize_url example_lib (Some "") "https://a.com" = Ok None.
Proof. by vm_compute. Qed.

(** ** Two runs *)

Lemma get_records (logo_data : Py.dict LogoData.t) d :
  Py.get d (map (λ item, (item.1, Some item.2)) logo_data)
  = Some <$> Py.get d logo_data.
Proof.
  induction logo_data as [|[k r] logo_data IH]; [done|].
  simpl. by case_decide.
Qed.

Lemma cluster_logos_same cfg (logo_data1 logo_data2 : Py.dict LogoData.t) c :
  NoDup (Py.keys logo_data1) → NoDup (Py.keys logo_data2) →
  (∀ d, Py.get d logo_data1 = Py.get d logo_data2) →
  c ∈ cluster_logos cfg logo_data1 → c ∈ cluster_logos cfg logo_data2.
Proof.
  intros Hk1 Hk2 Hsame. unfold cluster_logos. apply same_records_cluster.
  - by rewrite keys_records.
  - by rewrite keys_records.
  - intros d. by rewrite !get_records, Hsame.
Qed.

(** In a list of disjoint clusters the number of a cluster is known from
    any of its members. *)
Lemma cluster_index cfg logo_data i j c1 c2 d1 d2 :
  cluster_by_similarity cfg logo_data !! i = Some c1 →
  cluster_by_similarity cfg logo_data !! j = Some c2 →
  d1 ∈ c1 → d2 ∈ c2 →
  i = j ↔ d2 ∈ c1.
Proof.
  intros Hi Hj H1 H2. split; [intros ->; congruence|]. intros H21.
  destruct (cluster_by_similarity_spec cfg logo_data) as (_ & Hdisj & _).
  destruct (decide (i = j)) as [|Hij]; [done|].
  by destruct (Hdisj i j c1 c2 Hij Hi Hj d2).
Qed.

(** X28: two runs on the same input that differ in the order in which the
    downloads complete and in which the sets are iterated write the same
    partition: the same domains have a row, the rows of a domain carry the
    same URL and cluster size, and two domains carry one cluster number in
    one run exactly when they do in the other; the cluster numbers themselves
    may differ.  The statistics are the same. *)
Theorem runs_agree_up_to_cluster_numbers (cfg : Config) (w : World)
    (as_completed1 as_completed2 : Scheduler) (order1 order2 : SetOrder)
    (domains : list string) :
  0 < BATCH_SIZE cfg →
  0 < MAX_CONCURRENT cfg →
  0 < HASH_CHUNK_SIZE cfg →
  fair as_completed1 → fair as_completed2 →
  faithful order1 → faithful order2 →
  ∃ out1 out2,
    run cfg w as_completed1 order1 domains = Ok out1
    ∧ run cfg w as_completed2 order2 domains = Ok out2
    ∧ Output.stats out1 = Output.stats out2
    ∧ (∀ d, d ∈ Row.domain <$> Output.rows out1 ↔ d ∈ Row.domain <$> Output.rows out2)
    ∧ ∀ r1 r1' r2 r2',
        r1 ∈ Output.rows out1 → r1' ∈ Output.rows out1 →
        r2 ∈ Output.rows out2 → r2' ∈ Output.rows out2 →
        Row.domain r1 = Row.domain r2 → Row.domain r1' = Row.domain r2' →
        Row.logo_url r1 = Row.logo_url r2
        ∧ Row.cluster_size r1 = Row.cluster_size r2
        ∧ (Row.cluster_id r1 = Row.cluster_id r1'
           ↔ Row.cluster_id r2 = Row.cluster_id r2').
Proof.
  intros Hb Hc Hchunk Hf1 Hf2 Ho1 Ho2.
  destruct (run_Ok cfg w as_completed1 order1 domains Hb Hc Hchunk Hf1 Ho1)
    as (ld1 & _ & Hnd1 & Hget1 & ->).
  destruct (run_Ok cfg w as_completed2 order2 domains Hb Hc Hchunk Hf2 Ho2)
    as (ld2 & _ & Hnd2 & Hget2 & ->).
  destruct (get_ext ld1 ld2 _ Hget1 Hget2) as [Hsame Hkeys].
  assert (length ld1 = length ld2) as Hlen.
  { rewrite <- (length_fmap fst ld1), <- (length_fmap fst ld2).
    apply Permutation_length, NoDup_Permutation; done. }
  assert (∀ c, c ∈ cluster_logos cfg ld1 ↔ c ∈ cluster_logos cfg ld2) as Hcl.
  { intros c. split; apply cluster_logos_same; done. }
  eexists _, _. split_and!; [done|done| | |]; simpl.
  - by rewrite Hlen.
  - intros d. rewrite !csv_rows_domains, !elem_of_members by done.
    unfold clustered. by setoid_rewrite Hcl.
  - intros r1 r1' r2 r2'
      (i & c & d & Hi & Hd & ->)%elem_of_csv_rows
      (i' & c' & d' & Hi' & Hd' & ->)%elem_of_csv_rows
      (k & e & x & Hk & Hx & ->)%elem_of_csv_rows
      (k' & e' & x' & Hk' & Hx' & ->)%elem_of_csv_rows; simpl.
    intros <- <-.
    apply (elem_of_order order1 Ho1) in Hd, Hd'.
    apply (elem_of_order order2 Ho2) in Hx, Hx'.
    assert (c = e) as <-.
    { apply (cluster_unique cfg (map (λ item, (item.1, Some item.2)) ld2) c e d);
        [|by eapply list_elem_of_lookup_2|done..].
      apply Hcl. by eapply list_elem_of_lookup_2. }
    split_and!.
    + unfold logo_url_of. by rewrite Hsame.
    + done.
    + rewrite !(inj_iff Z.of_nat).
      unfold cluster_logos in *.
      rewrite (cluster_index cfg (map (λ item, (item.1, Some item.2)) ld1)
                 i i' c c' d d' Hi Hi' Hd Hd').
      by rewrite (cluster_index cfg (map (λ item, (item.1, Some item.2)) ld2)
                    k k' c e' d d' Hk Hk' Hx Hx').
Qed.

Lemma runs_agree_up_to_cluster_numbers_witness :
  ∃ out1 out2,
    run default_config example_world id elements example_domains = Ok out1
    ∧ run default_config example_world reverse (λ c, reverse (elements c))
        example_domains = Ok out2
    ∧ Row.domain <$> Output.rows out1 = ["c.com"; "a.com"]
    ∧ Row.domain <$> Output.rows out2 = ["a.com"; "c.com"]
    ∧ Output.stats out1 = Output.stats out2.
Proof.
  assert (H1 : 0 < BATCH_SIZE default_config) by reflexivity.
  assert (H2 : 0 < MAX_CONCURRENT default_config) by reflexivity.
  assert (H3 : 0 < HASH_CHUNK_SIZE default_config) by reflexivity.
  assert (H4 : faithful elements) by (by intros c).
  assert (H5 : faithful (λ c, reverse (elements c)))
    by (intros c; apply reverse_Permutation).
  destruct (runs_agree_up_to_cluster_numbers default_config example_world
              id reverse elements (λ c, reverse (elements c)) example_domains
              H1 H2 H3 fair_id fair_reverse H4 H5)
    as (out1 & out2 & E1 & E2 & Hst & _).
  exists out1, out2. split_and!; [done|done| | |done].
  - vm_compute in E1. by injection E1 as <-.
  - vm_compute in E2. by injection E2 as <-.
Defined.
